(** * rm-qmd-hasher: source registry, derived-artifact cache and job registry

    A shallow embedding of the Go packages [pkg/hashtab], [pkg/gcdcache],
    [internal/jobs], [internal/qmldiff] and of [processHashJob] from
    [internal/handlers], followed by the properties stated about them.
    Embedded as well are the closing of channels, [GetVersions],
    [GenerateAll] and the handlers [Hash], [GetResults] and [Download],
    with further properties of the whole after the first ones.

    Conventions.
    - Go maps are [gmap]s; a lookup of a missing key gives the zero value,
      written out with [default].
    - A Go [error] is its message; [None] is [nil].
    - [time.Time] is an instant in nanoseconds, [time.Duration] a saturating
      signed 64-bit difference.
    - Everything outside the process (clock, directory tree, [os.Stat], the
      [qmldiff] binary, file copies) is read from an environment: a sequence
      of worlds indexed by the number of interactions made so far, so the
      outside may change between any two interactions.
    - Each method that holds the mutex for its whole body is one atomic
      transition. *)

From stdpp Require Import gmap strings list fin_maps pretty sorting.
From Stdlib Require Import ZArith Lia.
From Stdlib Require OrderedTypeEx.

Open Scope string_scope.
Open Scope list_scope.

(** ** Go runtime boundary *)

Module Os.

Definition Time := Z.
Definition Duration := Z.
Definition error := string.

Definition minDuration : Duration := (- 2 ^ 63)%Z.
Definition maxDuration : Duration := (2 ^ 63 - 1)%Z.
Definition Second : Duration := 1000000000%Z.
Definition Minute : Duration := (60 * Second)%Z.

(** [t.Sub(u)]: the difference, clamped to the range of a Duration. *)
Definition time_Sub (t u : Time) : Duration :=
  Z.max minDuration (Z.min maxDuration (t - u)).

(** [t.Equal(u)] *)
Definition time_Equal (t u : Time) : bool := (t =? u)%Z.

(** [time.Time{}], January 1 of year 1, relative to the Unix epoch. *)
Definition zeroTime : Time := (-62135596800 * Second)%Z.

(** Functions of the Go standard library the code calls and this
    development does not look into: [filepath.Join] of two elements,
    [filepath.Base], and the conversion
    [int(float64(i) / float64(n) * 100)]. *)
Class GoLib := {
  filepath_Join : string → string → string;
  filepath_Base : string → string;
  percentOf : nat → nat → Z
}.

Definition newline : string := String (Ascii.ascii_of_nat 10) "".

(** What [filepath.WalkDir] shows its callback: the entries it visits, in
    order, each with the outcome of [d.Info()] ([ModTime] or an error),
    and then, when the walk meets an I/O error, one call with [err] set.
    Both callbacks of this program return that error, which ends the
    walk. *)
Record DirEntry := mkDirEntry {
  de_path : string;
  de_IsDir : bool;
  de_Info : option Time
}.

Record Walk := mkWalk {
  visited : list DirEntry;
  failure : option error
}.

Inductive StatResult :=
| StatOk (modTime : Time)
| StatNotExist
| StatError (e : error).

(** [cmd.Run()] with the two captured buffers. *)
Record RunResult := mkRunResult {
  run_err : option error;
  run_stdout : string;
  run_stderr : string
}.

Inductive result (A : Type) :=
| Ok (a : A)
| Err (e : error).
Arguments Ok {A} a.
Arguments Err {A} e.

Definition is_Ok {A} (r : result A) : bool :=
  match r with Ok _ => true | Err _ => false end.

End Os.

(** ** The parsed source artifact *)

Module HashtabFile.

(** Modelled from the spec: the type [Hashtab] of package [hashtab] and
    its parser [Load] are not among the sources.  The record carries what
    the spec lists for a source artifact and the call sites read
    ([Name], [Path], [OSVersion], [Device], [len(Entries)],
    [IsHashlist()]); [Load] is an answer of the world below. *)
Record Hashtab := mkHashtab {
  Name : string;
  Path : string;
  OSVersion : string;
  Device : string;
  Entries : nat;
  IsHashlist : bool
}.

End HashtabFile.

(** ** The world outside and the monad of the services *)

Module Env.
Import Os HashtabFile.

Record World := mkWorld {
  now : Time;
  walkDir : string → Walk;
  load : string → option Hashtab;
  stat : string → StatResult;
  mkdirAll : string → option error;
  run : string → list string → RunResult;
  open : string → option error;
  create : string → option error;
  ioCopy : string → string → option error
}.

Definition Env := nat → World.

(** [Exec], [Remove] and [RemoveAll] are the effects the code has on the
    outside.  [Generate] marks an entry into [generateGCD]; the code has
    no such effect, the mark is there for the statements. *)
Inductive Event :=
| Exec (binary : string) (args : list string)
| Remove (path : string)
| RemoveAll (path : string)
| Generate (version : string).

Record Machine (St : Type) := mkMachine {
  tick : nat;
  trace : list Event;
  self : St
}.
Arguments mkMachine {St} _ _ _.
Arguments tick {St} _.
Arguments trace {St} _.
Arguments self {St} _.

Definition M (St A : Type) : Type := Env → Machine St → A * Machine St.

Definition ret {St A} (a : A) : M St A := λ _ m, (a, m).

Definition bind {St A B} (c : M St A) (k : A → M St B) : M St B :=
  λ env m, let '(a, m') := c env m in k a env m'.

Declare Scope go_scope.
Delimit Scope go_scope with go.
Notation "x <- c ;; k" := (bind c (λ x, k))
  (at level 20, c at level 99, k at level 200) : go_scope.
Notation "' pat <- c ;; k" := (bind c (λ x, match x with pat => k end))
  (at level 20, pat pattern, c at level 99, k at level 200) : go_scope.
Notation "c ;; k" := (bind c (λ _, k))
  (at level 100, k at level 200, right associativity) : go_scope.

(** One interaction with the outside: the world as it is now; the next
    interaction may see another. *)
Definition observe {St} : M St World :=
  λ env m, (env (tick m), mkMachine (S (tick m)) (trace m) (self m)).

Definition emit {St} (e : Event) : M St unit :=
  λ _ m, (tt, mkMachine (tick m) (trace m ++ [e]) (self m)).

Definition get {St} : M St St := λ _ m, (self m, m).

Definition put {St} (s : St) : M St unit :=
  λ _ m, (tt, mkMachine (tick m) (trace m) s).

Definition modify {St} (f : St → St) : M St unit :=
  λ _ m, (tt, mkMachine (tick m) (trace m) (f (self m))).

(** A method of a service held in a field of [St]. *)
Definition zoom {St T A} (proj : St → T) (upd : T → St → St) (c : M T A)
    : M St A :=
  λ env m,
    let '(a, m') := c env (mkMachine (tick m) (trace m) (proj (self m))) in
    (a, mkMachine (tick m') (trace m') (upd (self m') (self m))).

Definition timeNow {St} : M St Time :=
  (w <- observe ;; ret (now w))%go.

Definition osStat {St} (path : string) : M St StatResult :=
  (w <- observe ;; ret (stat w path))%go.

End Env.

(** ** Package [internal/jobs] *)

Module Jobs.
Import Os.

Record FileResult := mkFileResult {
  fr_Name : string;
  fr_Path : string;
  fr_Status : string;
  fr_Error : string
}.

(** [Data] is a Go map that may be [nil]; [Files] does not tell a nil
    slice from an empty one (no code here does). *)
Record Job := mkJob {
  Status : string;
  Message : string;
  Data : option (gmap string string);
  Progress : Z;
  Operation : string;
  Files : list FileResult;
  OutputDir : string;
  FileCount : Z;
  CompletedAt : option Time
}.

(** A [chan *Job] is known by its identity; [heap] holds the queued
    snapshots of every channel made so far and [nextChan] the identity the
    next [make] returns.  Every channel is made with capacity 10. *)
Definition chan := nat.
Definition chanCap : nat := 10.

Record Store := mkStore {
  jobs : gmap string Job;
  watchers : gmap string (list chan);
  heap : gmap chan (list Job);
  nextChan : chan
}.

Definition NewStore : Store :=
  {| jobs := ∅; watchers := ∅; heap := ∅; nextChan := 0 |}.

Definition Create (id : string) (s : Store) : Job * Store :=
  let j := {| Status := "pending"; Message := "Job created"; Data := None;
              Progress := 0; Operation := ""; Files := [];
              OutputDir := ""; FileCount := 0; CompletedAt := None |} in
  (j, {| jobs := <[id := j]> (jobs s);
         watchers := <[id := []]> (watchers s);
         heap := heap s; nextChan := nextChan s |}).

Definition Get (id : string) (s : Store) : option Job := jobs s !! id.

Definition copyJob (job : Job) : Job :=
  {| Status := Status job;
     Message := Message job;
     Data := Some (default ∅ (Data job));
     Progress := Progress job;
     Operation := Operation job;
     Files := Files job;
     OutputDir := "";
     FileCount := FileCount job;
     CompletedAt := None |}.

Definition buffer (ch : chan) (s : Store) : list Job :=
  default [] (heap s !! ch).

(** [select { case ch <- v: default: }] *)
Definition trySend (v : Job) (s : Store) (ch : chan) : Store :=
  if decide (length (buffer ch s) < chanCap)
  then {| jobs := jobs s; watchers := watchers s;
          heap := <[ch := buffer ch s ++ [v]]> (heap s);
          nextChan := nextChan s |}
  else s.

Definition broadcastLocked (id : string) (s : Store) : Store :=
  match jobs s !! id with
  | None => s
  | Some job =>
      foldl (trySend (copyJob job)) s (default [] (watchers s !! id))
  end.

Definition setJob (id : string) (j : Job) (s : Store) : Store :=
  {| jobs := <[id := j]> (jobs s); watchers := watchers s;
     heap := heap s; nextChan := nextChan s |}.

Definition terminal (status : string) : bool :=
  bool_decide (status = "success") || bool_decide (status = "error").

(** [now] is the reading [time.Now()] gives on the stamping branch. *)
Definition stamp (status : string) (now : Time) (j : Job) : option Time :=
  if terminal status && bool_decide (CompletedAt j = None)
  then Some now else CompletedAt j.

Definition Update (id status message : string)
    (data : option (gmap string string)) (now : Time) (s : Store) : Store :=
  match jobs s !! id with
  | Some j =>
      let j' := {| Status := status;
                   Message := message;
                   Data := match data with Some d => Some d | None => Data j end;
                   Progress := Progress j;
                   Operation := Operation j;
                   Files := Files j;
                   OutputDir := OutputDir j;
                   FileCount := FileCount j;
                   CompletedAt := stamp status now j |} in
      broadcastLocked id (setJob id j' s)
  | None => s
  end.

Definition clampPercent (p : Z) : Z :=
  if (p <? 0)%Z then 0%Z else if (100 <? p)%Z then 100%Z else p.

Definition UpdateProgress (id : string) (p : Z) (s : Store) : Store :=
  let p := clampPercent p in
  match jobs s !! id with
  | Some j =>
      let j' := {| Status := Status j; Message := Message j; Data := Data j;
                   Progress := p;
                   Operation := Operation j; Files := Files j;
                   OutputDir := OutputDir j; FileCount := FileCount j;
                   CompletedAt := CompletedAt j |} in
      broadcastLocked id (setJob id j' s)
  | None => s
  end.

Definition UpdateWithOperation (id status message : string)
    (data : option (gmap string string)) (operation : string)
    (now : Time) (s : Store) : Store :=
  match jobs s !! id with
  | Some j =>
      let j' := {| Status := status;
                   Message := message;
                   Data := match data with Some d => Some d | None => Data j end;
                   Progress := Progress j;
                   Operation := operation;
                   Files := Files j;
                   OutputDir := OutputDir j;
                   FileCount := FileCount j;
                   CompletedAt := stamp status now j |} in
      broadcastLocked id (setJob id j' s)
  | None => s
  end.

Definition SetOutputDir (id outputDir : string) (s : Store) : Store :=
  match jobs s !! id with
  | Some j =>
      setJob id {| Status := Status j; Message := Message j; Data := Data j;
                   Progress := Progress j; Operation := Operation j;
                   Files := Files j;
                   OutputDir := outputDir;
                   FileCount := FileCount j;
                   CompletedAt := CompletedAt j |} s
  | None => s
  end.

Definition SetFiles (id : string) (files : list FileResult) (s : Store)
    : Store :=
  match jobs s !! id with
  | Some j =>
      setJob id {| Status := Status j; Message := Message j; Data := Data j;
                   Progress := Progress j; Operation := Operation j;
                   Files := files;
                   OutputDir := OutputDir j;
                   FileCount := Z.of_nat (length files);
                   CompletedAt := CompletedAt j |} s
  | None => s
  end.

Definition AddFile (id : string) (file : FileResult) (s : Store) : Store :=
  match jobs s !! id with
  | Some j =>
      let files := Files j ++ [file] in
      let j' := {| Status := Status j; Message := Message j; Data := Data j;
                   Progress := Progress j; Operation := Operation j;
                   Files := files;
                   OutputDir := OutputDir j;
                   FileCount := Z.of_nat (length files);
                   CompletedAt := CompletedAt j |} in
      broadcastLocked id (setJob id j' s)
  | None => s
  end.

(** [Subscribe]: the channel is made and registered under the lock; the
    first snapshot is sent after the lock is released.  The channel is new
    and empty, so that blocking send completes at once; the two parts are
    taken together here, with no other call in between.  The [unsubscribe]
    closure and [Cleanup], which close channels, are not embedded. *)
Definition Subscribe (id : string) (s : Store) : chan * Store :=
  let ch := nextChan s in
  let s1 := {| jobs := jobs s;
               watchers := <[id := default [] (watchers s !! id) ++ [ch]]>
                             (watchers s);
               heap := <[ch := []]> (heap s);
               nextChan := S ch |} in
  match jobs s1 !! id with
  | Some job =>
      (ch, {| jobs := jobs s1; watchers := watchers s1;
              heap := <[ch := buffer ch s1 ++ [copyJob job]]> (heap s1);
              nextChan := nextChan s1 |})
  | None => (ch, s1)
  end.

(** The consumer side of a channel: [<-ch] on a non-empty buffer. *)
Definition receive (ch : chan) (s : Store) : option Job * Store :=
  match buffer ch s with
  | [] => (None, s)
  | v :: rest =>
      (Some v, {| jobs := jobs s; watchers := watchers s;
                  heap := <[ch := rest]> (heap s);
                  nextChan := nextChan s |})
  end.

Definition ttl : Duration := (10 * Minute)%Z.

Definition expired (now : Time) (job : Job) : bool :=
  match CompletedAt job with
  | Some t => (ttl <? time_Sub now t)%Z
  | None => false
  end.

(** The body of the [range s.jobs] loop of [cleanupOldJobs]. *)
Definition sweepOne (now : Time) (id : string) (job : Job) (s : Store)
    : Store :=
  if expired now job then
    if decide (length (default [] (watchers s !! id)) = 0)
    then {| jobs := delete id (jobs s);
            watchers := delete id (watchers s);
            heap := heap s; nextChan := nextChan s |}
    else s
  else s.

Definition cleanupOldJobs (now : Time) (s : Store) : Store :=
  map_fold (sweepOne now) s (jobs s).

End Jobs.

(** ** Package [pkg/hashtab] *)

Module Hashtabs.
Import Os HashtabFile Env.

Record Service := mkService {
  hashtables : list Hashtab;
  dir : string;
  modTimes : gmap string Time;
  pathByName : gmap string string;
  byVersion : gmap string (list Hashtab);
  lastReloadCheck : Time
}.

Definition emptyService (dir : string) : Service :=
  {| hashtables := []; dir := dir; modTimes := ∅; pathByName := ∅;
     byVersion := ∅; lastReloadCheck := zeroTime |}.

(** The fields both walks rebuild, leaving [dir] and [lastReloadCheck]. *)
Definition resetTables (s : Service) : Service :=
  {| hashtables := []; dir := dir s; modTimes := ∅; pathByName := ∅;
     byVersion := ∅; lastReloadCheck := lastReloadCheck s |}.

Definition setLastReloadCheck (t : Time) (s : Service) : Service :=
  {| hashtables := hashtables s; dir := dir s; modTimes := modTimes s;
     pathByName := pathByName s; byVersion := byVersion s;
     lastReloadCheck := t |}.

Section WithGoLib.
Context {lib : GoLib}.

(** The callback of the loading walk, for a call without error.  The
    same body stands twice in the source, in [loadHashtables] and in
    the second walk of [CheckAndReload]; the two differ in what they
    log.  [loadedNames] is the local map of the enclosing function. *)
Definition loadFn (w : World) (acc : gmap string string * Service)
    (d : DirEntry) : gmap string string * Service :=
  let '(loadedNames, s) := acc in
  if de_IsDir d then acc
  else
    let path := de_path d in
    let filename := filepath_Base path in
    match loadedNames !! filename with
    | Some _ => acc
    | None =>
        match load w path with
        | None => acc
        | Some ht =>
            (<[filename := path]> loadedNames,
             {| hashtables := hashtables s ++ [ht];
                dir := dir s;
                modTimes := match de_Info d with
                            | Some t => <[path := t]> (modTimes s)
                            | None => modTimes s
                            end;
                pathByName := <[filename := path]> (pathByName s);
                byVersion :=
                  <[OSVersion ht :=
                      default [] (byVersion s !! OSVersion ht) ++ [ht]]>
                    (byVersion s);
                lastReloadCheck := lastReloadCheck s |})
        end
    end.

Definition loadWalk (w : World) (s : Service) : Service :=
  (foldl (loadFn w) (∅, s) (visited (walkDir w (dir s)))).2.

Definition loadHashtables : M Service (option error) :=
  (w <- observe ;;
   s <- get ;;
   put (loadWalk w s) ;;
   match failure (walkDir w (dir s)) with
   | Some e => ret (Some ("failed to walk hashtable directory: " +:+ e))
   | None => ret None
   end)%go.

(** [NewService] builds the value it returns: it runs on a machine
    whose state is the service under construction. *)
Definition NewService : M Service (option error) :=
  (s <- get ;;
   st <- osStat (dir s) ;;
   match st with
   | StatNotExist =>
       w <- observe ;;
       match mkdirAll w (dir s) with
       | Some e =>
           ret (Some ("failed to create hashtable directory: " +:+ e))
       | None => ret None
       end
   | _ => loadHashtables
   end)%go.

(** The callback of the first walk of [CheckAndReload], for a call
    without error. *)
Definition detectFn (known : gmap string Time)
    (acc : gmap string Time * bool) (d : DirEntry)
    : gmap string Time * bool :=
  let '(currentFiles, needsReload) := acc in
  if de_IsDir d then acc
  else
    match de_Info d with
    | None => acc
    | Some modTime =>
        (<[de_path d := modTime]> currentFiles,
         match known !! de_path d with
         | Some lastMod =>
             if time_Equal lastMod modTime then needsReload else true
         | None => true
         end)
    end.

(** [for path := range s.modTimes]: some recorded path is gone. *)
Definition someRemoved (known currentFiles : gmap string Time) : bool :=
  negb (bool_decide
          (map_Forall (λ path _, is_Some (currentFiles !! path)) known)).

Definition CheckAndReload : M Service (bool * option error) :=
  (t <- timeNow ;;
   s <- get ;;
   if (time_Sub t (lastReloadCheck s) <? 5 * Second)%Z
   then ret (false, None)
   else
     t' <- timeNow ;;
     modify (setLastReloadCheck t') ;;
     w <- observe ;;
     let walk := walkDir w (dir s) in
     let '(currentFiles, needsReload) :=
       foldl (detectFn (modTimes s)) (∅, false) (visited walk) in
     match failure walk with
     | Some e =>
         ret (false,
              Some ("failed to walk hashtable directory: " +:+ e))
     | None =>
         if negb (needsReload || someRemoved (modTimes s) currentFiles)
         then ret (false, None)
         else
           modify resetTables ;;
           w2 <- observe ;;
           s2 <- get ;;
           put (loadWalk w2 s2) ;;
           match failure (walkDir w2 (dir s2)) with
           | Some e =>
               ret (false, Some ("failed to reload hashtables: " +:+ e))
           | None => ret (true, None)
           end
     end)%go.

End WithGoLib.

Definition GetHashtables (s : Service) : list Hashtab := hashtables s.

Definition GetHashtable (name : string) (s : Service) : option Hashtab :=
  find (λ ht, bool_decide (Name ht = name)) (hashtables s).

Definition GetHashtabsForVersion (version : string) (s : Service)
    : list Hashtab :=
  default [] (byVersion s !! version).

Definition GetModTimes (s : Service) : gmap string Time := modTimes s.

(** The in-memory structures a reload rebuilds. *)
Definition tables (s : Service) :=
  (hashtables s, pathByName s, byVersion s, modTimes s).

End Hashtabs.

(** ** Package [pkg/gcdcache] *)

Module GcdCache.
Import Os Env.

Record GCDHashtab := mkGCDHashtab {
  Version : string;
  Path : string;
  SourceModTime : Time;
  DeviceCount : Z
}.

(** [hashtabService] is a pointer in the source; the registry it points
    to is reached through this service only in the code embedded here. *)
Record Service := mkService {
  gcdDir : string;
  qmldiffBinary : string;
  hashtabService : Hashtabs.Service;
  gcdHashtabs : gmap string GCDHashtab;
  sourceModTimes : gmap string (gmap string Time)
}.

Definition withRegistry {A} (c : M Hashtabs.Service A) : M Service A :=
  zoom hashtabService
       (λ h s, {| gcdDir := gcdDir s; qmldiffBinary := qmldiffBinary s;
                  hashtabService := h; gcdHashtabs := gcdHashtabs s;
                  sourceModTimes := sourceModTimes s |})
       c.

(** The source artifacts the registry holds for a version. *)
Definition registeredFor (version : string) (s : Service)
    : list HashtabFile.Hashtab :=
  Hashtabs.GetHashtabsForVersion version (hashtabService s).

(** The runs of [qmldiff gcd-hashtab] in a trace. *)
Definition isMerge (e : Event) : bool :=
  match e with
  | Exec _ (sub :: _) => bool_decide (sub = "gcd-hashtab")
  | _ => false
  end.

Definition merges (tr : list Event) : nat := length (List.filter isMerge tr).

(** The two assignments made under the lock at the end of a generation. *)
Definition install (version : string) (g : GCDHashtab)
    (mods : gmap string Time) (s : Service) : Service :=
  {| gcdDir := gcdDir s; qmldiffBinary := qmldiffBinary s;
     hashtabService := hashtabService s;
     gcdHashtabs := <[version := g]> (gcdHashtabs s);
     sourceModTimes := <[version := mods]> (sourceModTimes s) |}.

(** [runQmldiff], file qmldiff.go *)
Definition runQmldiff {St} (binary : string) (args : list string)
    : M St (option error) :=
  (emit (Exec binary args) ;;
   w <- observe ;;
   let r := run w binary args in
   match run_err r with
   | Some e =>
       ret (Some ("command failed: " +:+ e +:+ newline +:+ "stderr: "
                  +:+ run_stderr r +:+ newline +:+ "stdout: "
                  +:+ run_stdout r))
   | None => ret None
   end)%go.

(** The loop of [generateGCD] that fills [modTimes]. *)
Fixpoint statAll {St} (hashtabs : list HashtabFile.Hashtab)
    (modTimes : gmap string Time) : M St (gmap string Time) :=
  match hashtabs with
  | [] => ret modTimes
  | ht :: rest =>
      (st <- osStat (HashtabFile.Path ht) ;;
       match st with
       | StatOk t => statAll rest (<[HashtabFile.Path ht := t]> modTimes)
       | _ => statAll rest modTimes
       end)%go
  end.

(** The loop of [GetGCDHashtab] over the registry's artifacts: it stops at
    the first path that can be stat'ed and whose modification time is not
    the recorded one. *)
Fixpoint anyChanged {St} (sourceMods : gmap string Time)
    (hashtabs : list HashtabFile.Hashtab) : M St bool :=
  match hashtabs with
  | [] => ret false
  | ht :: rest =>
      (st <- osStat (HashtabFile.Path ht) ;;
       match st with
       | StatOk t =>
           match sourceMods !! HashtabFile.Path ht with
           | Some oldMod =>
               if time_Equal oldMod t then anyChanged sourceMods rest
               else ret true
           | None => ret true
           end
       | _ => anyChanged sourceMods rest
       end)%go
  end.

Section WithGoLib.
Context {lib : GoLib}.

Definition NewService (gcdDir qmldiffBinary : string)
    (hashtabService : Hashtabs.Service) : M unit (result Service) :=
  (w <- observe ;;
   match mkdirAll w gcdDir with
   | Some e =>
       ret (Err ("failed to create GCD hashtab directory: " +:+ e))
   | None =>
       ret (Ok {| gcdDir := gcdDir; qmldiffBinary := qmldiffBinary;
                  hashtabService := hashtabService;
                  gcdHashtabs := ∅; sourceModTimes := ∅ |})
   end)%go.

Definition outputPathFor (gcdDir version : string) : string :=
  filepath_Join gcdDir (version +:+ ".gcd").

Definition generateGCD (version : string) : M Service (option error) :=
  (emit (Generate version) ;;
   s <- get ;;
   let hashtabs :=
     Hashtabs.GetHashtabsForVersion version (hashtabService s) in
   match hashtabs with
   | [] => ret (Some ("no hashtabs found for version " +:+ version))
   | [ht] =>
       t1 <- timeNow ;;
       t2 <- timeNow ;;
       modify (install version
                 {| Version := version; Path := HashtabFile.Path ht;
                    SourceModTime := t1; DeviceCount := 1 |}
                 {[ HashtabFile.Path ht := t2 ]}) ;;
       ret None
   | _ =>
       let outputPath := outputPathFor (gcdDir s) version in
       let args :=
         ["gcd-hashtab"; outputPath] ++ map HashtabFile.Path hashtabs in
       r <- runQmldiff (qmldiffBinary s) args ;;
       match r with
       | Some e => ret (Some ("qmldiff gcd-hashtab failed: " +:+ e))
       | None =>
           t <- timeNow ;;
           modTimes <- statAll hashtabs ∅ ;;
           modify (install version
                     {| Version := version; Path := outputPath;
                        SourceModTime := t;
                        DeviceCount := Z.of_nat (length hashtabs) |}
                     modTimes) ;;
           ret None
       end
   end)%go.

(** The [else] branch of [GetGCDHashtab]: is a generation needed when
    the registry reported no reload? *)
Definition needsRegen (version : string) : M Service bool :=
  (s <- get ;;
   match gcdHashtabs s !! version with
   | None => ret true
   | Some gcd =>
       let sourceMods := default ∅ (sourceModTimes s !! version) in
       let hashtabs :=
         Hashtabs.GetHashtabsForVersion version (hashtabService s) in
       if bool_decide (Z.of_nat (length hashtabs) ≠ DeviceCount gcd)
       then ret true
       else anyChanged sourceMods hashtabs
   end)%go.

Definition cachedPath (version : string) : M Service (result string) :=
  (s <- get ;;
   match gcdHashtabs s !! version with
   | None => ret (Err ("GCD hashtab not found for version " +:+ version))
   | Some gcd => ret (Ok (Path gcd))
   end)%go.

(** The two branches of [GetGCDHashtab] that come before the final
    lookup; the error of [generateGCD] is what the function returns
    early with. *)
Definition refresh (version : string) (reloaded : bool)
    : M Service (option error) :=
  (if reloaded then generateGCD version
   else
     regen <- needsRegen version ;;
     if regen : bool then generateGCD version else ret None)%go.

Definition GetGCDHashtab (version : string) : M Service (result string) :=
  ('(reloaded, _) <- withRegistry Hashtabs.CheckAndReload ;;
   r <- refresh version reloaded ;;
   match r with
   | Some e => ret (Err e)
   | None => cachedPath version
   end)%go.

(** The staleness the [else] branch looks for, said of the state and
    of the worlds the loop meets: no cache entry, or a device count
    that is not the registry's, or an artifact of the registry whose
    modification time [os.Stat] gives and the snapshot does not hold.
    The loop stats the [i]-th artifact in world [t + i]. *)
Definition stale (env : Env) (t : nat) (version : string) (s : Service)
    : Prop :=
  match gcdHashtabs s !! version with
  | None => True
  | Some gcd =>
      let hashtabs :=
        Hashtabs.GetHashtabsForVersion version (hashtabService s) in
      Z.of_nat (length hashtabs) ≠ DeviceCount gcd ∨
      ∃ i ht modTime,
        hashtabs !! i = Some ht ∧
        stat (env (t + i)) (HashtabFile.Path ht) = StatOk modTime ∧
        default ∅ (sourceModTimes s !! version) !! HashtabFile.Path ht
          ≠ Some modTime
  end.

(** The arguments [generateGCD] runs the binary with. *)
Definition mergeArgs (s : Service) (version : string) : list string :=
  ["gcd-hashtab"; outputPathFor (gcdDir s) version] ++
  map HashtabFile.Path
    (Hashtabs.GetHashtabsForVersion version (hashtabService s)).

End WithGoLib.

End GcdCache.

(** ** Package [internal/qmldiff] *)

Module QmlDiff.
Import Os Env.

Record Service := mkService { binaryPath : string }.

Definition NewService (binaryPath : string) : Service :=
  {| binaryPath := binaryPath |}.

Definition HashDiffs (hashtabPath qmdPath : string)
    : M Service (option error) :=
  (s <- get ;;
   emit (Exec (binaryPath s) ["hash-diffs"; hashtabPath; qmdPath]) ;;
   w <- observe ;;
   let r := run w (binaryPath s) ["hash-diffs"; hashtabPath; qmdPath] in
   match run_err r with
   | Some e =>
       ret (Some ("hash-diffs failed: " +:+ e +:+ newline +:+ "stderr: "
                  +:+ run_stderr r +:+ newline +:+ "stdout: "
                  +:+ run_stdout r))
   | None => ret None
   end)%go.

Definition GetBinaryPath (s : Service) : string := binaryPath s.

End QmlDiff.

(** ** Package [internal/handlers]: the processing task *)

Module Handlers.
Import Os Env.

Record APIHandler := mkAPIHandler {
  qmldiffService : QmlDiff.Service;
  gcdCache : GcdCache.Service;
  jobStore : Jobs.Store
}.

Definition withQmldiff {A} (c : M QmlDiff.Service A) : M APIHandler A :=
  zoom qmldiffService
       (λ q h, {| qmldiffService := q; gcdCache := gcdCache h;
                  jobStore := jobStore h |})
       c.

Definition withGcdCache {A} (c : M GcdCache.Service A) : M APIHandler A :=
  zoom gcdCache
       (λ g h, {| qmldiffService := qmldiffService h; gcdCache := g;
                  jobStore := jobStore h |})
       c.

Definition onStore (f : Jobs.Store → Jobs.Store) : M APIHandler unit :=
  modify (λ h, {| qmldiffService := qmldiffService h;
                  gcdCache := gcdCache h;
                  jobStore := f (jobStore h) |}).

(** Does [Update] or [UpdateWithOperation] reach [time.Now()]? *)
Definition stamps (id status : string) (s : Jobs.Store) : bool :=
  match Jobs.jobs s !! id with
  | Some j => Jobs.terminal status && bool_decide (Jobs.CompletedAt j = None)
  | None => false
  end.

(** A store method that may stamp: the clock is read when the method
    reaches [time.Now()], and only then. *)
Definition stamping (id status : string)
    (f : Time → Jobs.Store → Jobs.Store) : M APIHandler unit :=
  (h <- get ;;
   if stamps id status (jobStore h)
   then t <- timeNow ;; onStore (f t)
   else onStore (f zeroTime))%go.

Definition jobStore_Update (id status message : string)
    (data : option (gmap string string)) : M APIHandler unit :=
  stamping id status (Jobs.Update id status message data).

Definition jobStore_UpdateWithOperation (id status message : string)
    (data : option (gmap string string)) (operation : string)
    : M APIHandler unit :=
  stamping id status (Jobs.UpdateWithOperation id status message data operation).

Definition copyFile {St} (src dst : string) : M St (option error) :=
  (w <- observe ;;
   match open w src with
   | Some e => ret (Some e)
   | None =>
       w' <- observe ;;
       match create w' dst with
       | Some e => ret (Some e)
       | None =>
           w'' <- observe ;;
           ret (ioCopy w'' src dst)
       end
   end)%go.

Definition failed (relPath msg : string) : Jobs.FileResult :=
  {| Jobs.fr_Name := relPath; Jobs.fr_Path := relPath;
     Jobs.fr_Status := "error"; Jobs.fr_Error := msg |}.

Definition hashed (relPath : string) : Jobs.FileResult :=
  {| Jobs.fr_Name := relPath; Jobs.fr_Path := relPath;
     Jobs.fr_Status := "success"; Jobs.fr_Error := "" |}.

Section WithGoLib.
Context {lib : GoLib}.

(** The [for i, inputPath := range qmdFiles] loop, from index [i] on,
    with [n = len(qmdFiles)].  [relPaths[i]] out of range panics:
    [None]. *)
Fixpoint hashFiles (jobID gcdPath outputDir : string) (n : nat)
    (relPaths : list string) (i : nat) (rest : list string)
    (results : list Jobs.FileResult) (successCount : nat)
    : M APIHandler (option (list Jobs.FileResult * nat)) :=
  match rest with
  | [] => ret (Some (results, successCount))
  | inputPath :: rest' =>
      match relPaths !! i with
      | None => ret None
      | Some relPath =>
          let outputPath := filepath_Join outputDir relPath in
          (c <- copyFile inputPath outputPath ;;
           match c with
           | Some e =>
               hashFiles jobID gcdPath outputDir n relPaths (S i) rest'
                 (results ++ [failed relPath ("Failed to copy file: " +:+ e)])
                 successCount
           | None =>
               r <- withQmldiff (QmlDiff.HashDiffs gcdPath outputPath) ;;
               match r with
               | Some e =>
                   emit (Remove outputPath) ;;
                   hashFiles jobID gcdPath outputDir n relPaths (S i) rest'
                     (results ++ [failed relPath ("Hashing failed: " +:+ e)])
                     successCount
               | None =>
                   onStore (Jobs.UpdateProgress jobID (percentOf (S i) n)) ;;
                   hashFiles jobID gcdPath outputDir n relPaths (S i) rest'
                     (results ++ [hashed relPath])
                     (S successCount)
               end
           end)%go
      end
  end.

Inductive outcome := Returned | Panicked.

(** [defer os.RemoveAll(inputDir)] runs on every way out. *)
Definition processHashJob
    (jobID version : string) (qmdFiles relPaths : list string)
    (inputDir outputDir : string) : M APIHandler outcome :=
  (jobStore_UpdateWithOperation jobID "running" "Getting GCD hashtab"
     None "preparing" ;;
   g <- withGcdCache (GcdCache.GetGCDHashtab version) ;;
   match g with
   | Err e =>
       jobStore_Update jobID "error"
         ("Version " +:+ version +:+ " not available: " +:+ e) None ;;
       emit (RemoveAll outputDir) ;;
       emit (RemoveAll inputDir) ;;
       ret Returned
   | Ok gcdPath =>
       jobStore_UpdateWithOperation jobID "running" "Hashing files"
         None "hashing" ;;
       l <- hashFiles jobID gcdPath outputDir (length qmdFiles)
              relPaths 0 qmdFiles [] 0 ;;
       match l with
       | None => emit (RemoveAll inputDir) ;; ret Panicked
       | Some (results, successCount) =>
           onStore (Jobs.SetFiles jobID results) ;;
           if bool_decide (successCount = 0)
           then
             jobStore_Update jobID "error" "All files failed to hash"
               None ;;
             emit (RemoveAll outputDir) ;;
             emit (RemoveAll inputDir) ;;
             ret Returned
           else
             jobStore_Update jobID "success"
               ("Hashed " +:+ pretty successCount +:+ " file(s)") None ;;
             emit (RemoveAll inputDir) ;;
             ret Returned
       end
   end)%go.

(** When is a file of the batch hashed?  When its copy into the output
    directory and the run of [qmldiff hash-diffs] on the copy both
    succeed.  [copyOutcome] and [attempt] say so of the worlds the task
    meets from interaction [t] on, with the number of interactions the
    file takes; [attempts] does it for the files of the batch from
    index [i] on. *)
Definition copyOutcome (env : Env) (t : nat) (src dst : string)
    : option error * nat :=
  match open (env t) src with
  | Some e => (Some e, 1)
  | None =>
      match create (env (S t)) dst with
      | Some e => (Some e, 2)
      | None => (ioCopy (env (S (S t))) src dst, 3)
      end
  end.

Definition attempt (env : Env) (t : nat)
    (binary gcdPath inputPath outputPath : string) : bool * nat :=
  let c := copyOutcome env t inputPath outputPath in
  match c.1 with
  | Some _ => (false, c.2)
  | None =>
      (bool_decide
         (run_err (run (env (c.2 + t)) binary
                     ["hash-diffs"; gcdPath; outputPath]) = None),
       S c.2)
  end.

Fixpoint attempts (env : Env) (t : nat)
    (binary gcdPath outputDir : string)
    (relPaths : list string) (i : nat) (rest : list string)
    : list bool :=
  match rest with
  | [] => []
  | inputPath :: rest' =>
      match relPaths !! i with
      | None => []
      | Some relPath =>
          let a := attempt env t binary gcdPath inputPath
                     (filepath_Join outputDir relPath) in
          a.1 :: attempts env (a.2 + t) binary gcdPath outputDir
                   relPaths (S i) rest'
      end
  end.

End WithGoLib.

Fixpoint successes (flags : list bool) : nat :=
  match flags with
  | [] => 0
  | b :: rest => (if b then 1 else 0) + successes rest
  end.

Definition isSuccess (r : Jobs.FileResult) : bool :=
  bool_decide (Jobs.fr_Status r = "success").

(** A per-file result as the task writes it: a success, or an error with
    its message. *)
Definition wellFormed (r : Jobs.FileResult) : Prop :=
  Jobs.fr_Path r = Jobs.fr_Name r ∧
  (Jobs.fr_Status r = "success" ∨
   Jobs.fr_Status r = "error" ∧ Jobs.fr_Error r ≠ "").

End Handlers.

(** ** Clients of the job store

    What the processing task and the observers of a job do to a store,
    one call after the other. *)

Module Client.
Import Os Jobs.

Inductive Call :=
| CUpdate (id status message : string)
    (data : option (gmap string string)) (now : Time)
| CUpdateProgress (id : string) (p : Z)
| CUpdateWithOperation (id status message : string)
    (data : option (gmap string string)) (operation : string) (now : Time)
| CSetOutputDir (id outputDir : string)
| CSetFiles (id : string) (files : list FileResult)
| CAddFile (id : string) (file : FileResult)
| CSubscribe (id : string)
| CReceive (ch : chan).

Definition perform (c : Call) (s : Store) : Store :=
  match c with
  | CUpdate id status message data now =>
      Update id status message data now s
  | CUpdateProgress id p => UpdateProgress id p s
  | CUpdateWithOperation id status message data operation now =>
      UpdateWithOperation id status message data operation now s
  | CSetOutputDir id outputDir => SetOutputDir id outputDir s
  | CSetFiles id files => SetFiles id files s
  | CAddFile id file => AddFile id file s
  | CSubscribe id => (Subscribe id s).2
  | CReceive ch => (receive ch s).2
  end.

Fixpoint performAll (calls : list Call) (s : Store) : Store :=
  match calls with
  | [] => s
  | c :: rest => performAll rest (perform c s)
  end.

(** The reading of the clock a call hands to [id] as completion time, if
    the call is an update of [id] with a terminal status. *)
Definition terminalAt (id : string) (c : Call) : option Time :=
  match c with
  | CUpdate id' status _ _ now
  | CUpdateWithOperation id' status _ _ _ now =>
      if bool_decide (id' = id) && terminal status then Some now else None
  | _ => None
  end.

Fixpoint firstTerminal (id : string) (calls : list Call) : option Time :=
  match calls with
  | [] => None
  | c :: rest =>
      match terminalAt id c with
      | Some t => Some t
      | None => firstTerminal id rest
      end
  end.

(** The mutators that end in [broadcastLocked]. *)
Definition broadcasts (id : string) (c : Call) : bool :=
  match c with
  | CUpdate id' _ _ _ _
  | CUpdateProgress id' _
  | CUpdateWithOperation id' _ _ _ _ _
  | CAddFile id' _ => bool_decide (id' = id)
  | _ => false
  end.

(** The snapshot a call makes of job [id], from the store the call
    leaves: one if the call is a broadcasting mutation of [id]. *)
Definition shown (id : string) (c : Call) (s' : Store) : list Job :=
  if broadcasts id c
  then match jobs s' !! id with Some j => [copyJob j] | None => [] end
  else [].


(** What a call takes out of [ch]. *)
Definition taken (ch : chan) (c : Call) (s : Store) : list Job :=
  match c with
  | CReceive ch' =>
      if bool_decide (ch' = ch)
      then match (receive ch s).1 with Some v => [v] | None => [] end
      else []
  | _ => []
  end.



(** The life of a store before an observer joins: jobs are created,
    clients call, the sweeper runs. *)
Inductive Step :=
| SCreate (id : string)
| SCall (c : Call)
| SSweep (now : Time).

Definition advance (st : Step) (s : Store) : Store :=
  match st with
  | SCreate id => (Create id s).2
  | SCall c => perform c s
  | SSweep now => cleanupOldJobs now s
  end.

Fixpoint replay (history : list Step) (s : Store) : Store :=
  match history with
  | [] => s
  | st :: rest => replay rest (advance st s)
  end.

(** Channels are made by [Subscribe] only, each once. *)
Definition allocated (s : Store) : Prop :=
  ∀ id l c, watchers s !! id = Some l → c ∈ l → c < nextChan s.

(** [ch] stands once in the watcher list of [id] and in no other. *)
Definition registered (ch : chan) (id : string) (s : Store) : Prop :=
  (∃ l1 l2, watchers s !! id = Some (l1 ++ ch :: l2) ∧
            (ch ∉ l1) ∧ (ch ∉ l2)) ∧
  (∀ id' l, id' ≠ id → watchers s !! id' = Some l → ch ∉ l) ∧
  ch < nextChan s ∧
  allocated s.

(** Is [id], a job among [visited], one the sweep of [s] removes? *)
Definition swept (now : Time) (s : Store) (visited : gmap string Job)
    (id : string) : bool :=
  match visited !! id with
  | Some job =>
      expired now job &&
      bool_decide (length (default [] (watchers s !! id)) = 0)
  | None => false
  end.

End Client.

(** ** Concrete worlds

    A Unix reading of the path functions, a small artifact directory and
    the environments the examples below run in. *)

Module Scenario.
Import Os HashtabFile Env.

Definition slash : Ascii.ascii := Ascii.ascii_of_nat 47.

Fixpoint components (cur path : string) : list string :=
  match path with
  | EmptyString => [cur]
  | String c rest =>
      if Ascii.eqb c slash then cur :: components "" rest
      else components (cur +:+ String c "") rest
  end.

(** [filepath.Base] on Unix: the last non-empty element. *)
Definition unixBase (path : string) : string :=
  if bool_decide (path = "") then "."
  else default "/" (last (filter (λ c, c ≠ "") (components "" path))).

(** [filepath.Join] of a clean directory and a clean relative name.  The
    percentage is exact for the batches used below. *)
Definition unixLib : GoLib :=
  {| filepath_Join := λ d f, d +:+ "/" +:+ f;
     filepath_Base := unixBase;
     percentOf := λ i n, (Z.of_nat i * 100 / Z.of_nat n)%Z |}.

Definition device (path dev : string) : Hashtab :=
  {| Name := unixBase path; Path := path; OSVersion := "v1";
     Device := dev; Entries := 3; IsHashlist := false |}.

Definition rm1 : Hashtab := device "/ht/v1-rm1" "rm1".
Definition rm2 : Hashtab := device "/ht/v1-rm2" "rm2".

Definition parse (path : string) : option Hashtab :=
  if bool_decide (path = "/ht/v1-rm1") then Some rm1
  else if bool_decide (path = "/ht/v1-rm2") then Some rm2
  else None.

Definition file (path : string) (modTime : Time) : DirEntry :=
  mkDirEntry path false (Some modTime).

(** Two device artifacts of version v1. *)
Definition cleanTree : Walk :=
  {| visited := [mkDirEntry "/ht" true (Some 1%Z);
                 file "/ht/v1-rm1" 7%Z; file "/ht/v1-rm2" 8%Z];
     failure := None |}.

(** The same with a file beside them that is no artifact. *)
Definition strayTree : Walk :=
  {| visited := [mkDirEntry "/ht" true (Some 1%Z);
                 file "/ht/README.md" 5%Z;
                 file "/ht/v1-rm1" 7%Z; file "/ht/v1-rm2" 8%Z];
     failure := None |}.

(** The first artifact touched. *)
Definition touchedTree : Walk :=
  {| visited := [mkDirEntry "/ht" true (Some 1%Z);
                 file "/ht/v1-rm1" 9%Z; file "/ht/v1-rm2" 8%Z];
     failure := None |}.

(** The root cannot be read. *)
Definition unreadable : Walk :=
  {| visited := []; failure := Some "permission denied" |}.

Definition mtimes (tree : Walk) (path : string) : StatResult :=
  match find (λ d, bool_decide (de_path d = path)) (visited tree) with
  | Some d =>
      match de_Info d with
      | Some t => StatOk t
      | None => StatError "stat failed"
      end
  | None => StatNotExist
  end.

Definition succeeds : string → list string → RunResult :=
  λ _ _, mkRunResult None "" "".

Definition exits1 : string → list string → RunResult :=
  λ _ _, mkRunResult (Some "exit status 1") "" "bad input".

(** The engine fails on the second file of the batch. *)
Definition failsOnB : string → list string → RunResult :=
  λ binary args,
    if bool_decide (args !! 2 = Some "/out/b.qmd")
    then exits1 binary args else succeeds binary args.

Definition world (tree : Walk) (engine : string → list string → RunResult)
    (t : Time) : World :=
  {| now := t;
     walkDir := λ _, tree;
     load := parse;
     stat := mtimes tree;
     mkdirAll := λ _, None;
     run := engine;
     open := λ _, None;
     create := λ _, None;
     ioCopy := λ _ _, None |}.

(** Nothing changes but the clock, which moves ten seconds with every
    interaction. *)
Definition still (tree : Walk) (engine : string → list string → RunResult)
    : Env :=
  λ n, world tree engine (Z.of_nat n * 10 * Second)%Z.

(** The first artifact has been touched, and from interaction 5 on the
    root cannot be read: a check that starts at interaction 2 reads the
    clock twice, walks the touched tree and then meets the unreadable
    root in its second walk. *)
Definition vanishing : Env :=
  λ n, if decide (n < 5)
       then world touchedTree succeeds (Z.of_nat n * 10 * Second)%Z
       else world unreadable succeeds (Z.of_nat n * 10 * Second)%Z.

(** The registry as [NewService] leaves it on [cleanTree]. *)
Definition registry : Hashtabs.Service :=
  self (@Hashtabs.NewService unixLib (still cleanTree succeeds)
          (mkMachine 0 [] (Hashtabs.emptyService "/ht"))).2.

(** The registry as [NewService] leaves it on [strayTree]. *)
Definition registryBesideStray : Hashtabs.Service :=
  self (@Hashtabs.NewService unixLib (still strayTree succeeds)
          (mkMachine 0 [] (Hashtabs.emptyService "/ht"))).2.

Definition cache (r : Hashtabs.Service) : GcdCache.Service :=
  {| GcdCache.gcdDir := "/gcd"; GcdCache.qmldiffBinary := "/app/qmldiff";
     GcdCache.hashtabService := r;
     GcdCache.gcdHashtabs := ∅; GcdCache.sourceModTimes := ∅ |}.

Definition handler : Handlers.APIHandler :=
  {| Handlers.qmldiffService := QmlDiff.NewService "/app/qmldiff";
     Handlers.gcdCache := cache registry;
     Handlers.jobStore := (Jobs.Subscribe "job-1"
                             (Jobs.Create "job-1" Jobs.NewStore).2).2 |}.

(** The machines the examples start from; [NewService] has made two
    interactions. *)
Definition cacheMachine : Machine GcdCache.Service :=
  mkMachine 2 [] (cache registry).

Definition strayMachine : Machine GcdCache.Service :=
  mkMachine 2 [] (cache registryBesideStray).

Definition registryMachine : Machine Hashtabs.Service :=
  mkMachine 2 [] registry.

Definition taskMachine : Machine Handlers.APIHandler :=
  mkMachine 2 [] handler.

(** Two requests for v1 beside the stray file, and two without it. *)
Definition firstCall :=
  GcdCache.GetGCDHashtab (lib := unixLib) "v1" (still strayTree succeeds)
    strayMachine.

Definition secondCall :=
  GcdCache.GetGCDHashtab (lib := unixLib) "v1" (still strayTree succeeds)
    firstCall.2.

Definition firstCleanCall :=
  GcdCache.GetGCDHashtab (lib := unixLib) "v1" (still cleanTree succeeds)
    cacheMachine.

Definition secondCleanCall :=
  GcdCache.GetGCDHashtab (lib := unixLib) "v1" (still cleanTree succeeds)
    firstCleanCall.2.

(** A batch of two files. *)
Definition batch : list string := ["/in/a.qmd"; "/in/b.qmd"].
Definition batchNames : list string := ["a.qmd"; "b.qmd"].

Definition freshJob : Jobs.Job := (Jobs.Create "job-1" Jobs.NewStore).1.

Definition doneJob : Jobs.Job :=
  {| Jobs.Status := "success"; Jobs.Message := "done"; Jobs.Data := None;
     Jobs.Progress := 0; Jobs.Operation := ""; Jobs.Files := [];
     Jobs.OutputDir := ""; Jobs.FileCount := 0;
     Jobs.CompletedAt := Some 0%Z |}.

(** Two jobs completed at time 0, the second one with a subscriber. *)
Definition oldStore : Jobs.Store :=
  Client.replay
    [Client.SCreate "old";
     Client.SCall (Client.CUpdate "old" "success" "done" None 0%Z);
     Client.SCreate "watched";
     Client.SCall (Client.CUpdate "watched" "success" "done" None 0%Z);
     Client.SCall (Client.CSubscribe "watched")]
    Jobs.NewStore.

Definition lifecycle : list Client.Call :=
  [Client.CUpdateWithOperation "job-1" "running" "Hashing files" None
     "hashing" 10%Z;
   Client.CReceive 0;
   Client.CUpdateProgress "job-1" 50;
   Client.CUpdate "job-1" "success" "Hashed 1 file(s)" None 20%Z;
   Client.CReceive 0;
   Client.CUpdate "job-1" "error" "late" None 30%Z;
   Client.CUpdateWithOperation "job-1" "success" "again" None "hashing"
     40%Z].

End Scenario.

(** ** Observers that leave: [unsubscribe] and [Cleanup]

    The two places of [internal/jobs] that close channels.  A state holds,
    beside the store, the channels closed so far and, for each channel
    [Subscribe] made, the job id its [unsubscribe] closure captured.
    [close] of a closed channel panics; the deferred [Unlock] leaves the
    store as the panic found it. *)

Module Observers.
Import Os Jobs.

Record State := mkState {
  store : Store;
  closed : gset chan;
  closures : gmap chan string
}.

Definition NewState : State :=
  {| store := NewStore; closed := ∅; closures := ∅ |}.

Inductive outcome := Done | Panic.

Definition onStore (f : Store → Store) (st : State) : State :=
  {| store := f (store st); closed := closed st; closures := closures st |}.

(** [Subscribe], with the closure it returns. *)
Definition Subscribe (id : string) (st : State) : chan * State :=
  ((Jobs.Subscribe id (store st)).1,
   {| store := (Jobs.Subscribe id (store st)).2;
      closed := closed st;
      closures := <[(Jobs.Subscribe id (store st)).1 := id]> (closures st) |}).

(** [append(watchers[:i], watchers[i+1:]...)] at the first [i] with
    [watchers[i] == ch]. *)
Fixpoint removeFirst (ch : chan) (l : list chan) : list chan :=
  match l with
  | [] => []
  | c :: rest => if decide (c = ch) then rest else c :: removeFirst ch rest
  end.

(** The loop of [unsubscribe]: the list is assigned only when [ch] is
    found in it. *)
Definition unlink (id : string) (ch : chan) (s : Store) : Store :=
  match watchers s !! id with
  | Some l =>
      if bool_decide (ch ∈ l)
      then {| jobs := jobs s;
              watchers := <[id := removeFirst ch l]> (watchers s);
              heap := heap s; nextChan := nextChan s |}
      else s
  | None => s
  end.

(** The closure [Subscribe id] returned with [ch]. *)
Definition unsubscribe (id : string) (ch : chan) (st : State)
    : outcome * State :=
  if bool_decide (ch ∈ closed st)
  then (Panic, {| store := unlink id ch (store st); closed := closed st;
                  closures := closures st |})
  else (Done, {| store := unlink id ch (store st);
                 closed := {[ch]} ∪ closed st;
                 closures := closures st |}).

(** [for _, ch := range s.watchers[id] { close(ch) }] *)
Fixpoint closeAll (l : list chan) (closed : gset chan)
    : outcome * gset chan :=
  match l with
  | [] => (Done, closed)
  | ch :: rest =>
      if bool_decide (ch ∈ closed) then (Panic, closed)
      else closeAll rest ({[ch]} ∪ closed)
  end.

Definition Cleanup (id : string) (st : State) : outcome * State :=
  let r := closeAll (default [] (watchers (store st) !! id)) (closed st) in
  match r.1 with
  | Panic =>
      (Panic, {| store := store st; closed := r.2; closures := closures st |})
  | Done =>
      (Done, {| store := {| jobs := delete id (jobs (store st));
                            watchers := delete id (watchers (store st));
                            heap := heap (store st);
                            nextChan := nextChan (store st) |};
                closed := r.2; closures := closures st |})
  end.

(** [job.FileCount = n] through the pointer [Create] returned: the
    write the handler [Hash] makes, outside the methods of the store. *)
Definition assignFileCount (id : string) (n : Z) (s : Store) : Store :=
  match jobs s !! id with
  | Some j =>
      setJob id {| Status := Status j; Message := Message j;
                   Data := Data j; Progress := Progress j;
                   Operation := Operation j; Files := Files j;
                   OutputDir := OutputDir j; FileCount := n;
                   CompletedAt := CompletedAt j |} s
  | None => s
  end.

(** What happens to a store over its life.  An [unsubscribe] closure is
    called for a channel [Subscribe] has made, with the id it captured. *)
Inductive Step :=
| SCreate (id : string)
| SCall (c : Client.Call)
| SSweep (now : Time)
| SUnsubscribe (ch : chan)
| SCleanup (id : string)
| SAssign (id : string) (fileCount : Z).

Definition advance (step : Step) (st : State) : State :=
  match step with
  | SCreate id => onStore (λ s, (Create id s).2) st
  | SCall (Client.CSubscribe id) => (Subscribe id st).2
  | SCall c => onStore (Client.perform c) st
  | SSweep now => onStore (cleanupOldJobs now) st
  | SUnsubscribe ch =>
      match closures st !! ch with
      | Some id => (unsubscribe id ch st).2
      | None => st
      end
  | SCleanup id => (Cleanup id st).2
  | SAssign id n => onStore (assignFileCount id n) st
  end.

Fixpoint run (history : list Step) (st : State) : State :=
  match history with
  | [] => st
  | step :: rest => run rest (advance step st)
  end.

(** A send on a closed channel panics.  The mutators of [Jobs] send
    without looking; this says they never meet a closed channel. *)
Definition watchersOpen (st : State) : Prop :=
  ∀ id l ch, watchers (store st) !! id = Some l → ch ∈ l → ch ∉ closed st.

(** What the steps keep true of the channels. *)
Definition consistent (st : State) : Prop :=
  (∀ id l ch, watchers (store st) !! id = Some l → ch ∈ l →
     ch < nextChan (store st) ∧ closures st !! ch = Some id ∧
     ch ∉ closed st) ∧
  (∀ id l, watchers (store st) !! id = Some l → NoDup l) ∧
  (∀ ch, ch ∈ closed st → ch < nextChan (store st)) ∧
  (∀ ch id, closures st !! ch = Some id → ch < nextChan (store st)).

(** [ch] stands in no watcher list. *)
Definition unlinked (ch : chan) (s : Store) : Prop :=
  ∀ id l, watchers s !! id = Some l → ch ∉ l.

End Observers.

(** ** Package [pkg/hashtab]: the registry over its lifetime, [GetVersions] *)

Module Registry.
Import Os HashtabFile Env Hashtabs.

Record VersionInfo := mkVersionInfo {
  Version : string;
  Devices : list string;
  DeviceCount : Z
}.

(** [sort.Strings]: ascending in the byte order of Go's [<] on strings,
    which is the order of [String.leb]. *)
Definition notGreater (a b : string) : Prop := String.leb a b = true.

#[global] Instance notGreater_dec : RelDecision notGreater :=
  λ a b, decide (String.leb a b = true).

Definition sort_Strings (l : list string) : list string :=
  merge_sort notGreater l.

(** [versions[i].Version > versions[j].Version] is the [less] of the
    source.  [notAfter a b] says that [b] is not less than [a]; a slice
    is sorted by [less] when [notAfter] holds of every two elements in
    the order of the slice. *)
Definition less (a b : VersionInfo) : bool :=
  String.ltb (Version b) (Version a).

Definition notAfter (a b : VersionInfo) : Prop :=
  notGreater (Version b) (Version a).

#[global] Instance notAfter_dec : RelDecision notAfter :=
  λ a b, notGreater_dec (Version b) (Version a).

(** The body of the loop over [s.byVersion]. *)
Definition versionInfo (ver : string) (hts : list Hashtab) : VersionInfo :=
  let devices := sort_Strings (map Device hts) in
  {| Version := ver; Devices := devices;
     DeviceCount := Z.of_nat (length devices) |}.

(** Go ranges over the map in an order of its choice and [sort.Slice]
    is not stable; the keys of a map differ, so the slice sorted by
    [less] is the same for every order. *)
Definition GetVersions (s : Service) : list VersionInfo :=
  merge_sort notAfter
    (map (λ kv, versionInfo kv.1 kv.2) (map_to_list (byVersion s))).

Section WithGoLib.
Context {lib : GoLib}.

(** [n] calls of [CheckAndReload], results dropped. *)
Fixpoint polls (n : nat) : M Service unit :=
  match n with
  | 0 => ret tt
  | S n => (_ <- CheckAndReload ;; polls n)%go
  end.

(** The registry [NewService dir] builds, [n] checks later.  When
    [NewService] returns an error the program exits; what it had built
    by then is covered all the same. *)
Definition serving (env : Env) (dir : string) (start n : nat) : Service :=
  self ((_ <- NewService ;; polls n)%go env
          (mkMachine start [] (emptyService dir))).2.

(** The regular files of a walk whose [Info] can be read, with their
    modification times. *)
Definition statted (entries : list DirEntry) : list (string * Time) :=
  omap (λ d, if de_IsDir d then None
             else (λ t, (de_path d, t)) <$> de_Info d) entries.

(** What the first walk of [CheckAndReload] and the loop after it look
    for: a file whose time is not the recorded one, or a recorded path
    that is no longer among the files. *)
Definition changedSince (known : gmap string Time)
    (entries : list DirEntry) : Prop :=
  (∃ p t, (p, t) ∈ statted entries ∧ known !! p ≠ Some t) ∨
  (∃ p, is_Some (known !! p) ∧ (p ∉ (statted entries).*1)).

(** What the loading walk keeps between the tables. *)
Definition sound (s : Service) : Prop :=
  (∀ v, GetHashtabsForVersion v s
        = filter (λ ht, OSVersion ht = v) (hashtables s)) ∧
  (∀ v, byVersion s !! v ≠ Some []) ∧
  length (hashtables s) = size (pathByName s) ∧
  (∀ f p, pathByName s !! f = Some p → filepath_Base p = f) ∧
  (∀ p, is_Some (modTimes s !! p) →
        pathByName s !! filepath_Base p = Some p).

End WithGoLib.

End Registry.

(** ** Package [pkg/gcdcache]: [GenerateAll], [GetVersions], the cache over
    its lifetime *)

Module Generation.
Import Os Env GcdCache.

Definition GetVersions (s : Service) : list Registry.VersionInfo :=
  Registry.GetVersions (hashtabService s).

Section WithGoLib.
Context {lib : GoLib}.

(** The loop of [GenerateAll]: an error of [generateGCD] is logged and
    the loop goes on. *)
Fixpoint generateEach (versions : list Registry.VersionInfo)
    : M Service unit :=
  match versions with
  | [] => ret tt
  | v :: rest =>
      (_ <- generateGCD (Registry.Version v) ;; generateEach rest)%go
  end.

Definition GenerateAll : M Service (option error) :=
  (s <- get ;;
   generateEach (GetVersions s) ;;
   ret None)%go.

(** The event a generation adds after its [Generate] mark. *)
Definition engineRuns (s : Service) (version : string) : list Event :=
  if (2 <=? length (registeredFor version s))%nat
  then [Exec (qmldiffBinary s) (mergeArgs s version)]
  else [].

(** What the rest of the program asks of the cache. *)
Inductive Request :=
  | RGenerateAll
  | RGetGCDHashtab (version : string).

Definition serve (r : Request) : M Service unit :=
  match r with
  | RGenerateAll => (_ <- GenerateAll ;; ret tt)%go
  | RGetGCDHashtab version => (_ <- GetGCDHashtab version ;; ret tt)%go
  end.

Fixpoint serveAll (rs : list Request) : M Service unit :=
  match rs with
  | [] => ret tt
  | r :: rest => (serve r ;; serveAll rest)%go
  end.

(** The service [NewService] returns. *)
Definition fresh (gcdDir qmldiffBinary : string)
    (hashtabService : Hashtabs.Service) : Service :=
  {| gcdDir := gcdDir; qmldiffBinary := qmldiffBinary;
     hashtabService := hashtabService;
     gcdHashtabs := ∅; sourceModTimes := ∅ |}.

(** An entry as [generateGCD] installs it under [version]. *)
Definition wellFormedEntry (s : Service) (version : string)
    (g : GCDHashtab) : Prop :=
  Version g = version ∧
  (DeviceCount g = 1%Z ∨
   (2 ≤ DeviceCount g)%Z ∧ Path g = outputPathFor (gcdDir s) version) ∧
  ∃ mods, sourceModTimes s !! version = Some mods ∧
          (Z.of_nat (size mods) ≤ DeviceCount g)%Z.

Definition coherent (s : Service) : Prop :=
  (∀ version g, gcdHashtabs s !! version = Some g →
                wellFormedEntry s version g) ∧
  (∀ version, is_Some (sourceModTimes s !! version) →
              is_Some (gcdHashtabs s !! version)).

End WithGoLib.

End Generation.

(** ** Package [internal/handlers]: what the task removes *)

Module Residue.
Import Os Env Handlers.

(** The calls of [os.Remove] and [os.RemoveAll] in a trace. *)
Definition isRemoval (e : Event) : bool :=
  match e with
  | Remove _ | RemoveAll _ => true
  | _ => false
  end.

Definition removals (tr : list Event) : list Event :=
  List.filter isRemoval tr.

Section WithGoLib.
Context {lib : GoLib}.

(** The output files the loop of [processHashJob] removes: those of the
    files whose copy succeeded and whose engine run failed, from index
    [i] on, in the worlds the loop meets from interaction [t] on. *)
Fixpoint hashFailures (env : Env) (t : nat)
    (binary gcdPath outputDir : string)
    (relPaths : list string) (i : nat) (rest : list string)
    : list string :=
  match rest with
  | [] => []
  | inputPath :: rest' =>
      match relPaths !! i with
      | None => []
      | Some relPath =>
          let outputPath := filepath_Join outputDir relPath in
          let a := attempt env t binary gcdPath inputPath outputPath in
          let later := hashFailures env (a.2 + t) binary gcdPath outputDir
                         relPaths (S i) rest' in
          match (copyOutcome env t inputPath outputPath).1 with
          | Some _ => later
          | None => if a.1 then later else outputPath :: later
          end
      end
  end.

End WithGoLib.

End Residue.

(** ** Package [internal/handlers]: the HTTP handlers

    A handler is embedded as the answer it writes.  A request is what the
    handler reads of it: the [jobId] of the URL, or the parsed multipart
    form.  What [Hash] gets from outside beside the worlds (the two
    temporary directories, the identifier of the job, and what opening and
    reading an upload gives) is data of the call. *)

Module Api.
Import Os Env Handlers.

Definition StatusOK : Z := 200.
Definition StatusAccepted : Z := 202.
Definition StatusBadRequest : Z := 400.
Definition StatusNotFound : Z := 404.
Definition StatusInternalServerError : Z := 500.

Inductive Response :=
| JSONError (code : Z) (message : string)
| JobStarted (jobId : string)
| InProgress (status message : string) (progress : Z)
    (operation : string) (fileCount : Z)
| Finished (status message : string) (files : list Jobs.FileResult)
    (fileCount : Z)
| ServeFile (filename path : string)
| ServeZip (entries : list (string * string)).

(** The code the handler writes with [WriteHeader]; [http.ServeFile] and
    the zip writer write theirs. *)
Definition statusCode (r : Response) : option Z :=
  match r with
  | JSONError code _ => Some code
  | JobStarted _ | Finished _ _ _ _ => Some StatusOK
  | InProgress _ _ _ _ _ => Some StatusAccepted
  | ServeFile _ _ | ServeZip _ => None
  end.

Definition GetResults (jobID : string) (h : APIHandler) : Response :=
  if bool_decide (jobID = "")
  then JSONError StatusBadRequest "Job ID required"
  else
    match Jobs.Get jobID (jobStore h) with
    | None => JSONError StatusNotFound "Job not found"
    | Some job =>
        if bool_decide (Jobs.Status job ≠ "success") &&
           bool_decide (Jobs.Status job ≠ "error")
        then InProgress (Jobs.Status job) (Jobs.Message job)
               (Jobs.Progress job) (Jobs.Operation job) (Jobs.FileCount job)
        else Finished (Jobs.Status job) (Jobs.Message job)
               (Jobs.Files job) (Jobs.FileCount job)
    end.



Section WithGoLib.
Context {lib : GoLib}.


End WithGoLib.

(** *** [Hash] *)

(** A [multipart.FileHeader] with what the call gets of it: the error of
    [Open], and the count and the error of the [io.Copy] into the input
    file. *)
Record Upload := mkUpload {
  Filename : string;
  openError : option error;
  bytesWritten : Z;
  copyError : option error
}.

(** [files] and [paths] are [MultipartForm.File["files"]] and
    [MultipartForm.Value["paths"]]; [file] is the header [FormFile("file")]
    gives, [None] when it gives an error. *)
Record Form := mkForm {
  parseError : option error;
  version : string;
  files : list Upload;
  paths : list string;
  file : option Upload
}.

(** The two [os.MkdirTemp] and [uuid.New().String()]. *)
Record Outside := mkOutside {
  inputTemp : result string;
  outputTemp : result string;
  newUUID : string
}.

(** The arguments of [go h.processHashJob(...)]. *)
Record Task := mkTask {
  t_jobID : string;
  t_version : string;
  t_qmdFiles : list string;
  t_relPaths : list string;
  t_inputDir : string;
  t_outputDir : string
}.

(** Functions of [path/filepath], [strings] and [os] that [Hash] calls and
    this development does not look into. *)
Class PathLib := {
  filepath_Clean : string → string;
  filepath_Dir : string → string;
  strings_ToLower : string → string;
  PathSeparator : string
}.

Fixpoint strings_HasPrefix (s prefix : string) : bool :=
  match prefix, s with
  | EmptyString, _ => true
  | String a prefix', String b s' =>
      bool_decide (a = b) && strings_HasPrefix s' prefix'
  | String _ _, EmptyString => false
  end.

Fixpoint strings_HasSuffix (s suffix : string) : bool :=
  bool_decide (s = suffix) ||
  match s with
  | EmptyString => false
  | String _ s' => strings_HasSuffix s' suffix
  end.

Section WithLibs.
Context {lib : GoLib} {plib : PathLib}.

Definition isQmd (relativePath : string) : bool :=
  strings_HasSuffix (strings_ToLower relativePath) ".qmd".

(** The test [Hash] makes against path traversal. *)
Definition inside (inputDir inputPath : string) : bool :=
  strings_HasPrefix (filepath_Clean inputPath +:+ PathSeparator)
    (filepath_Clean inputDir +:+ PathSeparator).

(** A relative path [Hash] lets through. *)
Definition admitted (inputDir relPath : string) : Prop :=
  isQmd relPath = true ∧
  inside inputDir (filepath_Join inputDir relPath) = true.

Definition relativePathOf (filePaths : list string) (i : nat)
    (fileHeader : Upload) : string :=
  match filePaths !! i with
  | Some p =>
      if bool_decide (p ≠ "") then filepath_Clean p
      else filepath_Clean (Filename fileHeader)
  | None => filepath_Clean (Filename fileHeader)
  end.

(** The two [os.RemoveAll] before an early return, and the answer. *)
Definition refuse {St A} (inputDir outputDir : string) (r : Response)
    : M St (Response + A) :=
  (emit (RemoveAll inputDir) ;;
   emit (RemoveAll outputDir) ;;
   ret (inl r))%go.

(** The loop over [fileHeaders], from index [i] on: the answer of an
    early return, or the two slices. *)
Fixpoint saveUploads {St} (inputDir outputDir : string)
    (filePaths : list string) (i : nat) (rest : list Upload)
    (qmdFiles relPaths : list string)
    : M St (Response + list string * list string) :=
  match rest with
  | [] => ret (inr (qmdFiles, relPaths))
  | fileHeader :: rest' =>
      match openError fileHeader with
      | Some _ =>
          refuse inputDir outputDir
            (JSONError StatusInternalServerError
               ("Failed to open file " +:+ Filename fileHeader))
      | None =>
          let relativePath := relativePathOf filePaths i fileHeader in
          if negb (isQmd relativePath)
          then saveUploads inputDir outputDir filePaths (S i) rest'
                 qmdFiles relPaths
          else
            let inputPath := filepath_Join inputDir relativePath in
            let outputPath := filepath_Join outputDir relativePath in
            if negb (inside inputDir inputPath)
            then refuse inputDir outputDir
                   (JSONError StatusBadRequest "Invalid file path")
            else
              (w1 <- observe ;;
               match mkdirAll w1 (filepath_Dir inputPath) with
               | Some _ =>
                   refuse inputDir outputDir
                     (JSONError StatusInternalServerError
                        ("Failed to create directory for file " +:+
                         Filename fileHeader))
               | None =>
                   w2 <- observe ;;
                   match mkdirAll w2 (filepath_Dir outputPath) with
                   | Some _ =>
                       refuse inputDir outputDir
                         (JSONError StatusInternalServerError
                            ("Failed to create output directory for file "
                             +:+ Filename fileHeader))
                   | None =>
                       w3 <- observe ;;
                       match create w3 inputPath with
                       | Some _ =>
                           refuse inputDir outputDir
                             (JSONError StatusInternalServerError
                                ("Failed to save file " +:+
                                 Filename fileHeader))
                       | None =>
                           match copyError fileHeader with
                           | Some _ =>
                               refuse inputDir outputDir
                                 (JSONError StatusInternalServerError
                                    ("Failed to save file " +:+
                                     Filename fileHeader))
                           | None =>
                               if (bytesWritten fileHeader =? 0)%Z
                               then saveUploads inputDir outputDir
                                      filePaths (S i) rest'
                                      qmdFiles relPaths
                               else saveUploads inputDir outputDir
                                      filePaths (S i) rest'
                                      (qmdFiles ++ [inputPath])
                                      (relPaths ++ [relativePath])
                           end
                       end
                   end
               end)%go
      end
  end.

(** [fileHeaders] and [filePaths], or [None] when no file was sent. *)
Definition uploadsOf (form : Form) : option (list Upload * list string) :=
  match files form with
  | [] =>
      match file form with
      | Some header => Some ([header], [Filename header])
      | None => None
      end
  | fs => Some (fs, paths form)
  end.

(** [Create], the write of [FileCount] through the pointer it returned,
    and [SetOutputDir]. *)
Definition register (jobID : string) (fileCount : nat) (outputDir : string)
    (s : Jobs.Store) : Jobs.Store :=
  Jobs.SetOutputDir jobID outputDir
    (Observers.assignFileCount jobID (Z.of_nat fileCount)
       (Jobs.Create jobID s).2).

(** The answer, and the task started with [go] if one is. *)
Definition Hash (form : Form) (outside : Outside)
    : M APIHandler (Response * option Task) :=
  match parseError form with
  | Some _ =>
      ret (JSONError StatusBadRequest "Failed to parse form data", None)
  | None =>
      if bool_decide (version form = "")
      then ret (JSONError StatusBadRequest "version is required", None)
      else
        match uploadsOf form with
        | None =>
            ret (JSONError StatusBadRequest
                   "No file uploaded or invalid form data", None)
        | Some (fileHeaders, filePaths) =>
            match inputTemp outside with
            | Err _ =>
                ret (JSONError StatusInternalServerError
                       "Failed to create temp directory", None)
            | Ok inputDir =>
                match outputTemp outside with
                | Err _ =>
                    (emit (RemoveAll inputDir) ;;
                     ret (JSONError StatusInternalServerError
                            "Failed to create temp directory", None))%go
                | Ok outputDir =>
                    (saved <- saveUploads inputDir outputDir filePaths 0
                                fileHeaders [] [] ;;
                     match saved with
                     | inl r => ret (r, None)
                     | inr ([], _) =>
                         emit (RemoveAll inputDir) ;;
                         emit (RemoveAll outputDir) ;;
                         ret (JSONError StatusBadRequest
                                "No .qmd files uploaded", None)
                     | inr (qmdFiles, relPaths) =>
                         let jobID := newUUID outside in
                         onStore (register jobID (length qmdFiles)
                                    outputDir) ;;
                         ret (JobStarted jobID,
                              Some {| t_jobID := jobID;
                                      t_version := version form;
                                      t_qmdFiles := qmdFiles;
                                      t_relPaths := relPaths;
                                      t_inputDir := inputDir;
                                      t_outputDir := outputDir |})
                     end)%go
                end
            end
        end
  end.

(** The temporary directories a call makes. *)
Definition dirsMade (form : Form) (outside : Outside) : list string :=
  match parseError form with
  | Some _ => []
  | None =>
      if bool_decide (version form = "") then []
      else
        match uploadsOf form, inputTemp outside with
        | Some _, Ok inputDir =>
            match outputTemp outside with
            | Ok outputDir => [inputDir; outputDir]
            | Err _ => [inputDir]
            end
        | _, _ => []
        end
  end.

(** The task [Hash] starts, run at once. *)
Definition runTask (task : Task) : M APIHandler outcome :=
  processHashJob (t_jobID task) (t_version task) (t_qmdFiles task)
    (t_relPaths task) (t_inputDir task) (t_outputDir task).

End WithLibs.

End Api.

(** ** Package [internal/handlers]: the progress the task reports *)

Module Advance.
Import Os Env Handlers.

Section WithGoLib.
Context {lib : GoLib}.

(** The progress of the job after the loop of [processHashJob] has
    processed, from index [i] on, files with the outcomes [flags], when it
    was [p] before: [UpdateProgress] is called after a hashed file only,
    with the share of the batch processed so far. *)
Fixpoint progressAfter (n i : nat) (flags : list bool) (p : Z) : Z :=
  match flags with
  | [] => p
  | hashed :: rest =>
      progressAfter n (S i) rest
        (if hashed then Jobs.clampPercent (percentOf (S i) n) else p)
  end.

End WithGoLib.

End Advance.

(** ** Further inputs for the examples *)

Module Cases.
Import Os HashtabFile Env Scenario.

(** A job with two observers. *)
Definition observed : list Observers.Step :=
  [Observers.SCreate "job-1";
   Observers.SCall (Client.CSubscribe "job-1");
   Observers.SCall (Client.CSubscribe "job-1")].

(** A job whose progress is reported as 150. *)
Definition overshoot : list Observers.Step :=
  [Observers.SCreate "job-1";
   Observers.SAssign "job-1" 2;
   Observers.SCall (Client.CUpdateProgress "job-1" 150)].

(** A job that ends at time 20. *)
Definition finished : list Observers.Step :=
  [Observers.SCreate "job-1";
   Observers.SCall (Client.CUpdate "job-1" "success" "done" None 20%Z)].

(** An observer who never reads: the snapshot of [Subscribe] and nine
    updates fill its channel, then a second observer joins. *)
Definition unread : list Client.Step :=
  [Client.SCreate "job-1"; Client.SCall (Client.CSubscribe "job-1")] ++
  replicate 9 (Client.SCall (Client.CUpdateProgress "job-1" 10)).

Definition crowded : Jobs.Store :=
  (Jobs.Subscribe "job-1" (Client.replay unread Jobs.NewStore)).2.

(** The clock moves one second with every interaction. *)
Definition ticking (tree : Walk) : Env :=
  λ n, world tree succeeds (Z.of_nat n * Second)%Z.

(** A registry with two versions; as strings, 3.9 comes after 3.20. *)
Definition paperPro : Hashtab :=
  {| Name := "3.20-rmpp"; Path := "/ht/3.20-rmpp"; OSVersion := "3.20";
     Device := "rmpp"; Entries := 3; IsHashlist := false |}.

Definition older (dev : string) : Hashtab :=
  {| Name := "3.9-" +:+ dev; Path := "/ht/3.9-" +:+ dev; OSVersion := "3.9";
     Device := dev; Entries := 3; IsHashlist := false |}.

Definition twoVersions : Hashtabs.Service :=
  {| Hashtabs.hashtables := [paperPro; older "rm2"; older "rm1"];
     Hashtabs.dir := "/ht";
     Hashtabs.modTimes := ∅;
     Hashtabs.pathByName := ∅;
     Hashtabs.byVersion :=
       <["3.20" := [paperPro]]>
         (<["3.9" := [older "rm2"; older "rm1"]]> ∅);
     Hashtabs.lastReloadCheck := zeroTime |}.

Definition listed : list Registry.VersionInfo :=
  [Registry.versionInfo "3.9" [older "rm2"; older "rm1"];
   Registry.versionInfo "3.20" [paperPro]].

(** [filepath.Clean], [filepath.Dir] and [strings.ToLower] on the clean
    lower-case relative names of one element used below. *)
Definition plainPaths : Api.PathLib :=
  {| Api.filepath_Clean := λ p, p;
     Api.filepath_Dir := λ p, p;
     Api.strings_ToLower := λ p, p;
     Api.PathSeparator := "/" |}.

Definition upload (name : string) (size : Z) : Api.Upload :=
  {| Api.Filename := name; Api.openError := None;
     Api.bytesWritten := size; Api.copyError := None |}.

(** Three uploads: a diff, a file that is no diff, an empty diff. *)
Definition form : Api.Form :=
  {| Api.parseError := None; Api.version := "v1";
     Api.files := [upload "a.qmd" 120; upload "notes.txt" 40;
                   upload "empty.qmd" 0];
     Api.paths := [];
     Api.file := None |}.

Definition outside : Api.Outside :=
  {| Api.inputTemp := Ok "/tmp/hash-input-1";
     Api.outputTemp := Ok "/tmp/hash-output-1";
     Api.newUUID := "job-2" |}.

Definition started : Api.Task :=
  {| Api.t_jobID := "job-2"; Api.t_version := "v1";
     Api.t_qmdFiles := ["/tmp/hash-input-1/a.qmd"];
     Api.t_relPaths := ["a.qmd"];
     Api.t_inputDir := "/tmp/hash-input-1";
     Api.t_outputDir := "/tmp/hash-output-1" |}.

(** A handler whose store has seen [overshoot]. *)
Definition reporting : Handlers.APIHandler :=
  {| Handlers.qmldiffService := QmlDiff.NewService "/app/qmldiff";
     Handlers.gcdCache := cache registry;
     Handlers.jobStore :=
       Observers.store (Observers.run overshoot Observers.NewState) |}.

End Cases.

(** * Properties *)

Ltac run_monad :=
  unfold Env.bind, Env.ret, Env.get, Env.put, Env.modify, Env.emit,
    Env.timeNow, Env.osStat, Env.observe;
  simpl.

(** ** The job store *)

Section JobStore.
Import Os Jobs Client.
Implicit Types (s : Store) (id : string) (j v : Job) (ch : chan).

Lemma trySend_frame v s ch :
  jobs (trySend v s ch) = jobs s ∧
  watchers (trySend v s ch) = watchers s ∧
  nextChan (trySend v s ch) = nextChan s.
Proof. unfold trySend. by case_decide. Qed.

Lemma deliver_frame v l s :
  jobs (foldl (trySend v) s l) = jobs s ∧
  watchers (foldl (trySend v) s l) = watchers s ∧
  nextChan (foldl (trySend v) s l) = nextChan s.
Proof.
  revert s. induction l as [|c l IH]; intros s; simpl; [done|].
  destruct (IH (trySend v s c)) as (-> & -> & ->). apply trySend_frame.
Qed.

Lemma broadcastLocked_frame id s :
  jobs (broadcastLocked id s) = jobs s ∧
  watchers (broadcastLocked id s) = watchers s ∧
  nextChan (broadcastLocked id s) = nextChan s.
Proof.
  unfold broadcastLocked. destruct (jobs s !! id); [|done].
  apply deliver_frame.
Qed.

Lemma broadcastLocked_jobs id s : jobs (broadcastLocked id s) = jobs s.
Proof. apply broadcastLocked_frame. Qed.

(** C10.  A mutator called with an id the store has no job for returns
    the store it was given: the job table, the watcher lists and the
    buffers of all channels are what they were, so no subscriber is sent
    anything.  This holds for [Update], [UpdateProgress],
    [UpdateWithOperation], [SetOutputDir], [SetFiles] and [AddFile]. *)
Theorem mutators_of_absent_job_are_noops s id :
  jobs s !! id = None →
  (∀ status message data now, Update id status message data now s = s) ∧
  (∀ p, UpdateProgress id p s = s) ∧
  (∀ status message data operation now,
      UpdateWithOperation id status message data operation now s = s) ∧
  (∀ outputDir, SetOutputDir id outputDir s = s) ∧
  (∀ files, SetFiles id files s = s) ∧
  (∀ file, AddFile id file s = s).
Proof.
  intros Hno.
  unfold Update, UpdateProgress, UpdateWithOperation, SetOutputDir,
    SetFiles, AddFile.
  rewrite Hno. repeat split.
Qed.

(** The completion time one call leaves in a job. *)
Lemma perform_job c s id j :
  jobs s !! id = Some j →
  ∃ j', jobs (perform c s) !! id = Some j' ∧
        CompletedAt j' =
          match CompletedAt j with
          | Some t => Some t
          | None => terminalAt id c
          end.
Proof.
  intros Hj.
  assert (Hkeep : ∀ t : option Time,
             match t with Some t => Some t | None => None end = t)
    by (by intros []).
  destruct c as [i st msg d now|i p|i st msg d op now|i o|i fs|i f|i|ch];
    simpl.
  - unfold Update. destruct (decide (i = id)) as [->|Hne].
    + rewrite Hj, broadcastLocked_jobs. simpl. rewrite lookup_insert_eq.
      eexists; split; [done|]. simpl. unfold stamp.
      rewrite (bool_decide_true (id = id)) by done. simpl.
      destruct (CompletedAt j), (terminal st); simpl;
        try case_bool_decide; done.
    + rewrite bool_decide_false by done. simpl. rewrite Hkeep.
      destruct (jobs s !! i); [|by eauto].
      rewrite broadcastLocked_jobs. simpl.
      rewrite lookup_insert_ne by done. eauto.
  - rewrite Hkeep. unfold UpdateProgress.
    destruct (jobs s !! i) eqn:Hi; [|by eauto].
    rewrite broadcastLocked_jobs. simpl.
    destruct (decide (i = id)) as [->|Hne].
    + rewrite lookup_insert_eq. eexists; split; [done|]. simpl. congruence.
    + rewrite lookup_insert_ne by done. eauto.
  - unfold UpdateWithOperation. destruct (decide (i = id)) as [->|Hne].
    + rewrite Hj, broadcastLocked_jobs. simpl. rewrite lookup_insert_eq.
      eexists; split; [done|]. simpl. unfold stamp.
      rewrite (bool_decide_true (id = id)) by done. simpl.
      destruct (CompletedAt j), (terminal st); simpl;
        try case_bool_decide; done.
    + rewrite bool_decide_false by done. simpl. rewrite Hkeep.
      destruct (jobs s !! i); [|by eauto].
      rewrite broadcastLocked_jobs. simpl.
      rewrite lookup_insert_ne by done. eauto.
  - rewrite Hkeep. unfold SetOutputDir.
    destruct (jobs s !! i) eqn:Hi; [|by eauto]. simpl.
    destruct (decide (i = id)) as [->|Hne].
    + rewrite lookup_insert_eq. eexists; split; [done|]. simpl. congruence.
    + rewrite lookup_insert_ne by done. eauto.
  - rewrite Hkeep. unfold SetFiles.
    destruct (jobs s !! i) eqn:Hi; [|by eauto]. simpl.
    destruct (decide (i = id)) as [->|Hne].
    + rewrite lookup_insert_eq. eexists; split; [done|]. simpl. congruence.
    + rewrite lookup_insert_ne by done. eauto.
  - rewrite Hkeep. unfold AddFile.
    destruct (jobs s !! i) eqn:Hi; [|by eauto].
    rewrite broadcastLocked_jobs. simpl.
    destruct (decide (i = id)) as [->|Hne].
    + rewrite lookup_insert_eq. eexists; split; [done|]. simpl. congruence.
    + rewrite lookup_insert_ne by done. eauto.
  - rewrite Hkeep. unfold Subscribe. simpl.
    destruct (jobs s !! i); simpl; eauto.
  - rewrite Hkeep. unfold receive. destruct (buffer ch s); simpl; eauto.
Qed.

(** C9.  Whatever calls are made on a store (updates of any job, with or
    without operation, progress, files, subscriptions, receives), the job
    [id] is still there afterwards and its completion time is: the one it
    had, if it had one; otherwise the clock reading of the first call
    that is an [Update] or [UpdateWithOperation] of [id] with status
    success or error; and none if there is no such call.  Later calls,
    terminal or not, do not change it. *)
Theorem completion_time_is_stamped_once calls s id j :
  jobs s !! id = Some j →
  ∃ j', jobs (performAll calls s) !! id = Some j' ∧
        CompletedAt j' =
          match CompletedAt j with
          | Some t => Some t
          | None => firstTerminal id calls
          end.
Proof.
  revert s j. induction calls as [|c calls IH]; intros s j Hj; simpl.
  - exists j. split; [done|]. by destruct (CompletedAt j).
  - destruct (perform_job c s id j Hj) as (j1 & Hj1 & Hc1).
    destruct (IH _ _ Hj1) as (j2 & Hj2 & Hc2).
    exists j2. split; [done|]. rewrite Hc2, Hc1.
    destruct (CompletedAt j); [done|]. by destruct (terminalAt id c).
Qed.

End JobStore.

(** ** The sweep *)

Section Sweep.
Import Os Jobs Client.
Implicit Types (s : Store) (id : string) (j v : Job) (ch : chan).

Lemma sweep_loop now s :
  let s' := cleanupOldJobs now s in
  (∀ id, jobs s' !! id =
           if swept now s (jobs s) id then None else jobs s !! id) ∧
  (∀ id, watchers s' !! id =
           if swept now s (jobs s) id then None else watchers s !! id) ∧
  heap s' = heap s ∧ nextChan s' = nextChan s.
Proof.
  unfold cleanupOldJobs.
  apply (map_fold_weak_ind
    (λ (r : Store) (m : gmap string Job),
       (∀ id, jobs r !! id =
                if swept now s m id then None else jobs s !! id) ∧
       (∀ id, watchers r !! id =
                if swept now s m id then None else watchers s !! id) ∧
       heap r = heap s ∧ nextChan r = nextChan s)).
  - unfold swept. repeat split; intros id; by rewrite lookup_empty.
  - intros i job m r Hfresh (Hjobs & Hwatch & Hheap & Hnext).
    assert (Hi : watchers r !! i = watchers s !! i).
    { rewrite Hwatch. unfold swept. by rewrite Hfresh. }
    assert (Hother : ∀ id, id ≠ i →
              swept now s (<[i:=job]> m) id = swept now s m id).
    { intros id Hne. unfold swept. by rewrite lookup_insert_ne. }
    assert (Hthis : swept now s (<[i:=job]> m) i =
              expired now job &&
              bool_decide (length (default [] (watchers s !! i)) = 0)).
    { unfold swept. by rewrite lookup_insert_eq. }
    unfold sweepOne. rewrite Hi.
    destruct (expired now job) eqn:Hexp; simpl in Hthis.
    + case_decide as Hlen.
      * rewrite bool_decide_true in Hthis by done.
        simpl. repeat split; try done; intros id;
          (destruct (decide (id = i)) as [->|Hne];
           [ rewrite Hthis; by rewrite lookup_delete_eq
           | rewrite Hother by done; rewrite lookup_delete_ne by done;
             auto ]).
      * rewrite bool_decide_false in Hthis by done.
        repeat split; try done; intros id;
          (destruct (decide (id = i)) as [->|Hne];
           [ rewrite Hthis | rewrite Hother by done; auto ]).
        -- rewrite Hjobs. unfold swept. by rewrite Hfresh.
        -- done.
    + repeat split; try done; intros id;
        (destruct (decide (id = i)) as [->|Hne];
         [ rewrite Hthis | rewrite Hother by done; auto ]).
      * rewrite Hjobs. unfold swept. by rewrite Hfresh.
      * done.
Qed.

Lemma retention_window (now t : Time) :
  (ttl <? time_Sub now t)%Z = true ↔ (now - t > 10 * Minute)%Z.
Proof.
  unfold time_Sub, ttl, minDuration, maxDuration, Minute, Second.
  rewrite Z.ltb_lt. lia.
Qed.

(** C7.  The sweep removes a job exactly when its completion time is
    set, the time elapsed since then is more than the ten minutes of the
    retention window, and the job has no subscriber (its watcher list is
    absent or empty).  A job the sweep does not remove is left as it was;
    in particular a job with at least one subscriber stays, together with
    its watcher list, however old it is. *)
Theorem sweep_removes_exactly_the_unobserved_expired now s id j :
  jobs s !! id = Some j →
  let s' := cleanupOldJobs now s in
  (jobs s' !! id = None ↔
     (∃ t, CompletedAt j = Some t ∧ (now - t > 10 * Minute)%Z) ∧
     length (default [] (watchers s !! id)) = 0) ∧
  (jobs s' !! id = None ∨ jobs s' !! id = Some j) ∧
  (0 < length (default [] (watchers s !! id)) →
   jobs s' !! id = Some j ∧ watchers s' !! id = watchers s !! id).
Proof.
  intros Hj s'. destruct (sweep_loop now s) as (Hjobs & Hwatch & _).
  fold s' in Hjobs, Hwatch. specialize (Hjobs id). specialize (Hwatch id).
  unfold swept in Hjobs, Hwatch. rewrite Hj in Hjobs, Hwatch.
  assert (Hexp : expired now j = true ↔
            ∃ t, CompletedAt j = Some t ∧ (now - t > 10 * Minute)%Z).
  { unfold expired. destruct (CompletedAt j) as [t|].
    - rewrite retention_window. split; [eauto|]. by intros (? & [= <-] & ?).
    - split; [done|]. by intros (? & ? & ?). }
  rewrite <- Hexp.
  destruct (expired now j); simpl in *.
  - case_bool_decide as Hlen.
    + rewrite Hjobs. split; [|split]; [tauto|by left|lia].
    + rewrite Hjobs, Hwatch. split; [|split]; [|by right|done].
      split; [done|]. by intros (_ & ?).
  - rewrite Hjobs, Hwatch. split; [|split]; [|by right|done].
    split; [done|]. by intros (? & _).
Qed.
End Sweep.

(** ** Delivery to subscribers *)

Section Delivery.
Import Os Jobs Client.
Implicit Types (s : Store) (id : string) (j v : Job) (ch : chan).

Lemma trySend_buffer_other v s c ch :
  c ≠ ch → buffer ch (trySend v s c) = buffer ch s.
Proof.
  intros Hne. unfold trySend. case_decide; [|done].
  unfold buffer at 1. simpl. by rewrite lookup_insert_ne.
Qed.

Lemma trySend_buffer_self v s ch :
  length (buffer ch s) < chanCap →
  buffer ch (trySend v s ch) = buffer ch s ++ [v].
Proof.
  intros Hroom. unfold trySend. rewrite decide_True by done.
  unfold buffer at 1. simpl. by rewrite lookup_insert_eq.
Qed.

Lemma deliver_elsewhere v l s ch :
  ch ∉ l → buffer ch (foldl (trySend v) s l) = buffer ch s.
Proof.
  revert s. induction l as [|c l IH]; intros s Hnot; simpl; [done|].
  apply not_elem_of_cons in Hnot as [Hne Hnot].
  rewrite IH by done. by apply trySend_buffer_other.
Qed.

Lemma deliver_here v l1 l2 s ch :
  ch ∉ l1 → ch ∉ l2 → length (buffer ch s) < chanCap →
  buffer ch (foldl (trySend v) s (l1 ++ ch :: l2)) = buffer ch s ++ [v].
Proof.
  intros H1 H2 Hroom. rewrite foldl_app. simpl.
  rewrite deliver_elsewhere by done.
  rewrite trySend_buffer_self by (by rewrite deliver_elsewhere).
  by rewrite deliver_elsewhere.
Qed.

Lemma registered_frame ch id s s' :
  watchers s' = watchers s → nextChan s' = nextChan s →
  registered ch id s → registered ch id s'.
Proof.
  intros Hw Hn (Hin & Hout & Hlt & Hall). unfold registered, allocated.
  rewrite Hw, Hn. done.
Qed.

Lemma setJob_buffer ch i j s : buffer ch (setJob i j s) = buffer ch s.
Proof. done. Qed.

Lemma broadcast_to_subscriber ch id j s :
  registered ch id s → jobs s !! id = Some j →
  length (buffer ch s) < chanCap →
  buffer ch (broadcastLocked id s) = buffer ch s ++ [copyJob j].
Proof.
  intros ((l1 & l2 & Hw & H1 & H2) & _) Hj Hroom.
  unfold broadcastLocked. rewrite Hj, Hw. simpl. by apply deliver_here.
Qed.

Lemma broadcast_to_others ch id id' s :
  registered ch id s → id' ≠ id →
  buffer ch (broadcastLocked id' s) = buffer ch s.
Proof.
  intros (_ & Hout & _) Hne. unfold broadcastLocked.
  destruct (jobs s !! id'); [|done].
  destruct (watchers s !! id') as [l|] eqn:Hl; simpl; [|done].
  apply deliver_elsewhere. by eapply Hout.
Qed.

(** What one call adds to the buffer of a registered channel and takes
    out of it. *)
Lemma perform_delivery c ch id j s :
  registered ch id s → jobs s !! id = Some j →
  length (buffer ch s) < chanCap →
  registered ch id (perform c s) ∧
  taken ch c s ++ buffer ch (perform c s) =
    buffer ch s ++ shown id c (perform c s).
Proof.
  intros Hreg Hj Hroom.
  assert (Hbc : ∀ i j1 s1,
             watchers s1 = watchers s → nextChan s1 = nextChan s →
             buffer ch s1 = buffer ch s → jobs s1 !! i = Some j1 →
             registered ch id (broadcastLocked i s1) ∧
             buffer ch (broadcastLocked i s1) =
               buffer ch s ++
               (if bool_decide (i = id)
                then match jobs (broadcastLocked i s1) !! id with
                     | Some j => [copyJob j] | None => [] end
                else [])).
  { intros i j1 s1 Hw Hn Hb Hj1.
    assert (Hreg1 : registered ch id s1) by by eapply registered_frame.
    destruct (broadcastLocked_frame i s1) as (Hbj & Hbw & Hbn).
    split; [by eapply registered_frame|].
    case_bool_decide as Hi.
    - subst i. rewrite Hbj, Hj1.
      rewrite (broadcast_to_subscriber ch id j1) by (done || by rewrite Hb).
      by rewrite Hb.
    - rewrite (broadcast_to_others ch id i) by done.
      by rewrite Hb, app_nil_r. }
  destruct c as [i st msg d now|i p|i st msg d op now|i o|i fs|i f|i|c];
    unfold shown; simpl; rewrite ?app_nil_r.
  - unfold Update. destruct (jobs s !! i) eqn:Hi.
    + eapply Hbc; try done. simpl. by rewrite lookup_insert_eq.
    + split; [done|]. case_bool_decide; [congruence|by rewrite app_nil_r].
  - unfold UpdateProgress. destruct (jobs s !! i) eqn:Hi.
    + eapply Hbc; try done. simpl. by rewrite lookup_insert_eq.
    + split; [done|]. case_bool_decide; [congruence|by rewrite app_nil_r].
  - unfold UpdateWithOperation. destruct (jobs s !! i) eqn:Hi.
    + eapply Hbc; try done. simpl. by rewrite lookup_insert_eq.
    + split; [done|]. case_bool_decide; [congruence|by rewrite app_nil_r].
  - unfold SetOutputDir. destruct (jobs s !! i) eqn:Hi; [|done].
    split; [by eapply registered_frame|done].
  - unfold SetFiles. destruct (jobs s !! i) eqn:Hi; [|done].
    split; [by eapply registered_frame|done].
  - unfold AddFile. destruct (jobs s !! i) eqn:Hi.
    + eapply Hbc; try done. simpl. by rewrite lookup_insert_eq.
    + split; [done|]. case_bool_decide; [congruence|by rewrite app_nil_r].
  - (* another subscriber *)
    destruct Hreg as ((l1 & l2 & Hw & H1 & H2) & Hout & Hlt & Hall).
    assert (Hne : nextChan s ≠ ch) by lia.
    assert (Hbuf : buffer ch (Subscribe i s).2 = buffer ch s).
    { unfold Subscribe. simpl. destruct (jobs s !! i); simpl;
        unfold buffer; simpl; by rewrite !lookup_insert_ne. }
    assert (Hws : watchers (Subscribe i s).2 =
              <[i := default [] (watchers s !! i) ++ [nextChan s]]>
                (watchers s)).
    { unfold Subscribe. simpl. by destruct (jobs s !! i). }
    assert (Hns : nextChan (Subscribe i s).2 = S (nextChan s)).
    { unfold Subscribe. simpl. by destruct (jobs s !! i). }
    split; [|done].
    unfold registered, allocated. rewrite Hws, Hns.
    split; [|split; [|split]].
    + destruct (decide (i = id)) as [->|Hi].
      * exists l1, (l2 ++ [nextChan s]). rewrite lookup_insert_eq, Hw. simpl.
        split; [by rewrite <- app_assoc|]. split; [done|].
        rewrite not_elem_of_app, not_elem_of_cons.
        split; [done|]. split; [lia|]. apply not_elem_of_nil.
      * exists l1, l2. by rewrite lookup_insert_ne.
    + intros id' l Hid'. destruct (decide (i = id')) as [->|Hi].
      * rewrite lookup_insert_eq. intros [= <-].
        rewrite not_elem_of_app, not_elem_of_cons.
        split; [|split; [lia|apply not_elem_of_nil]].
        destruct (watchers s !! id') eqn:Hl; simpl; [by eapply Hout|].
        apply not_elem_of_nil.
      * rewrite lookup_insert_ne by done. by apply Hout.
    + lia.
    + intros id' l c. destruct (decide (i = id')) as [->|Hi].
      * rewrite lookup_insert_eq. intros [= <-].
        rewrite elem_of_app, list_elem_of_singleton. intros [Hin| ->]; [|lia].
        destruct (watchers s !! id') eqn:Hl; simpl in Hin.
        -- pose proof (Hall _ _ _ Hl Hin). lia.
        -- by apply elem_of_nil in Hin.
      * rewrite lookup_insert_ne by done. intros Hl Hin.
        pose proof (Hall _ _ _ Hl Hin). lia.
  - (* a receive *)
    unfold receive. case_bool_decide as Hc.
    + subst c. destruct (buffer ch s) as [|v rest] eqn:Hb; simpl.
      * by rewrite Hb.
      * split; [by eapply registered_frame|].
        unfold buffer at 1. simpl. by rewrite lookup_insert_eq.
    + destruct (buffer c s) as [|v rest] eqn:Hb; simpl; [done|].
      split; [by eapply registered_frame|].
      unfold buffer at 1. simpl. by rewrite lookup_insert_ne.
Qed.

Lemma copyJob_keeps_public_fields j :
  Status (copyJob j) = Status j ∧
  Message (copyJob j) = Message j ∧
  Progress (copyJob j) = Progress j ∧
  Operation (copyJob j) = Operation j ∧
  Files (copyJob j) = Files j ∧
  FileCount (copyJob j) = FileCount j ∧
  (∀ k, default ∅ (Data (copyJob j)) !! k = default ∅ (Data j) !! k).
Proof. by repeat split. Qed.

Lemma allocated_NewStore : allocated NewStore.
Proof. intros id l c. unfold NewStore. simpl. by rewrite lookup_empty. Qed.

Lemma allocated_frame s s' :
  watchers s' = watchers s → nextChan s' = nextChan s →
  allocated s → allocated s'.
Proof. unfold allocated. by intros -> ->. Qed.

Lemma Subscribe_shape id s :
  (Subscribe id s).1 = nextChan s ∧
  jobs (Subscribe id s).2 = jobs s ∧
  watchers (Subscribe id s).2 =
    <[id := default [] (watchers s !! id) ++ [nextChan s]]> (watchers s) ∧
  nextChan (Subscribe id s).2 = S (nextChan s) ∧
  buffer (nextChan s) (Subscribe id s).2 =
    match jobs s !! id with Some j => [copyJob j] | None => [] end.
Proof.
  unfold Subscribe. simpl. destruct (jobs s !! id); simpl;
    repeat split; unfold buffer; simpl; by rewrite !lookup_insert_eq.
Qed.

Lemma Subscribe_registers id s :
  allocated s → registered (Subscribe id s).1 id (Subscribe id s).2.
Proof.
  intros Hall.
  destruct (Subscribe_shape id s) as (-> & _ & Hw & Hn & _).
  unfold registered, allocated. rewrite Hw, Hn.
  assert (Hfresh : ∀ i l, watchers s !! i = Some l → nextChan s ∉ l).
  { intros i l Hl Hin. pose proof (Hall _ _ _ Hl Hin). lia. }
  split; [|split; [|split]].
  - exists (default [] (watchers s !! id)), []. rewrite lookup_insert_eq.
    split; [done|]. split; [|apply not_elem_of_nil].
    destruct (watchers s !! id) eqn:Hl; simpl; [by eapply Hfresh|].
    apply not_elem_of_nil.
  - intros id' l Hne. rewrite lookup_insert_ne by done. apply Hfresh.
  - lia.
  - intros id' l c. destruct (decide (id = id')) as [->|Hne].
    + rewrite lookup_insert_eq. intros [= <-].
      rewrite elem_of_app, list_elem_of_singleton. intros [Hin| ->]; [|lia].
      destruct (watchers s !! id') eqn:Hl; simpl in Hin.
      * pose proof (Hall _ _ _ Hl Hin). lia.
      * by apply elem_of_nil in Hin.
    + rewrite lookup_insert_ne by done. intros Hl Hin.
      pose proof (Hall _ _ _ Hl Hin). lia.
Qed.

Lemma allocated_Create id s : allocated s → allocated (Create id s).2.
Proof.
  intros Hall i l c. simpl. destruct (decide (id = i)) as [->|Hne].
  - rewrite lookup_insert_eq. intros [= <-] Hin. by apply elem_of_nil in Hin.
  - rewrite lookup_insert_ne by done. apply Hall.
Qed.

Lemma allocated_perform c s : allocated s → allocated (perform c s).
Proof.
  intros Hall.
  destruct c as [i st msg d now|i p|i st msg d op now|i o|i fs|i f|i|c];
    simpl.
  - unfold Update. destruct (jobs s !! i); [|done].
    destruct (broadcastLocked_frame i (setJob i
      {| Status := st; Message := msg;
         Data := match d with Some d0 => Some d0 | None => Data j end;
         Progress := Progress j; Operation := Operation j;
         Files := Files j; OutputDir := OutputDir j;
         FileCount := FileCount j; CompletedAt := stamp st now j |} s))
      as (_ & Hw & Hn).
    by eapply allocated_frame.
  - unfold UpdateProgress. destruct (jobs s !! i); [|done].
    match goal with |- allocated (broadcastLocked ?i ?x) =>
      destruct (broadcastLocked_frame i x) as (_ & Hw & Hn) end.
    by eapply allocated_frame.
  - unfold UpdateWithOperation. destruct (jobs s !! i); [|done].
    match goal with |- allocated (broadcastLocked ?i ?x) =>
      destruct (broadcastLocked_frame i x) as (_ & Hw & Hn) end.
    by eapply allocated_frame.
  - unfold SetOutputDir. by destruct (jobs s !! i).
  - unfold SetFiles. by destruct (jobs s !! i).
  - unfold AddFile. destruct (jobs s !! i); [|done].
    match goal with |- allocated (broadcastLocked ?i ?x) =>
      destruct (broadcastLocked_frame i x) as (_ & Hw & Hn) end.
    by eapply allocated_frame.
  - by destruct (Subscribe_registers i s Hall) as (_ & _ & _ & ?).
  - unfold receive. by destruct (buffer c s).
Qed.

Lemma allocated_cleanupOldJobs now s :
  allocated s → allocated (cleanupOldJobs now s).
Proof.
  intros Hall id l c Hl.
  destruct (sweep_loop now s) as (_ & Hw & _ & Hn). simpl in Hw, Hn.
  rewrite Hn. rewrite Hw in Hl.
  destruct (swept now s (jobs s) id); [done|]. intros Hin. by eapply Hall.
Qed.

Lemma allocated_replay history s :
  allocated s → allocated (replay history s).
Proof.
  revert s. induction history as [|st history IH]; intros s Hall; [done|].
  simpl. apply IH. destruct st as [id|c|now]; simpl.
  - by apply allocated_Create.
  - by apply allocated_perform.
  - by apply allocated_cleanupOldJobs.
Qed.


End Delivery.

(** ** The derived-artifact cache *)

Section Cache.
Import Os Env GcdCache.
Context {lib : GoLib}.
Implicit Types (env : Env) (m : Machine Service) (version : string).

Lemma statAll_frame {St} hashtabs acc env (m : Machine St) :
  trace (statAll hashtabs acc env m).2 = trace m ∧
  self (statAll hashtabs acc env m).2 = self m ∧
  tick (statAll hashtabs acc env m).2 = tick m + length hashtabs.
Proof.
  revert acc m. induction hashtabs as [|ht rest IH]; intros acc m; simpl.
  - run_monad. repeat split. lia.
  - run_monad.
    destruct (stat (env (tick m)) (HashtabFile.Path ht));
      match goal with |- context [statAll rest ?a env ?m'] =>
        destruct (IH a m') as (-> & -> & ->) end; simpl; repeat split; lia.
Qed.

Lemma anyChanged_frame {St} sourceMods hashtabs env (m : Machine St) :
  trace (anyChanged sourceMods hashtabs env m).2 = trace m ∧
  self (anyChanged sourceMods hashtabs env m).2 = self m.
Proof.
  revert m. induction hashtabs as [|ht rest IH]; intros m; simpl.
  - by run_monad.
  - run_monad.
    pose proof (IH (mkMachine (S (tick m)) (trace m) (self m))) as IHm.
    destruct (stat (env (tick m)) (HashtabFile.Path ht)); try exact IHm.
    destruct (sourceMods !! HashtabFile.Path ht); [|done].
    destruct (time_Equal t modTime); [exact IHm|done].
Qed.

Lemma anyChanged_true {St} sourceMods hashtabs env (m : Machine St) :
  (anyChanged sourceMods hashtabs env m).1 = true ↔
  ∃ i ht modTime,
    hashtabs !! i = Some ht ∧
    stat (env (tick m + i)) (HashtabFile.Path ht) = StatOk modTime ∧
    sourceMods !! HashtabFile.Path ht ≠ Some modTime.
Proof.
  revert m. induction hashtabs as [|ht rest IH]; intros m; simpl.
  - run_monad. split; [done|]. by intros (i & ? & ? & ? & _).
  - run_monad.
    assert (Hshift : ∀ i, tick m + S i = S (tick m) + i) by lia.
    assert (Hskip :
      (¬ ∃ modTime, stat (env (tick m)) (HashtabFile.Path ht) = StatOk modTime ∧
                    sourceMods !! HashtabFile.Path ht ≠ Some modTime) →
      (anyChanged sourceMods rest env
         (mkMachine (S (tick m)) (trace m) (self m))).1 = true ↔
      ∃ i ht0 modTime,
        (ht :: rest) !! i = Some ht0 ∧
        stat (env (tick m + i)) (HashtabFile.Path ht0) = StatOk modTime ∧
        sourceMods !! HashtabFile.Path ht0 ≠ Some modTime).
    { intros Hnot. rewrite IH. simpl. split.
      - intros (i & h & t & ? & ? & ?). exists (S i), h, t.
        by rewrite Hshift.
      - intros ([|i] & h & t & Hl & Hs & Hd); simpl in Hl.
        + injection Hl as <-. rewrite Nat.add_0_r in Hs.
          destruct Hnot. eauto.
        + rewrite Hshift in Hs. eauto 10. }
    destruct (stat (env (tick m)) (HashtabFile.Path ht)) as [t| |e] eqn:Hst;
      [|apply Hskip; by intros (? & ? & _)..].
    destruct (sourceMods !! HashtabFile.Path ht) as [old|] eqn:Hold.
    + unfold time_Equal. destruct (Z.eqb_spec old t) as [->|Hne].
      * apply Hskip. intros (? & [= <-] & ?). done.
      * simpl. split; [|done]. intros _. exists 0, ht, t.
        rewrite Nat.add_0_r, Hold. split; [done|]. split; [done|]. congruence.
    + simpl. split; [|done]. intros _. exists 0, ht, t.
      rewrite Nat.add_0_r, Hold. done.
Qed.

(** In a world whose files keep their modification times, the snapshot
    [statAll] takes holds, for every path it could stat, that path's
    time. *)
Lemma statAll_records {St} env (st : string → StatResult) hashtabs :
  (∀ n, stat (env n) = st) →
  ∀ acc (m : Machine St),
    (∀ p t, acc !! p = Some t → st p = StatOk t) →
    let mods := (statAll hashtabs acc env m).1 in
    (∀ p t, mods !! p = Some t → st p = StatOk t) ∧
    (∀ p t, acc !! p = Some t → mods !! p = Some t) ∧
    (∀ ht t, ht ∈ hashtabs → st (HashtabFile.Path ht) = StatOk t →
             mods !! HashtabFile.Path ht = Some t).
Proof.
  intros Hstill. induction hashtabs as [|ht rest IH]; intros acc m Hacc; simpl.
  - run_monad. split; [done|]. split; [done|].
    intros ht t Hin. by apply elem_of_nil in Hin.
  - run_monad. rewrite Hstill.
    destruct (st (HashtabFile.Path ht)) as [t0| |e] eqn:Hst.
    + assert (Hacc' : ∀ p t, <[HashtabFile.Path ht := t0]> acc !! p = Some t →
                             st p = StatOk t).
      { intros p t. destruct (decide (HashtabFile.Path ht = p)) as [<-|Hne].
        - rewrite lookup_insert_eq. by intros [= <-].
        - rewrite lookup_insert_ne by done. apply Hacc. }
      destruct (IH _ (mkMachine (S (tick m)) (trace m) (self m)) Hacc')
        as (Hsound & Hkeep & Hall).
      split; [exact Hsound|]. split.
      * intros p t Hp. apply Hkeep.
        destruct (decide (HashtabFile.Path ht = p)) as [<-|Hne].
        -- rewrite lookup_insert_eq. apply Hacc in Hp. congruence.
        -- by rewrite lookup_insert_ne.
      * intros ht' t Hin Hst'. apply elem_of_cons in Hin as [->|Hin].
        -- apply Hkeep. rewrite lookup_insert_eq. congruence.
        -- by apply Hall.
    + destruct (IH acc (mkMachine (S (tick m)) (trace m) (self m)) Hacc)
        as (Hsound & Hkeep & Hall).
      split; [exact Hsound|]. split; [exact Hkeep|].
      intros ht' t Hin Hst'. apply elem_of_cons in Hin as [->|Hin].
      * congruence.
      * by apply Hall.
    + destruct (IH acc (mkMachine (S (tick m)) (trace m) (self m)) Hacc)
        as (Hsound & Hkeep & Hall).
      split; [exact Hsound|]. split; [exact Hkeep|].
      intros ht' t Hin Hst'. apply elem_of_cons in Hin as [->|Hin].
      * congruence.
      * by apply Hall.
Qed.

#[local] Arguments statAll : simpl never.
#[local] Arguments anyChanged : simpl never.

(** C1, as amended.  What [generateGCD] does is decided by the number of
    source artifacts the registry holds for the version.  With none it
    returns the error [no hashtabs found for version ...], runs nothing
    and leaves the service as it was.  With exactly one it succeeds, runs
    nothing, and the cache entry's path is that artifact's path, with
    device count 1.  With two or more it runs the binary exactly once,
    with [gcd-hashtab], the output path and the artifacts' paths in the
    registry's order; it succeeds exactly when that run succeeds, and
    then the cache entry's path is [filepath.Join(gcdDir, version+".gcd")]
    and its device count the number of artifacts. *)
Theorem generateGCD_by_number_of_sources env m version :
  let s := self m in
  let out := generateGCD version env m in
  match registeredFor version s with
  | [] =>
      out.1 = Some ("no hashtabs found for version " +:+ version) ∧
      trace out.2 = trace m ++ [Generate version] ∧
      self out.2 = s
  | [ht] =>
      out.1 = None ∧
      trace out.2 = trace m ++ [Generate version] ∧
      ∃ gcd, gcdHashtabs (self out.2) !! version = Some gcd ∧
             Path gcd = HashtabFile.Path ht ∧ DeviceCount gcd = 1%Z
  | hashtabs =>
      trace out.2 =
        trace m ++ [Generate version;
                    Exec (qmldiffBinary s) (mergeArgs s version)] ∧
      (out.1 = None ↔
         run_err (run (env (tick m)) (qmldiffBinary s) (mergeArgs s version))
           = None) ∧
      (out.1 = None →
         ∃ gcd, gcdHashtabs (self out.2) !! version = Some gcd ∧
                Path gcd = filepath_Join (gcdDir s) (version +:+ ".gcd") ∧
                DeviceCount gcd = Z.of_nat (length hashtabs))
  end.
Proof.
  intros s out. subst out s. unfold registeredFor, mergeArgs, generateGCD.
  run_monad.
  destruct (Hashtabs.GetHashtabsForVersion version
              (hashtabService (self m))) as [|h1 [|h2 rest]] eqn:Hn; simpl.
  - done.
  - repeat split. eexists. rewrite lookup_insert_eq. done.
  - unfold runQmldiff. run_monad.
    destruct (run_err (run (env (tick m)) (qmldiffBinary (self m)) _))
      as [e|] eqn:Hrun; simpl.
    + rewrite <- app_assoc. repeat split; try done.
    + match goal with |- context [statAll ?l ?a env ?m'] =>
        destruct (statAll_frame l a env m') as (Ht & Hs & _);
        destruct (statAll l a env m') as [mods m''] eqn:Hst end.
      simpl in *. rewrite Ht, Hs, <- app_assoc. repeat split; try done.
      intros _. eexists. rewrite lookup_insert_eq. done.
Qed.

(** C4.  When the registry holds two or more artifacts for the version
    and the run of [qmldiff gcd-hashtab] fails, [generateGCD] returns an
    error that wraps the engine's, and the service is left exactly as it
    was: [gcdHashtabs] and [sourceModTimes] are unchanged, so no entry is
    installed and none is touched. *)
Theorem generateGCD_engine_failure_installs_nothing env m version e :
  let s := self m in
  (2 ≤ length (registeredFor version s))%nat →
  run_err (run (env (tick m)) (qmldiffBinary s) (mergeArgs s version))
    = Some e →
  let out := generateGCD version env m in
  (∃ msg, out.1 = Some ("qmldiff gcd-hashtab failed: " +:+ msg)) ∧
  gcdHashtabs (self out.2) = gcdHashtabs s ∧
  sourceModTimes (self out.2) = sourceModTimes s ∧
  self out.2 = s.
Proof.
  intros s Hlen Hrun out. subst out s.
  unfold registeredFor, mergeArgs, generateGCD in *. run_monad.
  destruct (Hashtabs.GetHashtabsForVersion version
              (hashtabService (self m))) as [|h1 [|h2 rest]] eqn:Hn;
    simpl in Hlen; [lia..|].
  unfold runQmldiff. run_monad. simpl in Hrun. rewrite Hrun. simpl.
  split; [eauto|done].
Qed.

(** An error of [generateGCD], whatever its cause, leaves the service as
    it was. *)
Lemma generateGCD_error_keeps_service env m version e :
  (generateGCD version env m).1 = Some e →
  self (generateGCD version env m).2 = self m.
Proof.
  unfold generateGCD. run_monad.
  destruct (Hashtabs.GetHashtabsForVersion version
              (hashtabService (self m))) as [|h1 [|h2 rest]]; simpl;
    [done..|].
  unfold runQmldiff. run_monad.
  destruct (run_err _); simpl; [done|].
  match goal with |- context [statAll ?l ?a env ?m'] =>
    destruct (statAll l a env m') as [mods m''] end. done.
Qed.

(** Caching works when nothing moves: after a generation from two or more
    artifacts that succeeded, in a world whose files keep their
    modification times, the cache is not stale for the version, whenever
    it is looked at. *)
Lemma generation_leaves_cache_fresh env m version (st : string → StatResult) t :
  (∀ n, stat (env n) = st) →
  (2 ≤ length (registeredFor version (self m)))%nat →
  (generateGCD version env m).1 = None →
  ¬ stale env t version (self (generateGCD version env m).2).
Proof.
  intros Hstill Htwo. unfold registeredFor in *.
  unfold generateGCD, stale. run_monad.
  destruct (Hashtabs.GetHashtabsForVersion version
              (hashtabService (self m))) as [|h1 [|h2 rest]] eqn:Hn;
    simpl in Htwo; [lia..|].
  unfold runQmldiff. run_monad.
  destruct (run_err _); simpl; [done|].
  match goal with |- context [statAll ?l ?a env ?m'] =>
    pose proof (statAll_frame l a env m') as (_ & Hs & _);
    pose proof (statAll_records env st l Hstill a m') as Hrec;
    destruct (statAll l a env m') as [mods m''] end.
  simpl in *. intros _. rewrite Hs. simpl. rewrite !lookup_insert_eq. simpl.
  rewrite Hn. destruct Hrec as (_ & _ & Hall); [by intros p t0|].
  intros [Hcount|(i & ht & t0 & Hi & Hst & Hdiff)].
  - by apply Hcount.
  - rewrite Hstill in Hst. apply Hdiff, Hall; [|done].
    by eapply list_elem_of_lookup_2.
Qed.
Lemma CheckAndReload_trace env (m : Machine Hashtabs.Service) :
  trace (Hashtabs.CheckAndReload env m).2 = trace m.
Proof.
  unfold Hashtabs.CheckAndReload. run_monad.
  destruct (_ <? _)%Z; [done|]. simpl.
  destruct (foldl _ _ _) as [currentFiles needsReload]. simpl.
  destruct (failure _); [done|].
  destruct (negb _); [done|]. simpl.
  by destruct (failure _).
Qed.

(** An I/O error of the first walk of [CheckAndReload]: no reload is
    reported and the tables stay as they were. *)
Lemma CheckAndReload_detection_error env (m : Machine Hashtabs.Service) e :
  (5 * Second ≤ time_Sub (now (env (tick m)))
                  (Hashtabs.lastReloadCheck (self m)))%Z →
  failure (walkDir (env (S (S (tick m)))) (Hashtabs.dir (self m)))
    = Some e →
  (Hashtabs.CheckAndReload env m).1 =
    (false, Some ("failed to walk hashtable directory: " +:+ e)) ∧
  Hashtabs.tables (self (Hashtabs.CheckAndReload env m).2)
    = Hashtabs.tables (self m).
Proof.
  intros Hdue Hfail. unfold Hashtabs.CheckAndReload. run_monad.
  destruct (Z.ltb_spec (time_Sub (now (env (tick m)))
                          (Hashtabs.lastReloadCheck (self m)))
                       (5 * Second)) as [|_];
    [lia|]. simpl.
  destruct (foldl _ _ _) as [currentFiles needsReload]. simpl.
  by rewrite Hfail.
Qed.

Lemma needsRegen_stale env m version :
  ((needsRegen version env m).1 = true ↔ stale env (tick m) version (self m)) ∧
  trace (needsRegen version env m).2 = trace m ∧
  self (needsRegen version env m).2 = self m.
Proof.
  unfold needsRegen, stale. run_monad.
  destruct (gcdHashtabs (self m) !! version) as [gcd|]; [|done].
  case_bool_decide as Hcount; simpl.
  - split; [|done]. split; [by left|done].
  - destruct (anyChanged_frame
                (default ∅ (sourceModTimes (self m) !! version))
                (Hashtabs.GetHashtabsForVersion version
                   (hashtabService (self m))) env m) as [Ht Hs].
    split; [|done]. rewrite anyChanged_true. split; [by right|].
    intros [Hne|?]; [|done]. by destruct Hcount.
Qed.

Lemma cachedPath_frame env m version :
  (cachedPath version env m).2 = m.
Proof. unfold cachedPath. run_monad. by destruct (_ !! _). Qed.

Lemma GetGCDHashtab_steps env m version :
  GetGCDHashtab version env m =
    let cr := withRegistry Hashtabs.CheckAndReload env m in
    let rf := refresh version cr.1.1 env cr.2 in
    match rf.1 with
    | Some e => (Err e, rf.2)
    | None => cachedPath version env rf.2
    end.
Proof.
  unfold GetGCDHashtab. unfold bind at 1.
  destruct (withRegistry Hashtabs.CheckAndReload env m)
    as [[reloaded err] m1]. simpl.
  unfold bind. destruct (refresh version reloaded env m1) as [[e|] m2]; done.
Qed.

Lemma reload_check_frame env m :
  let cr := withRegistry Hashtabs.CheckAndReload env m in
  trace cr.2 = trace m ∧
  gcdHashtabs (self cr.2) = gcdHashtabs (self m) ∧
  sourceModTimes (self cr.2) = sourceModTimes (self m).
Proof.
  unfold withRegistry, zoom.
  pose proof (CheckAndReload_trace env
                (mkMachine (tick m) (trace m) (hashtabService (self m))))
    as Htr.
  destruct (Hashtabs.CheckAndReload env _) as [a mh]. done.
Qed.

(** C3.  [GetGCDHashtab] first lets the registry check for a reload;
    that check leaves the trace and both cache maps alone.  If the
    registry reports a reload, or if it does not and the cache is stale
    for the version (no entry, or a device count that is not the number
    of artifacts the registry now holds, or an artifact of the registry
    whose current modification time is not the one in the snapshot), then
    [generateGCD] runs, on the service as the check left it, and the
    result is its error or, after it has replaced entry and snapshot, the
    path of the entry.  If the registry reports no reload and the cache
    is not stale, nothing is generated: the result is the path of the
    entry that was there, the trace has no new event and the service is
    as the check left it. *)
Theorem GetGCDHashtab_regenerates_exactly_when_stale env m version :
  let cr := withRegistry Hashtabs.CheckAndReload env m in
  let reloaded := cr.1.1 in
  let m1 := cr.2 in
  let out := GetGCDHashtab version env m in
  (trace m1 = trace m ∧
   gcdHashtabs (self m1) = gcdHashtabs (self m) ∧
   sourceModTimes (self m1) = sourceModTimes (self m)) ∧
  (reloaded = true ∨ stale env (tick m1) version (self m1) →
     ∃ m', trace m' = trace m ∧ self m' = self m1 ∧
           out = match (generateGCD version env m').1 with
                 | Some e => (Err e, (generateGCD version env m').2)
                 | None =>
                     cachedPath version env (generateGCD version env m').2
                 end) ∧
  (reloaded = false ∧ ¬ stale env (tick m1) version (self m1) →
     ∃ gcd, gcdHashtabs (self m) !! version = Some gcd ∧
            out.1 = Ok (Path gcd) ∧
            trace out.2 = trace m ∧
            self out.2 = self m1).
Proof.
  intros cr reloaded m1 out.
  pose proof (reload_check_frame env m) as Hframe.
  subst out reloaded m1 cr. rewrite GetGCDHashtab_steps.
  cbv zeta in *.
  destruct (withRegistry Hashtabs.CheckAndReload env m)
    as [[reloaded err] m1].
  simpl in *. destruct Hframe as (Htr & Hg & Hsm).
  split; [done|]. unfold refresh.
  destruct reloaded.
  - split; [|by intros [? _]].
    intros _. exists m1. done.
  - destruct (needsRegen_stale env m1 version) as (Hiff & Ht & Hs).
    unfold bind. destruct (needsRegen version env m1) as [regen m2].
    simpl in *. split.
    + intros [?|Hstale]; [done|]. apply Hiff in Hstale. subst regen.
      exists m2. split; [congruence|]. done.
    + intros [_ Hfresh]. destruct regen; [by destruct Hfresh; apply Hiff|].
      unfold stale in Hfresh. rewrite Hg in Hfresh.
      unfold ret. simpl. unfold cachedPath, ret, get, bind. simpl.
      rewrite Hs, Hg.
      destruct (gcdHashtabs (self m) !! version) as [gcd|]; [|done].
      exists gcd. simpl. repeat split; try done. congruence.
Qed.
End Cache.

(** ** The processing task *)

Section Task.
Import Os Env Handlers.
Context {lib : GoLib}.
Implicit Types (env : Env) (m : Machine APIHandler).

Lemma copyFile_outcome {St} src dst env (m : Machine St) :
  copyFile src dst env m =
    ((copyOutcome env (tick m) src dst).1,
     mkMachine ((copyOutcome env (tick m) src dst).2 + tick m)
               (trace m) (self m)).
Proof.
  unfold copyFile, copyOutcome. run_monad.
  destruct (open _ _); [done|]. destruct (create _ _); done.
Qed.

Lemma prefixed_nonempty (p e : string) : p ≠ "" → p +:+ e ≠ "".
Proof. destruct p; [done|]. by intros _. Qed.

Lemma UpdateProgress_keeps_job id id' p s :
  is_Some (Jobs.jobs s !! id) →
  is_Some (Jobs.jobs (Jobs.UpdateProgress id' p s) !! id).
Proof.
  intros Hj. unfold Jobs.UpdateProgress.
  destruct (Jobs.jobs s !! id') eqn:Hi; [|done].
  rewrite broadcastLocked_jobs. simpl.
  destruct (decide (id' = id)) as [->|Hne].
  - rewrite lookup_insert_eq. eauto.
  - by rewrite lookup_insert_ne.
Qed.

Lemma hashFiles_outcomes jobID gcdPath outputDir n relPaths rest :
  ∀ i results sc env m,
    (i + length rest ≤ length relPaths)%nat →
    is_Some (Jobs.jobs (jobStore (self m)) !! jobID) →
    let flags := attempts env (tick m)
                   (QmlDiff.binaryPath (qmldiffService (self m)))
                   gcdPath outputDir relPaths i rest in
    ∃ rs m',
      hashFiles jobID gcdPath outputDir n relPaths i rest results sc env m
        = (Some (results ++ rs, sc + successes flags), m') ∧
      map isSuccess rs = flags ∧
      map Jobs.fr_Name rs = take (length rest) (drop i relPaths) ∧
      Forall wellFormed rs ∧
      qmldiffService (self m') = qmldiffService (self m) ∧
      gcdCache (self m') = gcdCache (self m) ∧
      is_Some (Jobs.jobs (jobStore (self m')) !! jobID).
Proof.
  induction rest as [|inputPath rest IH];
    intros i results sc env m Hlen Hjob; simpl.
  - exists [], m. rewrite app_nil_r, Nat.add_0_r. by repeat split.
  - simpl in Hlen.
    destruct (relPaths !! i) as [relPath|] eqn:Hrel;
      [|apply lookup_ge_None in Hrel; lia].
    assert (Hdrop : take (S (length rest)) (drop i relPaths) =
              relPath :: take (length rest) (drop (S i) relPaths)).
    { by rewrite (drop_S _ _ _ Hrel). }
    rewrite Hdrop.
    unfold bind at 1. rewrite copyFile_outcome. unfold attempt.
    destruct (copyOutcome env (tick m) inputPath
                (filepath_Join outputDir relPath)) as [[e|] k]; simpl.
    + match goal with |- context [hashFiles _ _ _ _ _ _ _ ?r ?c env ?m0] =>
        destruct (IH (S i) r c env m0)
          as (rs & m' & Hout & Hfl & Hnm & Hwf & Hq & Hg & Hj);
          [lia|done|] end.
      simpl in *.
      exists (failed relPath ("Failed to copy file: " +:+ e) :: rs), m'.
      rewrite Hout, <- app_assoc. simpl. rewrite Hfl, Hnm.
      split_and!; try done.
      constructor; [|done]. split; [done|]. right. split; [done|].
      by apply prefixed_nonempty.
    + unfold withQmldiff, zoom, QmlDiff.HashDiffs. run_monad.
      destruct (run_err (run (env (k + tick m)) _ _)) as [e|] eqn:Hrun;
        simpl.
      * match goal with |- context [hashFiles _ _ _ _ _ _ _ ?r ?c env ?m0] =>
          destruct (IH (S i) r c env m0)
            as (rs & m' & Hout & Hfl & Hnm & Hwf & Hq & Hg & Hj);
            [lia|done|] end.
        simpl in *.
        eexists (failed relPath _ :: rs), m'.
        rewrite Hout, <- app_assoc. simpl. rewrite Hfl, Hnm.
        split_and!; try done.
        constructor; [|done]. split; [done|]. right. split; [done|].
        by apply prefixed_nonempty.
      * unfold onStore. run_monad.
        match goal with |- context [hashFiles _ _ _ _ _ _ _ ?r ?c env ?m0] =>
          destruct (IH (S i) r c env m0)
            as (rs & m' & Hout & Hfl & Hnm & Hwf & Hq & Hg & Hj);
            [lia|by apply UpdateProgress_keeps_job|] end.
        simpl in *. exists (hashed relPath :: rs), m'.
        rewrite Hout, <- app_assoc. simpl. rewrite Hfl, Hnm.
        split_and!; try done.
        -- do 3 f_equal. lia.
        -- constructor; [|done]. split; [done|]. by left.
Qed.

Lemma Update_job id status message data now s j :
  Jobs.jobs s !! id = Some j →
  ∃ j', Jobs.jobs (Jobs.Update id status message data now s) !! id = Some j' ∧
        Jobs.Status j' = status ∧ Jobs.Files j' = Jobs.Files j ∧
        Jobs.FileCount j' = Jobs.FileCount j.
Proof.
  intros Hj. unfold Jobs.Update. rewrite Hj, broadcastLocked_jobs. simpl.
  rewrite lookup_insert_eq. eauto.
Qed.

Lemma UpdateWithOperation_job id status message data operation now s j :
  Jobs.jobs s !! id = Some j →
  is_Some (Jobs.jobs (Jobs.UpdateWithOperation id status message data
                        operation now s) !! id).
Proof.
  intros Hj. unfold Jobs.UpdateWithOperation.
  rewrite Hj, broadcastLocked_jobs. simpl. rewrite lookup_insert_eq. eauto.
Qed.

Lemma SetFiles_job id files s j :
  Jobs.jobs s !! id = Some j →
  ∃ j', Jobs.jobs (Jobs.SetFiles id files s) !! id = Some j' ∧
        Jobs.Files j' = files ∧
        Jobs.FileCount j' = Z.of_nat (length files).
Proof.
  intros Hj. unfold Jobs.SetFiles. rewrite Hj. simpl.
  rewrite lookup_insert_eq. eauto.
Qed.

Lemma stamping_run id status f env m :
  ∃ t k,
    stamping id status f env m =
      (tt, mkMachine (k + tick m) (trace m)
             {| qmldiffService := qmldiffService (self m);
                gcdCache := gcdCache (self m);
                jobStore := f t (jobStore (self m)) |}).
Proof.
  unfold stamping, onStore. run_monad.
  destruct (stamps id status (jobStore (self m))).
  - by exists (now (env (tick m))), 1.
  - by exists zeroTime, 0.
Qed.

Lemma stamping_running id f env m :
  stamping id "running" f env m =
    (tt, mkMachine (tick m) (trace m)
           {| qmldiffService := qmldiffService (self m);
              gcdCache := gcdCache (self m);
              jobStore := f zeroTime (jobStore (self m)) |}).
Proof.
  unfold stamping, onStore, stamps. run_monad.
  by destruct (Jobs.jobs (jobStore (self m)) !! id).
Qed.

Lemma withGcdCache_frame {A} (c : M GcdCache.Service A) env m :
  qmldiffService (self (withGcdCache c env m).2) = qmldiffService (self m) ∧
  jobStore (self (withGcdCache c env m).2) = jobStore (self m).
Proof.
  unfold withGcdCache, zoom. by destruct (c env _).
Qed.

(** C5.  Let the job be in the store and let there be a relative path
    for every file.  The task returns, and the job it leaves has status
    error when no file of the batch was hashed and success otherwise; no
    file is hashed when the derived artifact could not be obtained.  When
    it could, the job holds one result per file, in the order of the
    batch and named by the relative paths, its file count is the size of
    the batch, the successful results are those of the files whose copy
    and whose engine run both succeeded, and every other result has
    status error and a non-empty message: a failure of one file does not
    keep the later files from being processed. *)
Theorem processHashJob_terminal_status
    env m jobID version qmdFiles relPaths inputDir outputDir j0 :
  Jobs.jobs (jobStore (self m)) !! jobID = Some j0 →
  (length qmdFiles ≤ length relPaths)%nat →
  let m0 := (jobStore_UpdateWithOperation jobID "running"
               "Getting GCD hashtab" None "preparing" env m).2 in
  let g := withGcdCache (GcdCache.GetGCDHashtab version) env m0 in
  let flags :=
    match g.1 with
    | Ok gcdPath =>
        attempts env (tick g.2)
          (QmlDiff.binaryPath (qmldiffService (self m)))
          gcdPath outputDir relPaths 0 qmdFiles
    | Err _ => []
    end in
  ∃ m' j',
    processHashJob jobID version qmdFiles relPaths inputDir outputDir env m
      = (Returned, m') ∧
    Jobs.jobs (jobStore (self m')) !! jobID = Some j' ∧
    Jobs.Status j' =
      (if bool_decide (successes flags = 0) then "error" else "success") ∧
    (is_Ok g.1 = true →
       Jobs.FileCount j' = Z.of_nat (length qmdFiles) ∧
       length (Jobs.Files j') = length qmdFiles ∧
       map isSuccess (Jobs.Files j') = flags ∧
       map Jobs.fr_Name (Jobs.Files j') = take (length qmdFiles) relPaths ∧
       Forall wellFormed (Jobs.Files j')).
Proof.
  intros Hj0 Hlen m0 g flags. subst flags g m0.
  unfold processHashJob, jobStore_UpdateWithOperation, jobStore_Update.
  unfold bind at 1. rewrite !stamping_running. simpl.
  destruct (UpdateWithOperation_job jobID "running" "Getting GCD hashtab"
              None "preparing" zeroTime _ _ Hj0) as [j1 Hj1].
  unfold bind at 1.
  match goal with |- context [withGcdCache ?c env ?mm] =>
    pose proof (withGcdCache_frame c env mm) as [Hq0 Hs0];
    destruct (withGcdCache c env mm) as [[gcdPath|e] mg] end;
    simpl in Hq0, Hs0.
  - simpl. unfold bind at 1. rewrite stamping_running. simpl.
    rewrite Hs0 in *.
    destruct (UpdateWithOperation_job jobID "running" "Hashing files"
                None "hashing" zeroTime _ _ Hj1) as [j2 Hj2].
    unfold bind at 1.
    match goal with |- context [hashFiles _ _ _ _ _ _ _ _ _ env ?mm] =>
      destruct (hashFiles_outcomes jobID gcdPath outputDir
                  (length qmdFiles) relPaths qmdFiles 0 [] 0 env mm)
        as (rs & m1 & Hout & Hfl & Hnm & Hwf & Hq & Hg & [j3 Hj3]);
        [simpl; lia|by eexists|] end.
    simpl in Hout, Hfl. rewrite Hout. simpl.
    unfold onStore at 1. run_monad.
    destruct (SetFiles_job jobID rs _ _ Hj3) as (j4 & Hj4 & Hfiles & Hcount).
    assert (Hrs : length rs = length qmdFiles).
    { rewrite <- (length_map Jobs.fr_Name), Hnm, length_take, length_drop.
      simpl. lia. }
    pose proof Hfl as Hfl'. rewrite Hq0 in Hfl'. rewrite <- Hfl, <- Hfl'.
    destruct (bool_decide (successes (map isSuccess rs) = 0)) eqn:Hzero.
    + match goal with |- context [stamping ?i ?st ?f env ?mm] =>
        destruct (stamping_run i st f env mm) as (t & k & ->) end.
      simpl.
      destruct (Update_job jobID "error" "All files failed to hash" None t
                  _ _ Hj4) as (j5 & Hj5 & Hst & Hf5 & Hc5).
      eexists _, j5. split; [done|]. split; [exact Hj5|].
      split; [done|]. intros _. rewrite Hf5, Hc5, Hfiles, Hcount, Hrs.
      split_and!; try done.
    + match goal with |- context [stamping ?i ?st ?f env ?mm] =>
        destruct (stamping_run i st f env mm) as (t & k & ->) end.
      simpl.
      match goal with |- context [Jobs.Update jobID "success" ?msg None t ?s] =>
        destruct (Update_job jobID "success" msg None t s _ Hj4)
          as (j5 & Hj5 & Hst & Hf5 & Hc5) end.
      eexists _, j5. split; [done|]. split; [exact Hj5|].
      split; [done|]. intros _. rewrite Hf5, Hc5, Hfiles, Hcount, Hrs.
      split_and!; try done.
  - simpl. unfold bind at 1.
    match goal with |- context [stamping ?i ?st ?f env ?mm] =>
      destruct (stamping_run i st f env mm) as (t & k & Hrun) end.
    rewrite Hrun. run_monad. rewrite Hs0.
    match goal with |- context [Jobs.Update jobID "error" ?msg None t ?s] =>
      destruct (Update_job jobID "error" msg None t s _ Hj1)
        as (j5 & Hj5 & Hst & Hf5 & Hc5) end.
    eexists _, j5. split; [done|]. split; [exact Hj5|]. by split.
Qed.
End Task.

(** ** The properties at concrete inputs *)

Section Examples.
Import Os HashtabFile Env Scenario.

(** C10 at a store with two jobs and no job [gone]. *)
Lemma mutators_of_absent_job_witness :
  Jobs.jobs oldStore !! "gone" = None ∧
  Jobs.Update "gone" "success" "late" None 5%Z oldStore = oldStore ∧
  Jobs.UpdateProgress "gone" 40 oldStore = oldStore ∧
  Jobs.AddFile "gone" (Handlers.hashed "a.qmd") oldStore = oldStore.
Proof.
  assert (Hgone : Jobs.jobs oldStore !! "gone" = None) by reflexivity.
  split; [exact Hgone|].
  destruct (mutators_of_absent_job_are_noops oldStore "gone" Hgone)
    as (HU & HP & _ & _ & _ & HA).
  split; [apply HU|]. split; [apply HP|apply HA].
Defined.

(** C9 on a job that is updated to success at time 20 and updated with
    terminal statuses again at times 30 and 40. *)
Lemma completion_time_witness :
  Jobs.jobs (Jobs.Create "job-1" Jobs.NewStore).2 !! "job-1" = Some freshJob ∧
  ∃ j', Jobs.jobs (Client.performAll lifecycle
                     (Jobs.Create "job-1" Jobs.NewStore).2) !! "job-1"
          = Some j' ∧
        Jobs.CompletedAt j' = Some 20%Z.
Proof.
  split; [reflexivity|].
  exact (completion_time_is_stamped_once lifecycle
           (Jobs.Create "job-1" Jobs.NewStore).2 "job-1" freshJob eq_refl).
Defined.

(** C7 eleven minutes after two jobs completed, one of them observed. *)
Lemma sweep_witness :
  Jobs.jobs oldStore !! "old" = Some doneJob ∧
  Jobs.jobs oldStore !! "watched" = Some doneJob ∧
  Jobs.jobs (Jobs.cleanupOldJobs (11 * Minute)%Z oldStore) !! "old" = None ∧
  Jobs.jobs (Jobs.cleanupOldJobs (11 * Minute)%Z oldStore) !! "watched"
    = Some doneJob.
Proof.
  assert (Hold : Jobs.jobs oldStore !! "old" = Some doneJob)
    by reflexivity.
  assert (Hwatched : Jobs.jobs oldStore !! "watched" = Some doneJob)
    by reflexivity.
  split; [exact Hold|]. split; [exact Hwatched|]. split.
  - apply (sweep_removes_exactly_the_unobserved_expired
             (11 * Minute)%Z oldStore "old" doneJob Hold).
    split; [|reflexivity]. exists 0%Z. split; reflexivity.
  - apply (sweep_removes_exactly_the_unobserved_expired
             (11 * Minute)%Z oldStore "watched" doneJob Hwatched).
    vm_compute. lia.
Defined.


(** C1 as stated: success if and only if there is at least one source
    artifact.  With two artifacts registered and an engine that exits
    with status 1, [generateGCD] fails. *)
Lemma generateGCD_fails_with_two_sources :
  ¬ ((GcdCache.generateGCD (lib := unixLib) "v1" (still cleanTree exits1)
        cacheMachine).1 = None
     ↔ (1 ≤ length (GcdCache.registeredFor "v1" (self cacheMachine)))%nat).
Proof.
  intros [_ Hsucceeds].
  assert (Hsources :
    (1 ≤ length (GcdCache.registeredFor "v1" (self cacheMachine)))%nat)
    by (vm_compute; lia).
  specialize (Hsucceeds Hsources). vm_compute in Hsucceeds. discriminate.
Qed.

(** C4 at that same request. *)
Lemma generateGCD_engine_failure_witness :
  (2 ≤ length (GcdCache.registeredFor "v1" (self cacheMachine)))%nat ∧
  run_err (run (still cleanTree exits1 (tick cacheMachine))
             (GcdCache.qmldiffBinary (self cacheMachine))
             (GcdCache.mergeArgs (lib := unixLib) (self cacheMachine) "v1"))
    = Some "exit status 1" ∧
  GcdCache.gcdHashtabs
    (self (GcdCache.generateGCD (lib := unixLib) "v1"
             (still cleanTree exits1) cacheMachine).2)
    = GcdCache.gcdHashtabs (self cacheMachine) ∧
  GcdCache.sourceModTimes
    (self (GcdCache.generateGCD (lib := unixLib) "v1"
             (still cleanTree exits1) cacheMachine).2)
    = GcdCache.sourceModTimes (self cacheMachine).
Proof.
  assert (Htwo :
    (2 ≤ length (GcdCache.registeredFor "v1" (self cacheMachine)))%nat)
    by (vm_compute; lia).
  assert (Hfails :
    run_err (run (still cleanTree exits1 (tick cacheMachine))
               (GcdCache.qmldiffBinary (self cacheMachine))
               (GcdCache.mergeArgs (lib := unixLib) (self cacheMachine) "v1"))
      = Some "exit status 1") by reflexivity.
  split; [exact Htwo|]. split; [exact Hfails|].
  destruct (generateGCD_engine_failure_installs_nothing
              (lib := unixLib) (still cleanTree exits1) cacheMachine "v1"
              "exit status 1" Htwo Hfails) as (_ & Hg & Hs & _).
  split; [exact Hg|exact Hs].
Defined.

(** C2 at a directory that holds, beside the two artifacts of v1, a file
    that does not parse.  Nothing in the directory changes; the clock
    moves ten seconds with every interaction.  Both requests get the
    same path, and each of them runs the merge: the file that was not
    loaded is not in [modTimes], so every check that is not rate-limited
    takes it for a new file and reloads. *)
Lemma stray_file_forces_a_merge_on_every_request :
  firstCall.1 = Ok "/gcd/v1.gcd" ∧
  secondCall.1 = Ok "/gcd/v1.gcd" ∧
  GcdCache.merges (trace firstCall.2) = 1 ∧
  GcdCache.merges (trace secondCall.2) = 2.
Proof. vm_compute. repeat split. Qed.

(** Without the stray file the second request is served from the cache. *)
Lemma clean_tree_is_merged_once :
  firstCleanCall.1 = Ok "/gcd/v1.gcd" ∧
  secondCleanCall.1 = Ok "/gcd/v1.gcd" ∧
  GcdCache.merges (trace secondCleanCall.2) = 1.
Proof. vm_compute. repeat split. Qed.

(** C8 at a check whose first walk sees a touched artifact and whose
    second walk meets an unreadable root: no reload is reported, and the
    registry that held two artifacts holds none. *)
Lemma failed_reload_walk_empties_the_registry :
  Hashtabs.hashtables registry = [rm1; rm2] ∧
  (Hashtabs.CheckAndReload (lib := unixLib) vanishing registryMachine).1
    = (false, Some "failed to reload hashtables: permission denied") ∧
  Hashtabs.tables
    (self (Hashtabs.CheckAndReload (lib := unixLib) vanishing
             registryMachine).2)
    = ([], ∅, ∅, ∅).
Proof. vm_compute. repeat split. Qed.

(** C5 at a batch of two files where the engine fails on the second. *)
Lemma processHashJob_witness :
  Jobs.jobs (Handlers.jobStore (self taskMachine)) !! "job-1"
    = Some freshJob ∧
  (length batch ≤ length batchNames)%nat ∧
  ∃ m' j',
    Handlers.processHashJob (lib := unixLib) "job-1" "v1" batch batchNames
      "/in" "/out" (still cleanTree failsOnB) taskMachine
      = (Handlers.Returned, m') ∧
    Jobs.jobs (Handlers.jobStore (self m')) !! "job-1" = Some j' ∧
    Jobs.Status j' = "success" ∧
    Jobs.FileCount j' = 2%Z ∧
    map Handlers.isSuccess (Jobs.Files j') = [true; false] ∧
    Forall Handlers.wellFormed (Jobs.Files j').
Proof.
  assert (Hjob : Jobs.jobs (Handlers.jobStore (self taskMachine)) !! "job-1"
                 = Some freshJob) by reflexivity.
  assert (Hnames : (length batch ≤ length batchNames)%nat)
    by (vm_compute; lia).
  split; [exact Hjob|]. split; [exact Hnames|].
  destruct (processHashJob_terminal_status (lib := unixLib)
              (still cleanTree failsOnB) taskMachine "job-1" "v1"
              batch batchNames "/in" "/out" freshJob Hjob Hnames)
    as (m' & j' & Hrun & Hj & Hstatus & Hfiles).
  exists m', j'. split; [exact Hrun|]. split; [exact Hj|].
  split; [exact Hstatus|].
  destruct (Hfiles eq_refl) as (Hcount & _ & Hflags & _ & Hwf).
  split; [exact Hcount|]. split; [exact Hflags|exact Hwf].
Defined.

(** The end-to-end example, evaluated. *)
Lemma two_file_batch_with_one_failure :
  Jobs.jobs
    (Handlers.jobStore
       (self (Handlers.processHashJob (lib := unixLib) "job-1" "v1" batch
                batchNames "/in" "/out" (still cleanTree failsOnB)
                taskMachine).2)) !! "job-1"
  = Some {| Jobs.Status := "success";
            Jobs.Message := "Hashed 1 file(s)";
            Jobs.Data := None;
            Jobs.Progress := 50;
            Jobs.Operation := "hashing";
            Jobs.Files :=
              [Handlers.hashed "a.qmd";
               Handlers.failed "b.qmd"
                 ("Hashing failed: hash-diffs failed: exit status 1"
                  +:+ newline +:+ "stderr: bad input"
                  +:+ newline +:+ "stdout: ")];
            Jobs.OutputDir := "";
            Jobs.FileCount := 2;
            Jobs.CompletedAt := Some (17 * 10 * Second)%Z |}.
Proof. vm_compute. reflexivity. Qed.
End Examples.

(** * Further properties *)

(** ** Observers that leave *)

Section Leaving.
Import Os Jobs Client Observers.
Implicit Types (s : Store) (st : State) (id : string) (ch : chan).

Lemma perform_watchers c s :
  (∀ id, c ≠ CSubscribe id) →
  watchers (perform c s) = watchers s ∧ nextChan (perform c s) = nextChan s.
Proof.
  intros Hc.
  destruct c as [i status msg d now|i p|i status msg d op now|i o|i fs|i f|i|c];
    simpl.
  - unfold Update. destruct (jobs s !! i); [|done].
    match goal with |- context [broadcastLocked ?i ?x] =>
      destruct (broadcastLocked_frame i x) as (_ & -> & ->) end. done.
  - unfold UpdateProgress. destruct (jobs s !! i); [|done].
    match goal with |- context [broadcastLocked ?i ?x] =>
      destruct (broadcastLocked_frame i x) as (_ & -> & ->) end. done.
  - unfold UpdateWithOperation. destruct (jobs s !! i); [|done].
    match goal with |- context [broadcastLocked ?i ?x] =>
      destruct (broadcastLocked_frame i x) as (_ & -> & ->) end. done.
  - unfold SetOutputDir. by destruct (jobs s !! i).
  - unfold SetFiles. by destruct (jobs s !! i).
  - unfold AddFile. destruct (jobs s !! i); [|done].
    match goal with |- context [broadcastLocked ?i ?x] =>
      destruct (broadcastLocked_frame i x) as (_ & -> & ->) end. done.
  - by destruct (Hc i).
  - unfold receive. by destruct (buffer c s).
Qed.

Lemma removeFirst_subset ch l x : x ∈ removeFirst ch l → x ∈ l.
Proof.
  induction l as [|c l IH]; simpl; [done|].
  case_decide; rewrite !elem_of_cons.
  - by right.
  - intros [->|Hin]; [by left|right; by apply IH].
Qed.

Lemma removeFirst_NoDup ch l : NoDup l → NoDup (removeFirst ch l).
Proof.
  induction 1 as [|c l Hc Hl IH]; simpl; [constructor|].
  case_decide; [done|]. constructor; [|done].
  intros Hin. by apply Hc, (removeFirst_subset ch).
Qed.

Lemma removeFirst_gone ch l : NoDup l → ch ∉ removeFirst ch l.
Proof.
  induction 1 as [|c l Hc Hl IH]; simpl; [apply not_elem_of_nil|].
  case_decide as Heq; [by subst|].
  rewrite not_elem_of_cons. split; [congruence|done].
Qed.

Lemma removeFirst_others ch l x : x ≠ ch → x ∈ l → x ∈ removeFirst ch l.
Proof.
  intros Hne. induction l as [|c l IH]; simpl; [done|].
  rewrite elem_of_cons. case_decide as Hc.
  - intros [->|Hin]; [by subst|done].
  - rewrite elem_of_cons. intros [->|Hin]; [by left|right; by apply IH].
Qed.

Lemma closeAll_open l (closed : gset chan) :
  NoDup l → (∀ ch, ch ∈ l → ch ∉ closed) →
  closeAll l closed = (Done, list_to_set l ∪ closed).
Proof.
  intros Hnd. revert closed. induction Hnd as [|c l Hc Hl IH];
    intros closed Hopen; simpl.
  - f_equal. by rewrite (left_id_L ∅ (∪)).
  - rewrite bool_decide_false by (apply Hopen; by left).
    rewrite IH.
    + f_equal. rewrite (assoc_L (∪)). f_equal. apply (comm_L (∪)).
    + intros ch Hin. rewrite elem_of_union, elem_of_singleton.
      intros [->|Hcl]; [done|]. apply (Hopen ch); [by right|done].
Qed.

Lemma consistent_NewState : consistent NewState.
Proof.
  unfold consistent, NewState. simpl. split_and!.
  - intros id l ch. by rewrite lookup_empty.
  - intros id l. by rewrite lookup_empty.
  - set_solver.
  - intros ch id. by rewrite lookup_empty.
Qed.

Lemma consistent_onStore f st :
  (∀ id l, watchers (f (store st)) !! id = Some l →
           watchers (store st) !! id = Some l ∨ l = []) →
  nextChan (f (store st)) = nextChan (store st) →
  consistent st → consistent (onStore f st).
Proof.
  intros Hw Hn (Ha & Hb & Hc & Hd). unfold consistent, onStore. simpl.
  rewrite Hn. split_and!; [| |done|done].
  - intros id l ch Hl Hin. destruct (Hw id l Hl) as [Hl'| ->].
    + by eapply Ha.
    + by apply elem_of_nil in Hin.
  - intros id l Hl. destruct (Hw id l Hl) as [Hl'| ->].
    + by eapply Hb.
    + constructor.
Qed.

Lemma consistent_advance step st : consistent st → consistent (advance step st).
Proof.
  intros Hst. destruct step as [id|c|now|ch|id|id n]; simpl.
  - apply consistent_onStore; [|done|done]. simpl.
    intros i l. destruct (decide (id = i)) as [->|Hne].
    + rewrite lookup_insert_eq. intros [= <-]. by right.
    + rewrite lookup_insert_ne by done. by left.
  - assert (Hother : (∀ id, c ≠ CSubscribe id) →
                     consistent (onStore (perform c) st)).
    { intros Hc. destruct (perform_watchers c (store st) Hc) as [Hw Hn].
      apply consistent_onStore; [|done|done]. rewrite Hw. by left. }
    destruct c; try (apply Hother; by intros ?).
    destruct Hst as (Ha & Hb & Hc & Hd).
    destruct (Subscribe_shape id (store st)) as (Hch & _ & Hw & Hn & _).
    unfold consistent, Subscribe. simpl. rewrite Hch, Hw, Hn.
    assert (Hfresh : ∀ i l, watchers (store st) !! i = Some l →
                            nextChan (store st) ∉ l).
    { intros i l Hl Hin. destruct (Ha _ _ _ Hl Hin) as (? & _). lia. }
    split_and!.
    + intros i l ch. destruct (decide (id = i)) as [->|Hne].
      * rewrite lookup_insert_eq. intros [= <-].
        rewrite elem_of_app, list_elem_of_singleton. intros [Hin| ->].
        -- destruct (watchers (store st) !! i) as [l0|] eqn:Hl0;
             simpl in Hin; [|by apply elem_of_nil in Hin].
           destruct (Ha _ _ _ Hl0 Hin) as (Hlt & Hcl & Hop).
           split; [lia|]. split; [|done].
           rewrite lookup_insert_ne by lia. done.
        -- split; [lia|]. split; [by rewrite lookup_insert_eq|].
           intros Hin. apply Hc in Hin. lia.
      * rewrite lookup_insert_ne by done. intros Hl Hin.
        destruct (Ha _ _ _ Hl Hin) as (Hlt & Hcl & Hop).
        split; [lia|]. split; [|done]. rewrite lookup_insert_ne by lia. done.
    + intros i l. destruct (decide (id = i)) as [->|Hne].
      * rewrite lookup_insert_eq. intros [= <-].
        destruct (watchers (store st) !! i) as [l0|] eqn:Hl0; simpl.
        -- apply NoDup_app. split; [by eapply Hb|]. split; [|apply NoDup_singleton].
           intros x Hx. rewrite list_elem_of_singleton. intros ->.
           by eapply Hfresh.
        -- apply NoDup_singleton.
      * rewrite lookup_insert_ne by done. apply Hb.
    + intros ch Hin. apply Hc in Hin. lia.
    + intros ch i. destruct (decide (nextChan (store st) = ch)) as [<-|Hne].
      * intros _. lia.
      * rewrite lookup_insert_ne by done. intros Hcl. apply Hd in Hcl. lia.
  - destruct (sweep_loop now (store st)) as (_ & Hw & _ & Hn).
    apply consistent_onStore; [|done|done].
    intros i l. rewrite Hw. destruct (swept _ _ _ _); [done|]. by left.
  - destruct (closures st !! ch) as [id|] eqn:Hcl; [|done].
    destruct Hst as (Ha & Hb & Hc & Hd).
    assert (Hunlink :
      (∀ i l, watchers (unlink id ch (store st)) !! i = Some l →
              ∃ l0, watchers (store st) !! i = Some l0 ∧ NoDup l ∧
                    (∀ x, x ∈ l → x ∈ l0) ∧ ch ∉ l) ∧
      nextChan (unlink id ch (store st)) = nextChan (store st)).
    { unfold unlink.
      assert (Helse : ∀ i l, i ≠ id → watchers (store st) !! i = Some l →
                             ch ∉ l).
      { intros i l Hne Hl Hin. destruct (Ha _ _ _ Hl Hin) as (_ & Hcl' & _).
        pose proof (eq_trans (eq_sym Hcl) Hcl') as [= ->]. done. }
      destruct (watchers (store st) !! id) as [lid|] eqn:Hlid.
      - case_bool_decide as Hin; simpl.
        + split; [|done]. intros i l. destruct (decide (id = i)) as [<-|Hne].
          * rewrite lookup_insert_eq. intros [= <-]. exists lid.
            split; [done|]. split; [by apply removeFirst_NoDup, (Hb id)|].
            split; [apply removeFirst_subset|].
            by apply removeFirst_gone, (Hb id).
          * rewrite lookup_insert_ne by done. intros Hl. exists l.
            split; [done|]. split; [by eapply Hb|]. split; [done|].
            by eapply Helse.
        + split; [|done]. intros i l Hl. exists l.
          split; [done|]. split; [by eapply Hb|]. split; [done|].
          destruct (decide (i = id)) as [->|Hne]; [|by eapply Helse].
          rewrite Hlid in Hl. by injection Hl as <-.
      - split; [|done]. intros i l Hl. exists l.
        split; [done|]. split; [by eapply Hb|]. split; [done|].
        destruct (decide (i = id)) as [->|Hne]; [congruence|].
        by eapply Helse. }
    destruct Hunlink as [Hw Hn].
    unfold unsubscribe. case_bool_decide as Hclosed; simpl;
      unfold consistent; simpl; rewrite Hn; split_and!; try done.
    + intros i l x Hl Hin. destruct (Hw _ _ Hl) as (l0 & Hl0 & _ & Hsub & _).
      by eapply Ha, Hsub.
    + intros i l Hl. by destruct (Hw _ _ Hl) as (_ & _ & ? & _).
    + intros i l x Hl Hin. destruct (Hw _ _ Hl) as (l0 & Hl0 & _ & Hsub & Hgone).
      destruct (Ha _ _ _ Hl0 (Hsub _ Hin)) as (? & ? & ?).
      split; [done|]. split; [done|].
      rewrite elem_of_union, elem_of_singleton. intros [->|?]; done.
    + intros i l Hl. by destruct (Hw _ _ Hl) as (_ & _ & ? & _).
    + intros x. rewrite elem_of_union, elem_of_singleton.
      intros [->|Hin]; [by eapply Hd|by apply Hc].
  - destruct Hst as (Ha & Hb & Hc & Hd). unfold Cleanup.
    destruct (watchers (store st) !! id) as [lid|] eqn:Hlid; simpl.
    + rewrite closeAll_open;
        [|by eapply Hb|intros ch Hin; by eapply Ha]. simpl.
      unfold consistent. simpl. split_and!; try done.
      * intros i l x. destruct (decide (id = i)) as [->|Hne].
        -- by rewrite lookup_delete_eq.
        -- rewrite lookup_delete_ne by done. intros Hl Hin.
           destruct (Ha _ _ _ Hl Hin) as (? & Hcl & ?).
           split; [done|]. split; [done|].
           rewrite elem_of_union, elem_of_list_to_set. intros [Hx|?]; [|done].
           destruct (Ha _ _ _ Hlid Hx) as (_ & Hcl' & _). congruence.
      * intros i l. destruct (decide (id = i)) as [->|Hne].
        -- by rewrite lookup_delete_eq.
        -- rewrite lookup_delete_ne by done. apply Hb.
      * intros x. rewrite elem_of_union, elem_of_list_to_set.
        intros [Hx|?]; [|by apply Hc]. by destruct (Ha _ _ _ Hlid Hx).
    + unfold consistent. simpl. split_and!; try done.
      * intros i l x. destruct (decide (id = i)) as [->|Hne].
        -- by rewrite lookup_delete_eq.
        -- rewrite lookup_delete_ne by done. apply Ha.
      * intros i l. destruct (decide (id = i)) as [->|Hne].
        -- by rewrite lookup_delete_eq.
        -- rewrite lookup_delete_ne by done. apply Hb.
  - apply consistent_onStore; [|by unfold assignFileCount;
                                   destruct (jobs _ !! _)|done].
    intros i l. unfold assignFileCount. destruct (jobs _ !! _); by left.
Qed.

Lemma consistent_run history st : consistent st → consistent (run history st).
Proof.
  revert st. induction history as [|step history IH]; intros st Hst; [done|].
  simpl. by apply IH, consistent_advance.
Qed.

(** X1.  Whatever has happened to a store since [NewStore] (jobs created,
    mutators called, observers subscribed and unsubscribed, jobs cleaned up
    or swept, a file count written by [Hash]), no channel that stands in a
    watcher list is closed: the non-blocking send of [broadcastLocked]
    never meets a closed channel. *)
Theorem broadcast_never_meets_a_closed_channel history :
  watchersOpen (run history NewState).
Proof.
  intros id l ch Hl Hin.
  destruct (consistent_run history NewState consistent_NewState) as (Ha & _).
  by destruct (Ha _ _ _ Hl Hin) as (_ & _ & ?).
Qed.
End Leaving.

Section Closing.
Import Os Jobs Client Observers.
Implicit Types (s : Store) (st : State) (id : string) (ch : chan).

(** X2.  In any state the store can reach, [Cleanup] of a job closes each
    of its subscribers' channels once and does not panic; the job and its
    watcher list are gone, every other job and watcher list and all
    buffers are as before.  A subscriber of the job who then calls its
    [unsubscribe] panics, on [close] of a closed channel. *)
Theorem Cleanup_closes_subscribers history id l :
  watchers (store (run history NewState)) !! id = Some l →
  (Cleanup id (run history NewState)).1 = Done ∧
  jobs (store (Cleanup id (run history NewState)).2) !! id = None ∧
  watchers (store (Cleanup id (run history NewState)).2) !! id = None ∧
  (∀ id', id' ≠ id →
     jobs (store (Cleanup id (run history NewState)).2) !! id'
       = jobs (store (run history NewState)) !! id' ∧
     watchers (store (Cleanup id (run history NewState)).2) !! id'
       = watchers (store (run history NewState)) !! id') ∧
  heap (store (Cleanup id (run history NewState)).2)
    = heap (store (run history NewState)) ∧
  (∀ ch, ch ∈ l →
     ch ∈ closed (Cleanup id (run history NewState)).2 ∧
     (unsubscribe id ch (Cleanup id (run history NewState)).2).1 = Panic).
Proof.
  intros Hl.
  destruct (consistent_run history NewState consistent_NewState)
    as (Ha & Hb & _).
  set (st := run history NewState) in *.
  unfold Cleanup. rewrite Hl. simpl.
  rewrite closeAll_open; [|by eapply Hb|intros ch Hin; by eapply Ha]. simpl.
  split; [done|]. split; [apply lookup_delete_eq|].
  split; [apply lookup_delete_eq|]. split.
  { intros id' Hne. by rewrite !lookup_delete_ne. }
  split; [done|]. intros ch Hin.
  assert (Hcl : ch ∈ list_to_set (C := gset chan) l ∪ closed st).
  { apply elem_of_union. left. by apply elem_of_list_to_set. }
  split; [done|]. unfold unsubscribe. simpl. by rewrite bool_decide_true.
Qed.

(** X3.  The [unsubscribe] closure is good for one call: whatever the
    state, a second call panics. *)
Theorem unsubscribe_twice_panics id ch st :
  (unsubscribe id ch (unsubscribe id ch st).2).1 = Panic.
Proof.
  unfold unsubscribe at 2. case_bool_decide as Hcl; simpl.
  - unfold unsubscribe. simpl. by rewrite bool_decide_true.
  - unfold unsubscribe. simpl. rewrite bool_decide_true; [done|].
    apply elem_of_union. left. by apply elem_of_singleton.
Qed.

Lemma unlinked_frame ch s s' :
  watchers s' = watchers s → unlinked ch s → unlinked ch s'.
Proof. unfold unlinked. by intros ->. Qed.

Lemma buffer_frame ch s s' : heap s' = heap s → buffer ch s' = buffer ch s.
Proof. unfold buffer. by intros ->. Qed.

Lemma broadcast_unlinked ch id s :
  unlinked ch s → buffer ch (broadcastLocked id s) = buffer ch s.
Proof.
  intros Hun. unfold broadcastLocked. destruct (jobs s !! id); [|done].
  destruct (watchers s !! id) as [l|] eqn:Hl; simpl; [|done].
  apply deliver_elsewhere. by eapply Hun.
Qed.

(** A channel that stands in no watcher list is sent nothing by a call,
    and stays out of the lists. *)
Lemma perform_unlinked c ch s :
  unlinked ch s → ch < nextChan s →
  unlinked ch (perform c s) ∧ ch < nextChan (perform c s) ∧
  suffix (buffer ch (perform c s)) (buffer ch s).
Proof.
  intros Hun Hlt.
  assert (Hbc : ∀ i j, let s1 := setJob i j s in
            unlinked ch (broadcastLocked i s1) ∧
            ch < nextChan (broadcastLocked i s1) ∧
            suffix (buffer ch (broadcastLocked i s1)) (buffer ch s)).
  { intros i j s1. destruct (broadcastLocked_frame i s1) as (_ & Hw & Hn).
    split; [by eapply unlinked_frame|]. split; [by rewrite Hn|].
    by rewrite broadcast_unlinked. }
  destruct c as [i status msg d now|i p|i status msg d op now|i o|i fs|i f|i|c];
    simpl.
  - unfold Update. destruct (jobs s !! i); [apply Hbc|done].
  - unfold UpdateProgress. destruct (jobs s !! i); [apply Hbc|done].
  - unfold UpdateWithOperation. destruct (jobs s !! i); [apply Hbc|done].
  - unfold SetOutputDir. by destruct (jobs s !! i).
  - unfold SetFiles. by destruct (jobs s !! i).
  - unfold AddFile. destruct (jobs s !! i); [apply Hbc|done].
  - destruct (Subscribe_shape i s) as (_ & _ & Hw & Hn & _).
    assert (Hne : nextChan s ≠ ch) by lia.
    split; [|split; [lia|]].
    + intros i' l. rewrite Hw. destruct (decide (i = i')) as [->|Hi].
      * rewrite lookup_insert_eq. intros [= <-].
        rewrite not_elem_of_app, not_elem_of_cons.
        split; [|split; [lia|apply not_elem_of_nil]].
        destruct (watchers s !! i') eqn:Hl; simpl; [by eapply Hun|].
        apply not_elem_of_nil.
      * rewrite lookup_insert_ne by done. apply Hun.
    + unfold Jobs.Subscribe. simpl. destruct (jobs s !! i); simpl;
        unfold buffer; simpl; by rewrite !lookup_insert_ne.
  - unfold receive. destruct (buffer c s) as [|v rest] eqn:Hb; simpl; [done|].
    split; [done|]. split; [done|]. unfold buffer at 1. simpl.
    destruct (decide (c = ch)) as [->|Hc].
    + rewrite lookup_insert_eq. simpl. rewrite Hb. by apply suffix_cons_r.
    + by rewrite lookup_insert_ne.
Qed.

Lemma advance_unlinked step ch st :
  consistent st →
  unlinked ch (store st) → ch < nextChan (store st) →
  unlinked ch (store (advance step st)) ∧
  ch < nextChan (store (advance step st)) ∧
  suffix (buffer ch (store (advance step st))) (buffer ch (store st)).
Proof.
  intros Hst Hun Hlt. destruct step as [id|c|now|c|id|id n]; simpl.
  - split; [|done]. intros i l. simpl.
    destruct (decide (id = i)) as [->|Hne].
    + rewrite lookup_insert_eq. intros [= <-]. apply not_elem_of_nil.
    + rewrite lookup_insert_ne by done. apply Hun.
  - assert (Hp := perform_unlinked c ch (store st) Hun Hlt).
    by destruct c.
  - destruct (sweep_loop now (store st)) as (_ & Hw & Hh & Hn).
    split; [|split; [by rewrite Hn|by rewrite (buffer_frame _ _ _ Hh)]].
    intros i l. rewrite Hw. destruct (swept _ _ _ _); [done|]. apply Hun.
  - destruct (closures st !! c) as [id|]; [|done].
    assert (Hu : unlinked ch (unlink id c (store st)) ∧
                 nextChan (unlink id c (store st)) = nextChan (store st) ∧
                 heap (unlink id c (store st)) = heap (store st)).
    { unfold unlink. destruct (watchers (store st) !! id) as [l|] eqn:Hl;
        [|done]. case_bool_decide; [|done]. simpl. split; [|done].
      intros i l'. simpl. destruct (decide (id = i)) as [<-|Hne].
      - rewrite lookup_insert_eq. intros [= <-] Hin.
        apply removeFirst_subset in Hin. by eapply Hun.
      - rewrite lookup_insert_ne by done. apply Hun. }
    destruct Hu as (Hu & Hn & Hh).
    unfold unsubscribe. case_bool_decide; simpl;
      (split; [done|]; split; [by rewrite Hn|];
       by rewrite (buffer_frame _ _ _ Hh)).
  - unfold Cleanup. destruct (closeAll _ _) as [[] cl]; simpl; [|done].
    split; [|done]. intros i l. simpl.
    destruct (decide (id = i)) as [->|Hne].
    + by rewrite lookup_delete_eq.
    + rewrite lookup_delete_ne by done. apply Hun.
  - unfold assignFileCount. by destruct (jobs _ !! _).
Qed.

Lemma run_unlinked steps ch st :
  consistent st →
  unlinked ch (store st) → ch < nextChan (store st) →
  suffix (buffer ch (store (run steps st))) (buffer ch (store st)).
Proof.
  revert st. induction steps as [|step steps IH]; intros st Hst Hun Hlt;
    [done|]. simpl.
  destruct (advance_unlinked step ch st Hst Hun Hlt) as (Hun' & Hlt' & Hsuf).
  etrans; [|exact Hsuf]. apply IH; [by apply consistent_advance|done|done].
Qed.

(** X4.  An observer who unsubscribes is out for good.  In any state the
    store can reach, after the closure of a subscribed channel [ch] of job
    [id] is called: it does not panic, [ch] is closed and stands in no
    watcher list, the other subscribers of [id] keep their places, and
    whatever happens to the store afterwards nothing is ever added to the
    buffer of [ch]: it can only lose what its reader takes out. *)
Theorem unsubscribe_is_final history later id l ch :
  watchers (store (run history NewState)) !! id = Some l →
  ch ∈ l →
  (unsubscribe id ch (run history NewState)).1 = Done ∧
  ch ∈ closed (unsubscribe id ch (run history NewState)).2 ∧
  watchers (store (unsubscribe id ch (run history NewState)).2) !! id
    = Some (removeFirst ch l) ∧
  unlinked ch (store (unsubscribe id ch (run history NewState)).2) ∧
  suffix
    (buffer ch
       (store (run later (unsubscribe id ch (run history NewState)).2)))
    (buffer ch (store (run history NewState))).
Proof.
  intros Hl Hin.
  pose proof (consistent_run history NewState consistent_NewState) as Hst.
  set (st := run history NewState) in *.
  destruct Hst as (Ha & Hb & Hc & Hd).
  destruct (Ha _ _ _ Hl Hin) as (Hlt & Hcl & Hopen).
  assert (Hstep : advance (SUnsubscribe ch) st = (unsubscribe id ch st).2).
  { simpl. by destruct (closures st !! ch) as [i|] eqn:Hcl2;
      pose proof (eq_trans (eq_sym Hcl) Hcl2) as [= <-]. }
  pose proof (consistent_advance (SUnsubscribe ch) st
                (conj Ha (conj Hb (conj Hc Hd)))) as Hst'.
  rewrite Hstep in Hst'.
  assert (Hshape : (unsubscribe id ch st).1 = Done ∧
            store (unsubscribe id ch st).2 = unlink id ch (store st) ∧
            closed (unsubscribe id ch st).2 = {[ch]} ∪ closed st).
  { unfold unsubscribe. by rewrite bool_decide_false. }
  destruct Hshape as (Hdone & Hstore & Hclosed).
  assert (Hw : watchers (unlink id ch (store st)) =
               <[id := removeFirst ch l]> (watchers (store st))).
  { unfold unlink. rewrite Hl. by rewrite bool_decide_true. }
  assert (Hun : unlinked ch (unlink id ch (store st))).
  { intros i l'. rewrite Hw. destruct (decide (id = i)) as [<-|Hne].
    - rewrite lookup_insert_eq. intros [= <-].
      by apply removeFirst_gone, (Hb id).
    - rewrite lookup_insert_ne by done. intros Hl' Hin'.
      destruct (Ha _ _ _ Hl' Hin') as (_ & Hcl' & _).
      pose proof (eq_trans (eq_sym Hcl) Hcl') as [= ->]. done. }
  split; [done|]. split.
  { rewrite Hclosed. apply elem_of_union. left. by apply elem_of_singleton. }
  rewrite Hstore. split; [by rewrite Hw, lookup_insert_eq|].
  split; [done|].
  assert (Hbuf : buffer ch (unlink id ch (store st)) = buffer ch (store st)).
  { apply buffer_frame. unfold unlink. rewrite Hl.
    by rewrite bool_decide_true. }
  rewrite <- Hbuf, <- Hstore.
  apply run_unlinked; [done|by rewrite Hstore|].
  rewrite Hstore. unfold unlink. rewrite Hl. by rewrite bool_decide_true.
Qed.

Lemma trySend_bounded v s c :
  (∀ ch, (length (buffer ch s) ≤ chanCap)%nat) →
  ∀ ch, (length (buffer ch (trySend v s c)) ≤ chanCap)%nat.
Proof.
  intros Hb ch. unfold trySend. case_decide as Hroom; [|apply Hb].
  unfold buffer at 1. simpl. destruct (decide (c = ch)) as [->|Hne].
  - rewrite lookup_insert_eq. simpl. rewrite length_app. simpl. lia.
  - rewrite lookup_insert_ne by done. apply Hb.
Qed.

Lemma broadcast_bounded id s :
  (∀ ch, (length (buffer ch s) ≤ chanCap)%nat) →
  ∀ ch, (length (buffer ch (broadcastLocked id s)) ≤ chanCap)%nat.
Proof.
  intros Hb. unfold broadcastLocked. destruct (jobs s !! id) as [j|]; [|done].
  generalize (default [] (watchers s !! id)). intros l. revert s Hb.
  induction l as [|c l IH]; intros s Hb; simpl; [done|].
  apply IH. by apply trySend_bounded.
Qed.

Lemma perform_bounded c s :
  (∀ ch, (length (buffer ch s) ≤ chanCap)%nat) →
  ∀ ch, (length (buffer ch (perform c s)) ≤ chanCap)%nat.
Proof.
  intros Hb.
  destruct c as [i status msg d now|i p|i status msg d op now|i o|i fs|i f|i|c];
    simpl.
  - unfold Update. destruct (jobs s !! i); [|done]. by apply broadcast_bounded.
  - unfold UpdateProgress. destruct (jobs s !! i); [|done].
    by apply broadcast_bounded.
  - unfold UpdateWithOperation. destruct (jobs s !! i); [|done].
    by apply broadcast_bounded.
  - unfold SetOutputDir. by destruct (jobs s !! i).
  - unfold SetFiles. by destruct (jobs s !! i).
  - unfold AddFile. destruct (jobs s !! i); [|done].
    by apply broadcast_bounded.
  - intros ch. unfold Jobs.Subscribe. simpl.
    destruct (jobs s !! i); simpl; unfold buffer; simpl;
      (destruct (decide (nextChan s = ch)) as [->|Hne];
       [rewrite ?lookup_insert_eq; simpl; unfold chanCap; lia
       |rewrite !lookup_insert_ne by done; apply Hb]).
  - intros ch. unfold receive. destruct (buffer c s) as [|v rest] eqn:Hc;
      simpl; [apply Hb|]. unfold buffer at 1. simpl.
    destruct (decide (c = ch)) as [->|Hne].
    + rewrite lookup_insert_eq. simpl. specialize (Hb ch). rewrite Hc in Hb.
      simpl in Hb. lia.
    + rewrite lookup_insert_ne by done. apply Hb.
Qed.

(** X5.  No channel ever holds more than its ten snapshots, whatever
    has happened to the store since [NewStore]. *)
Theorem buffers_never_exceed_capacity history ch :
  (length (buffer ch (store (run history NewState))) ≤ chanCap)%nat.
Proof.
  assert (Hgen : ∀ st, (∀ c, (length (buffer c (store st)) ≤ chanCap)%nat) →
                   ∀ c, (length (buffer c (store (run history st))) ≤ chanCap)%nat).
  { induction history as [|step history IH]; intros st Hb; [done|].
    simpl. apply IH. destruct step as [id|c|now|c|id|id n]; simpl.
    - done.
    - pose proof (perform_bounded c (store st) Hb). by destruct c.
    - destruct (sweep_loop now (store st)) as (_ & _ & Hh & _).
      intros c. by rewrite (buffer_frame _ _ _ Hh).
    - destruct (closures st !! c) as [id|]; [|done].
      intros c'. unfold unsubscribe.
      assert (Hh : heap (unlink id c (store st)) = heap (store st)).
      { unfold unlink. destruct (watchers (store st) !! id); [|done].
        by case_bool_decide. }
      case_bool_decide; simpl; by rewrite (buffer_frame _ _ _ Hh).
    - unfold Cleanup. by destruct (closeAll _ _) as [[] cl].
    - unfold assignFileCount. by destruct (jobs _ !! _). }
  apply Hgen. intros c. unfold buffer, NewState, NewStore. simpl.
  rewrite lookup_empty. simpl. unfold chanCap. lia.
Qed.
End Closing.

Section StoreInvariants.
Import Os Jobs Client Observers.
Implicit Types (s : Store) (st : State) (id : string) (ch : chan).

Lemma clampPercent_range p : (0 ≤ clampPercent p ≤ 100)%Z.
Proof.
  unfold clampPercent. destruct (Z.ltb_spec p 0); [lia|].
  destruct (Z.ltb_spec 100 p); lia.
Qed.

(** A property of jobs that every mutator keeps is kept by every call. *)
Lemma perform_jobs_invariant (P : Job → Prop) c s :
  (∀ j status message data now,
     P j → P {| Status := status; Message := message; Data := data;
                Progress := Progress j; Operation := Operation j;
                Files := Files j; OutputDir := OutputDir j;
                FileCount := FileCount j;
                CompletedAt := stamp status now j |}) →
  (∀ j status message data operation now,
     P j → P {| Status := status; Message := message; Data := data;
                Progress := Progress j; Operation := operation;
                Files := Files j; OutputDir := OutputDir j;
                FileCount := FileCount j;
                CompletedAt := stamp status now j |}) →
  (∀ j p,
     P j → P {| Status := Status j; Message := Message j; Data := Data j;
                Progress := clampPercent p; Operation := Operation j;
                Files := Files j; OutputDir := OutputDir j;
                FileCount := FileCount j; CompletedAt := CompletedAt j |}) →
  (∀ j outputDir,
     P j → P {| Status := Status j; Message := Message j; Data := Data j;
                Progress := Progress j; Operation := Operation j;
                Files := Files j; OutputDir := outputDir;
                FileCount := FileCount j; CompletedAt := CompletedAt j |}) →
  (∀ j files,
     P j → P {| Status := Status j; Message := Message j; Data := Data j;
                Progress := Progress j; Operation := Operation j;
                Files := files; OutputDir := OutputDir j;
                FileCount := Z.of_nat (length files);
                CompletedAt := CompletedAt j |}) →
  (∀ id j, jobs s !! id = Some j → P j) →
  ∀ id j, jobs (perform c s) !! id = Some j → P j.
Proof.
  intros Hupd Hop Hprog Hdir Hfiles Hs id j.
  assert (Hins : ∀ i j0 j1, jobs s !! i = Some j0 → P j1 →
                   <[i := j1]> (jobs s) !! id = Some j → P j).
  { intros i j0 j1 Hj0 Hj1. destruct (decide (i = id)) as [->|Hne].
    - rewrite lookup_insert_eq. by intros [= <-].
    - rewrite lookup_insert_ne by done. apply Hs. }
  destruct c as [i status msg d now|i p|i status msg d op now|i o|i fs|i f|i|c];
    simpl.
  - unfold Update. destruct (jobs s !! i) as [j0|] eqn:Hi; [|apply Hs].
    rewrite broadcastLocked_jobs. simpl.
    apply (Hins i j0); [done|]. by eapply Hupd, Hs.
  - unfold UpdateProgress. destruct (jobs s !! i) as [j0|] eqn:Hi; [|apply Hs].
    rewrite broadcastLocked_jobs. simpl.
    apply (Hins i j0); [done|]. by eapply Hprog, Hs.
  - unfold UpdateWithOperation.
    destruct (jobs s !! i) as [j0|] eqn:Hi; [|apply Hs].
    rewrite broadcastLocked_jobs. simpl.
    apply (Hins i j0); [done|]. by eapply Hop, Hs.
  - unfold SetOutputDir. destruct (jobs s !! i) as [j0|] eqn:Hi; [|apply Hs].
    simpl. apply (Hins i j0); [done|]. by eapply Hdir, Hs.
  - unfold SetFiles. destruct (jobs s !! i) as [j0|] eqn:Hi; [|apply Hs].
    simpl. apply (Hins i j0); [done|]. by eapply Hfiles, Hs.
  - unfold AddFile. destruct (jobs s !! i) as [j0|] eqn:Hi; [|apply Hs].
    rewrite broadcastLocked_jobs. simpl.
    apply (Hins i j0); [done|]. by eapply Hfiles, Hs.
  - destruct (Subscribe_shape i s) as (_ & -> & _). apply Hs.
  - unfold receive. destruct (buffer c s); apply Hs.
Qed.

(** A property the pending job has and every mutator keeps holds of every
    job of every store the service can reach. *)
Lemma run_jobs_invariant (P : Job → Prop) history :
  P (Create "" NewStore).1 →
  (∀ c s, (∀ id j, jobs s !! id = Some j → P j) →
          ∀ id j, jobs (perform c s) !! id = Some j → P j) →
  (∀ j n,
     P j → P {| Status := Status j; Message := Message j; Data := Data j;
                Progress := Progress j; Operation := Operation j;
                Files := Files j; OutputDir := OutputDir j;
                FileCount := n; CompletedAt := CompletedAt j |}) →
  ∀ id j, jobs (store (run history NewState)) !! id = Some j → P j.
Proof.
  intros Hnew Hcall Hassign.
  assert (Hgen : ∀ st, (∀ id j, jobs (store st) !! id = Some j → P j) →
            ∀ id j, jobs (store (run history st)) !! id = Some j → P j).
  { induction history as [|step history IH]; intros st Hst; [done|].
    simpl. apply IH. destruct step as [i|c|now|c|i|i n]; simpl.
    - intros id j. destruct (decide (i = id)) as [->|Hne].
      + rewrite lookup_insert_eq. by intros [= <-].
      + rewrite lookup_insert_ne by done. apply Hst.
    - pose proof (Hcall c (store st) Hst) as Hc.
      destruct c; exact Hc.
    - intros id j. destruct (sweep_loop now (store st)) as (-> & _).
      destruct (swept _ _ _ _); [done|]. apply Hst.
    - destruct (closures st !! c) as [i|]; [|done].
      assert (Hj : jobs (unlink i c (store st)) = jobs (store st)).
      { unfold unlink. destruct (watchers (store st) !! i); [|done].
        by case_bool_decide. }
      unfold unsubscribe. case_bool_decide; simpl; by rewrite Hj.
    - unfold Cleanup. destruct (closeAll _ _) as [[] cl]; simpl; [|done].
      intros id j. destruct (decide (i = id)) as [->|Hne].
      + by rewrite lookup_delete_eq.
      + rewrite lookup_delete_ne by done. apply Hst.
    - unfold assignFileCount.
      destruct (jobs (store st) !! i) as [j0|] eqn:Hi; [|apply Hst].
      intros id j. simpl. destruct (decide (i = id)) as [->|Hne].
      + rewrite lookup_insert_eq. intros [= <-]. by eapply Hassign, Hst.
      + rewrite lookup_insert_ne by done. apply Hst. }
  apply Hgen. intros id j. unfold NewState, NewStore. simpl.
  by rewrite lookup_empty.
Qed.

(** X6.  The progress of every job of every store the service can reach
    lies between 0 and 100. *)
Theorem progress_stays_within_bounds history id j :
  jobs (store (run history NewState)) !! id = Some j →
  (0 ≤ Progress j ≤ 100)%Z.
Proof.
  apply (run_jobs_invariant (λ j, (0 ≤ Progress j ≤ 100)%Z));
    [simpl; lia| |done].
  intros c s. apply perform_jobs_invariant; simpl; try done.
  intros j0 p _. apply clampPercent_range.
Qed.

(** X7.  A job whose status is success or error carries its completion
    time, in every store the program can reach: the sweep can tell of
    every finished job how long ago it finished. *)
Theorem finished_jobs_carry_a_completion_time history id j :
  jobs (store (run history NewState)) !! id = Some j →
  terminal (Status j) = true → is_Some (CompletedAt j).
Proof.
  assert (Hstamp : ∀ j0 status now,
            (terminal (Status j0) = true → is_Some (CompletedAt j0)) →
            terminal status = true → is_Some (stamp status now j0)).
  { intros j0 status now _ Ht. unfold stamp. rewrite Ht. simpl.
    case_bool_decide as Hc; [done|]. by destruct (CompletedAt j0). }
  apply (run_jobs_invariant
           (λ j, terminal (Status j) = true → is_Some (CompletedAt j)));
    [done| |done].
  intros c s.
  apply (perform_jobs_invariant
           (λ j, terminal (Status j) = true → is_Some (CompletedAt j)));
    simpl; try done.
  - intros j0 status _ _ now. apply Hstamp.
  - intros j0 status _ _ _ now. apply Hstamp.
Qed.

Lemma deliver_full v l s ch :
  length (buffer ch s) = chanCap →
  buffer ch (foldl (trySend v) s l) = buffer ch s.
Proof.
  revert s. induction l as [|c l IH]; intros s Hfull; simpl; [done|].
  assert (Hstep : buffer ch (trySend v s c) = buffer ch s).
  { destruct (decide (c = ch)) as [->|Hne].
    - unfold trySend. rewrite decide_False by lia. done.
    - by apply trySend_buffer_other. }
  rewrite IH; [done|]. by rewrite Hstep.
Qed.

Lemma broadcast_full ch id s :
  length (buffer ch s) = chanCap →
  buffer ch (broadcastLocked id s) = buffer ch s.
Proof.
  intros Hfull. unfold broadcastLocked. destruct (jobs s !! id); [|done].
  by apply deliver_full.
Qed.

(** X8.  An observer whose buffer is full misses a snapshot and holds up
    nobody.  When a call other than a receive on [slow] is made while the
    buffer of the channel [slow] holds its ten snapshots, that buffer is
    left as it is; the job is mutated all the same, and an observer [ch]
    of the job with room in its buffer gets the snapshot of the
    mutation. *)
Theorem full_buffer_drops_the_update c slow ch id j s :
  (slow < nextChan s)%nat →
  registered ch id s →
  jobs s !! id = Some j →
  length (buffer slow s) = chanCap →
  (length (buffer ch s) < chanCap)%nat →
  taken slow c s = [] →
  buffer slow (perform c s) = buffer slow s ∧
  taken ch c s ++ buffer ch (perform c s)
    = buffer ch s ++ shown id c (perform c s) ∧
  ∃ j', jobs (perform c s) !! id = Some j' ∧
        CompletedAt j' = match CompletedAt j with
                         | Some t => Some t
                         | None => terminalAt id c
                         end.
Proof.
  intros Hslow Hreg Hj Hfull Hroom Hnot.
  split; [|split; [by eapply perform_delivery|by apply perform_job]].
  assert (Hbc : ∀ i j1, buffer slow (broadcastLocked i (setJob i j1 s))
                        = buffer slow s).
  { intros i j1. by rewrite broadcast_full. }
  destruct c as [i status msg d now|i p|i status msg d op now|i o|i fs|i f|i|c];
    simpl.
  - unfold Update. by destruct (jobs s !! i).
  - unfold UpdateProgress. by destruct (jobs s !! i).
  - unfold UpdateWithOperation. by destruct (jobs s !! i).
  - unfold SetOutputDir. by destruct (jobs s !! i).
  - unfold SetFiles. by destruct (jobs s !! i).
  - unfold AddFile. by destruct (jobs s !! i).
  - assert (Hne : nextChan s ≠ slow).
    { lia. }
    unfold Jobs.Subscribe. simpl. destruct (jobs s !! i); simpl;
      unfold buffer; simpl; by rewrite ?lookup_insert_ne.
  - simpl in Hnot. unfold receive in *.
    destruct (decide (c = slow)) as [->|Hne].
    + rewrite bool_decide_true in Hnot by done.
      destruct (buffer slow s) eqn:Hb; simpl in *; [done|discriminate].
    + destruct (buffer c s); simpl; [done|].
      unfold buffer at 1. simpl. by rewrite lookup_insert_ne.
Qed.
End StoreInvariants.

Section RegistryTables.
Import Os HashtabFile Env Hashtabs Registry.
Context {lib : GoLib}.
Implicit Types (s : Service) (w : World) (d : DirEntry).
#[local] Arguments loadFn : simpl never.
#[local] Arguments detectFn : simpl never.

Lemma loadFn_fields w acc d :
  dir (loadFn w acc d).2 = dir acc.2 ∧
  lastReloadCheck (loadFn w acc d).2 = lastReloadCheck acc.2.
Proof.
  destruct acc as [ln s]. unfold loadFn. destruct (de_IsDir d); [done|].
  destruct (ln !! _); [done|]. by destruct (load w _).
Qed.

Lemma loadWalk_fields w s :
  dir (loadWalk w s) = dir s ∧
  lastReloadCheck (loadWalk w s) = lastReloadCheck s.
Proof.
  unfold loadWalk. generalize (visited (walkDir w (dir s))) as l.
  intros l. change s with (∅ : gmap string string, s).2 at 2 4.
  generalize (∅ : gmap string string, s) as acc. clear s.
  induction l as [|d l IH]; intros acc; [done|]. simpl.
  destruct (IH (loadFn w acc d)) as [-> ->]. apply loadFn_fields.
Qed.

(** The walk reads of the service it extends the four tables only. *)
Lemma loadFn_tables w ln s s' d :
  tables s = tables s' →
  (loadFn w (ln, s) d).1 = (loadFn w (ln, s') d).1 ∧
  tables (loadFn w (ln, s) d).2 = tables (loadFn w (ln, s') d).2.
Proof.
  intros [= Hh Hp Hv Hm]. unfold loadFn. destruct (de_IsDir d).
  { split; [done|]. unfold tables. simpl. congruence. }
  destruct (ln !! _).
  { split; [done|]. unfold tables. simpl. congruence. }
  destruct (load w _).
  - split; [done|]. unfold tables. simpl. by rewrite Hh, Hp, Hv, Hm.
  - split; [done|]. unfold tables. simpl. congruence.
Qed.

Lemma loadWalk_tables w s s' :
  tables s = tables s' → dir s = dir s' →
  tables (loadWalk w s) = tables (loadWalk w s').
Proof.
  intros Ht Hd. unfold loadWalk. rewrite <- Hd.
  generalize (visited (walkDir w (dir s))) as l. intros l.
  generalize (∅ : gmap string string) as ln. revert s s' Ht Hd.
  induction l as [|d l IH]; intros s s' Ht Hd ln; [done|]. simpl.
  destruct (loadFn_tables w ln s s' d Ht) as [H1 H2].
  destruct (loadFn_fields w (ln, s) d) as [Hd1 _].
  destruct (loadFn_fields w (ln, s') d) as [Hd2 _].
  destruct (loadFn w (ln, s) d) as [ln1 s1].
  destruct (loadFn w (ln, s') d) as [ln2 s2]. simpl in *. subst ln2.
  apply IH; [done|congruence].
Qed.

Lemma sound_tables s s' : tables s = tables s' → sound s → sound s'.
Proof.
  intros [= Hh Hp Hv Hm]. unfold sound, GetHashtabsForVersion.
  by rewrite Hh, Hp, Hv, Hm.
Qed.

Lemma sound_empty s :
  hashtables s = [] → pathByName s = ∅ → byVersion s = ∅ →
  modTimes s = ∅ → sound s.
Proof.
  intros Hh Hp Hv Hm. unfold sound, GetHashtabsForVersion.
  rewrite Hh, Hp, Hv, Hm. split_and!; try done.
  intros p [t Ht]. by rewrite lookup_empty in Ht.
Qed.

Lemma loadFn_sound w ln s d :
  ln = pathByName s → sound s →
  (loadFn w (ln, s) d).1 = pathByName (loadFn w (ln, s) d).2 ∧
  sound (loadFn w (ln, s) d).2.
Proof.
  intros -> (Hidx & Hne & Hlen & Hbase & Hmod). unfold loadFn.
  destruct (de_IsDir d); [done|].
  destruct (pathByName s !! filepath_Base (de_path d)) eqn:Hnew; [done|].
  destruct (load w (de_path d)) as [ht|]; [|done]. simpl.
  split; [done|]. unfold sound, GetHashtabsForVersion in *. simpl.
  split_and!.
  - intros v. rewrite filter_app, <- Hidx.
    destruct (decide (OSVersion ht = v)) as [Hv|Hv].
    + rewrite Hv at 1. rewrite lookup_insert_eq. simpl. rewrite Hv.
      rewrite filter_cons_True by done. by rewrite filter_nil.
    + rewrite lookup_insert_ne by done.
      rewrite filter_cons_False by done. by rewrite filter_nil, app_nil_r.
  - intros v. destruct (decide (OSVersion ht = v)) as [Hv|Hv].
    + rewrite Hv at 1. rewrite lookup_insert_eq. intros [= Hnil].
      by destruct (default [] _).
    + rewrite lookup_insert_ne by done. apply Hne.
  - rewrite length_app, map_size_insert_None by done. simpl. lia.
  - intros f p. destruct (decide (filepath_Base (de_path d) = f)) as [<-|Hf].
    + rewrite lookup_insert_eq. by intros [= <-].
    + rewrite lookup_insert_ne by done. apply Hbase.
  - assert (Hold : ∀ p, is_Some (modTimes s !! p) →
               <[filepath_Base (de_path d) := de_path d]> (pathByName s)
                 !! filepath_Base p = Some p).
    { intros p Hp. specialize (Hmod p Hp).
      rewrite lookup_insert_ne; [done|]. intros Heq.
      rewrite <- Heq in Hmod. congruence. }
    destruct (de_Info d) as [t|]; [|done].
    intros p. destruct (decide (de_path d = p)) as [<-|Hp].
    + intros _. by rewrite lookup_insert_eq.
    + rewrite lookup_insert_ne by done. apply Hold.
Qed.

Lemma loadWalk_sound w s :
  pathByName s = ∅ → sound s → sound (loadWalk w s).
Proof.
  intros Hp Hs. unfold loadWalk.
  generalize (visited (walkDir w (dir s))) as l. intros l.
  assert (Hln : (∅ : gmap string string) = pathByName s) by done.
  revert Hln Hs. generalize (∅ : gmap string string) as ln. clear Hp.
  revert s. induction l as [|d l IH]; intros s ln Hln Hs; [done|]. simpl.
  destruct (loadFn_sound w ln s d Hln Hs) as [H1 H2].
  destruct (loadFn w (ln, s) d) as [ln1 s1]. by apply IH.
Qed.

Lemma CheckAndReload_sound env (m : Machine Service) :
  sound (self m) → sound (self (CheckAndReload env m).2).
Proof.
  intros Hs. unfold CheckAndReload. run_monad.
  destruct (_ <? _)%Z; [done|]. simpl.
  destruct (foldl _ _ _) as [currentFiles needsReload]. simpl.
  destruct (failure _); [done|].
  destruct (negb _); [done|]. simpl.
  assert (sound (loadWalk (env (S (S (S (tick m)))))
                   (resetTables (setLastReloadCheck
                                   (now (env (S (tick m)))) (self m)))))
    by (apply loadWalk_sound; [done|by apply sound_empty]).
  by destruct (failure _).
Qed.

Lemma NewService_sound env (m : Machine Service) :
  pathByName (self m) = ∅ → sound (self m) →
  sound (self (NewService env m).2).
Proof.
  intros Hp Hs. unfold NewService, loadHashtables. run_monad.
  destruct (stat _ _); simpl.
  - assert (sound (loadWalk (env (S (tick m))) (self m)))
      by by apply loadWalk_sound.
    by destruct (failure _).
  - by destruct (mkdirAll _ _).
  - assert (sound (loadWalk (env (S (tick m))) (self m)))
      by by apply loadWalk_sound.
    by destruct (failure _).
Qed.

Lemma polls_sound env n (m : Machine Service) :
  sound (self m) → sound (self (polls n env m).2).
Proof.
  revert m. induction n as [|n IH]; intros m Hs; [done|].
  simpl. unfold bind.
  pose proof (CheckAndReload_sound env m Hs) as H1.
  destruct (CheckAndReload env m) as [r m1]. by apply IH.
Qed.

Lemma serving_sound env dir start n : sound (serving env dir start n).
Proof.
  unfold serving, bind.
  pose proof (NewService_sound env (mkMachine start [] (emptyService dir))
                eq_refl
                (sound_empty (emptyService dir)
                   eq_refl eq_refl eq_refl eq_refl))
    as H1.
  destruct (NewService env _) as [r m1]. by apply polls_sound.
Qed.

(** X9.  The two indexes of the registry agree, from the start of the
    service through every later check: the artifacts of a version are
    the loaded artifacts with that version, in load order, and a version
    is a key of the index exactly when some loaded artifact has it. *)
Theorem registry_index_is_the_list_by_version env dir start n v :
  let s := serving env dir start n in
  GetHashtabsForVersion v s
    = filter (λ ht, OSVersion ht = v) (GetHashtables s) ∧
  (is_Some (byVersion s !! v) ↔
   ∃ ht, ht ∈ GetHashtables s ∧ OSVersion ht = v).
Proof.
  intros s. destruct (serving_sound env dir start n) as (Hidx & Hne & _).
  fold s in Hidx, Hne. split; [apply Hidx|].
  specialize (Hidx v). unfold GetHashtabsForVersion, GetHashtables in *.
  split.
  - intros [l Hl]. rewrite Hl in Hidx. simpl in Hidx.
    destruct l as [|ht l]; [by destruct (Hne v)|].
    exists ht.
    assert (ht ∈ filter (λ ht, OSVersion ht = v) (hashtables s)) as Hf
      by (rewrite <- Hidx; left).
    apply list_elem_of_filter in Hf. tauto.
  - intros (ht & Hin & Hv).
    destruct (byVersion s !! v) as [l|] eqn:Hl; [done|]. simpl in Hidx.
    assert (ht ∈ filter (λ ht, OSVersion ht = v) (hashtables s))
      as Hf by by apply list_elem_of_filter.
    rewrite <- Hidx in Hf. by apply elem_of_nil in Hf.
Qed.

(** X10.  The registry holds one artifact per file name: the name table
    has as many entries as there are loaded artifacts, each entry maps
    the base name of its path to that path, and every path with a
    recorded modification time is the path of a loaded file. *)
Theorem registry_holds_one_artifact_per_file_name env dir start n :
  let s := serving env dir start n in
  length (GetHashtables s) = size (pathByName s) ∧
  (∀ f p, pathByName s !! f = Some p → filepath_Base p = f) ∧
  (∀ p, is_Some (GetModTimes s !! p) →
        pathByName s !! filepath_Base p = Some p).
Proof.
  intros s. by destruct (serving_sound env dir start n) as (_ & _ & ? & ? & ?).
Qed.

End RegistryTables.

Section ChangeDetection.
Import Os HashtabFile Env Hashtabs Registry.
Context {lib : GoLib}.
Implicit Types (s : Service) (w : World) (d : DirEntry).
#[local] Arguments loadFn : simpl never.
#[local] Arguments detectFn : simpl never.

Lemma statted_cons d l :
  statted (d :: l) =
    match (if de_IsDir d then None
           else (λ t, (de_path d, t)) <$> de_Info d) with
    | Some pt => pt :: statted l
    | None => statted l
    end.
Proof. done. Qed.

Lemma detect_fold known entries cur0 b0 :
  let r := foldl (detectFn known) (cur0, b0) entries in
  (r.2 = true ↔
   b0 = true ∨ ∃ p t, (p, t) ∈ statted entries ∧ known !! p ≠ Some t) ∧
  (∀ p, is_Some (r.1 !! p) ↔
        is_Some (cur0 !! p) ∨ p ∈ (statted entries).*1).
Proof.
  revert cur0 b0. induction entries as [|d l IH]; intros cur0 b0.
  { simpl. split.
    - split; [by left|]. intros [?|(p & t & Hin & _)]; [done|].
      by apply elem_of_nil in Hin.
    - intros p. split; [by left|]. intros [?|Hin]; [done|].
      by apply elem_of_nil in Hin. }
  rewrite statted_cons. cbn [foldl]. unfold detectFn at 2 4.
  destruct (de_IsDir d); [apply IH|].
  destruct (de_Info d) as [t|]; simpl; [|apply IH].
  destruct (IH (<[de_path d := t]> cur0)
               (match known !! de_path d with
                | Some lastMod =>
                    if time_Equal lastMod t then b0 else true
                | None => true
                end)) as [Hb Hc].
  split.
  - rewrite Hb. clear Hb Hc IH.
    assert (Hhead : match known !! de_path d with
                    | Some lastMod =>
                        if time_Equal lastMod t then b0 else true
                    | None => true
                    end = true ↔
                    b0 = true ∨ known !! de_path d ≠ Some t).
    { destruct (known !! de_path d) as [lastMod|]; [|by split; [right|]].
      unfold time_Equal. destruct (Z.eqb_spec lastMod t) as [->|Hne].
      - split; [by left|]. by intros [?|?].
      - split; [|done]. intros _. right. congruence. }
    rewrite Hhead. split.
    + intros [[?|Hk]|(p & t' & Hin & Hk)].
      * by left.
      * right. exists (de_path d), t. split; [left|done].
      * right. exists p, t'. split; [by right|done].
    + intros [?|(p & t' & Hin & Hk)]; [by left; left|].
      apply elem_of_cons in Hin as [[= -> ->]|Hin].
      * left. by right.
      * right. by exists p, t'.
  - intros p. rewrite Hc. simpl. rewrite elem_of_cons.
    destruct (decide (de_path d = p)) as [<-|Hne].
    + rewrite lookup_insert_eq. split; [by intros; right; left|].
      intros _. by left.
    + rewrite lookup_insert_ne by done. split.
      * intros [?|?]; [by left|by right; right].
      * intros [?|[?|?]]; [by left|done|by right].
Qed.

Lemma someRemoved_spec (known currentFiles : gmap string Time) :
  someRemoved known currentFiles = true ↔
  ∃ p, is_Some (known !! p) ∧ ¬ is_Some (currentFiles !! p).
Proof.
  unfold someRemoved. rewrite negb_true_iff, bool_decide_eq_false.
  rewrite map_not_Forall by (intros; apply _). split.
  - intros (p & t & Hp & Hn). by exists p.
  - intros (p & [t Hp] & Hn). by exists p, t.
Qed.

(** The outcome of the two detection steps is [changedSince]. *)
Lemma detection_spec known entries :
  let r := foldl (detectFn known) (∅, false) entries in
  r.2 || someRemoved known r.1 = true ↔ changedSince known entries.
Proof.
  intros r. destruct (detect_fold known entries ∅ false) as [Hb Hc].
  fold r in Hb, Hc. rewrite orb_true_iff, Hb, someRemoved_spec.
  unfold changedSince. split.
  - intros [[?|?]|(p & Hk & Hn)]; [done|by left|]. right. exists p.
    split; [done|]. intros Hin. apply Hn, Hc. by right.
  - intros [?|(p & Hk & Hn)]; [by left; right|]. right. exists p.
    split; [done|]. intros [[t Ht]|?]%Hc; [|done].
    by rewrite lookup_empty in Ht.
Qed.

(** The branches of [CheckAndReload]. *)
Lemma CheckAndReload_outcome env (m : Machine Service) :
  let s := self m in
  let out := CheckAndReload env m in
  let walk := walkDir (env (S (S (tick m)))) (dir s) in
  let w2 := env (S (S (S (tick m)))) in
  if (time_Sub (now (env (tick m))) (lastReloadCheck s) <? 5 * Second)%Z
  then out = ((false, None), mkMachine (S (tick m)) (trace m) s)
  else
    lastReloadCheck (self out.2) = now (env (S (tick m))) ∧
    dir (self out.2) = dir s ∧
    match failure walk with
    | Some e =>
        out.1 = (false, Some ("failed to walk hashtable directory: " +:+ e))
        ∧ tables (self out.2) = tables s
    | None =>
        (changedSince (modTimes s) (visited walk) →
         out.1 = match failure (walkDir w2 (dir s)) with
                 | Some e =>
                     (false, Some ("failed to reload hashtables: " +:+ e))
                 | None => (true, None)
                 end ∧
         tables (self out.2) = tables (loadWalk w2 (emptyService (dir s))))
        ∧
        (¬ changedSince (modTimes s) (visited walk) →
         out.1 = (false, None) ∧ tables (self out.2) = tables s)
    end.
Proof.
  intros s out walk w2. subst out. unfold CheckAndReload. run_monad.
  fold s. destruct (_ <? _)%Z; [done|]. simpl. fold walk.
  pose proof (detection_spec (modTimes s) (visited walk)) as Hdet.
  simpl in Hdet.
  destruct (foldl _ _ _) as [currentFiles needsReload]. simpl in *.
  destruct (failure walk); [done|].
  destruct (needsReload || someRemoved (modTimes s) currentFiles) eqn:Hch;
    simpl.
  - fold w2.
    set (s1 := resetTables (setLastReloadCheck (now (env (S (tick m)))) s)).
    destruct (loadWalk_fields w2 s1) as [Hdir Hlast].
    assert (Ht : tables (loadWalk w2 s1)
                 = tables (loadWalk w2 (emptyService (dir s))))
      by by apply loadWalk_tables.
    change (dir s1) with (dir s) in *.
    assert (Hyes : changedSince (modTimes s) (visited walk))
      by by apply Hdet.
    destruct (failure (walkDir w2 (dir s))); simpl;
      (split; [by rewrite Hlast|]; split; [done|]; split;
       [by intros _|by intros Hn]).
  - split_and!; [done|done| |done].
    intros Hc. apply Hdet in Hc. congruence.
Qed.

(** X11.  A check that is due and whose walk succeeds reloads exactly
    when the directory differs from the recorded modification times:
    when some regular file whose [Info] can be read has a time that is
    not the recorded one, or some recorded path is not among those
    files.  A reload leaves the tables a start of the service on the
    same directory would build, whatever they held before. *)
Theorem CheckAndReload_reloads_exactly_on_change env (m : Machine Service) :
  let s := self m in
  let out := CheckAndReload env m in
  let walk := walkDir (env (S (S (tick m)))) (dir s) in
  let w2 := env (S (S (S (tick m)))) in
  (5 * Second ≤ time_Sub (now (env (tick m))) (lastReloadCheck s))%Z →
  failure walk = None →
  (changedSince (modTimes s) (visited walk) →
   out.1 = match failure (walkDir w2 (dir s)) with
           | Some e => (false, Some ("failed to reload hashtables: " +:+ e))
           | None => (true, None)
           end ∧
   tables (self out.2) = tables (loadWalk w2 (emptyService (dir s)))) ∧
  (¬ changedSince (modTimes s) (visited walk) →
   out.1 = (false, None) ∧ tables (self out.2) = tables s).
Proof.
  intros s out walk w2 Hdue Hok.
  pose proof (CheckAndReload_outcome env m) as H. simpl in H.
  destruct (Z.ltb_spec (time_Sub (now (env (tick m)))
                          (lastReloadCheck (self m)))
              (5 * Second)) as [|_]; [subst s; lia|].
  destruct H as (_ & _ & H). fold s walk in H. by rewrite Hok in H.
Qed.

(** X12.  Whatever the outcome of a check that is due (no change, a
    reload, an error of either walk), the next check within five seconds
    of the time it recorded does nothing: no walk, no reload, the
    service as it was. *)
Theorem check_within_five_seconds_does_nothing env (m : Machine Service) :
  let m1 := (CheckAndReload env m).2 in
  (5 * Second ≤ time_Sub (now (env (tick m)))
                  (lastReloadCheck (self m)))%Z →
  (time_Sub (now (env (tick m1))) (now (env (S (tick m))))
     < 5 * Second)%Z →
  CheckAndReload env m1
    = ((false, None), mkMachine (S (tick m1)) (trace m1) (self m1)).
Proof.
  intros m1 Hdue Hsoon.
  pose proof (CheckAndReload_outcome env m) as H. simpl in H.
  destruct (Z.ltb_spec (time_Sub (now (env (tick m)))
                          (lastReloadCheck (self m)))
              (5 * Second)) as [|_]; [lia|].
  destruct H as (Hlast & _). fold m1 in Hlast.
  pose proof (CheckAndReload_outcome env m1) as H1. simpl in H1.
  rewrite Hlast in H1.
  by destruct (Z.ltb_spec (time_Sub (now (env (tick m1)))
                             (now (env (S (tick m)))))
                 (5 * Second)) as [_|]; [|lia].
Qed.

(** The names under which the regular files of a walk are loaded. *)
Lemma loaded_times w entries s0 :
  modTimes s0 = ∅ →
  (∀ e, e ∈ entries → de_IsDir e = false →
        is_Some (load w (de_path e)) ∧ is_Some (de_Info e)) →
  NoDup (map (λ e, filepath_Base (de_path e))
             (filter (λ e, de_IsDir e = false) entries)) →
  let r := foldl (loadFn w) (∅, s0) entries in
  (∀ p t, (p, t) ∈ statted entries →
          modTimes r.2 !! p = Some t ∧ is_Some (r.1 !! filepath_Base p)) ∧
  (∀ f, is_Some (r.1 !! f) →
        f ∈ map (λ e, filepath_Base (de_path e))
                (filter (λ e, de_IsDir e = false) entries)) ∧
  (∀ p, is_Some (modTimes r.2 !! p) → p ∈ (statted entries).*1).
Proof.
  intros Hm0. induction entries as [|d pre IH] using rev_ind;
    intros Hfiles Hnames r.
  { subst r. simpl. split_and!.
    - intros p t Hin. by apply elem_of_nil in Hin.
    - intros f [x Hx]. by rewrite lookup_empty in Hx.
    - intros p [x Hx]. by rewrite Hm0, lookup_empty in Hx. }
  rewrite filter_app, map_app in Hnames.
  apply NoDup_app in Hnames as (Hnd & Hfresh & _).
  destruct IH as (Hrec & Hkeys & Hdom).
  { intros e He. apply Hfiles, elem_of_app. by left. }
  { done. }
  subst r. rewrite foldl_app. simpl.
  unfold statted in *. rewrite omap_app, filter_app, map_app, fmap_app.
  simpl. destruct (foldl (loadFn w) (∅, s0) pre) as [ln s]. simpl in *.
  unfold loadFn.
  destruct (de_IsDir d) eqn:Hdir.
  { rewrite filter_cons_False by (by rewrite Hdir). rewrite filter_nil.
    simpl. rewrite !app_nil_r. done. }
  rewrite filter_cons_True, filter_nil by done. simpl.
  destruct (Hfiles d) as [[ht Hload] [t Hinfo]];
    [apply elem_of_app; right; left|done|].
  assert (Hnew : ln !! filepath_Base (de_path d) = None).
  { destruct (ln !! filepath_Base (de_path d)) eqn:Hl; [|done].
    exfalso. eapply Hfresh; [apply Hkeys; by rewrite Hl|].
    rewrite filter_cons_True by done. left. }
  rewrite Hnew, Hload, Hinfo. simpl. split_and!.
  - intros p t' [Hin|Hin]%elem_of_app.
    + destruct (Hrec p t' Hin) as [Hp Hk].
      assert (filepath_Base (de_path d) ≠ filepath_Base p)
        by (intros Heq; rewrite Heq in Hnew; rewrite Hnew in Hk;
            by destruct Hk).
      rewrite !lookup_insert_ne by congruence. done.
    + apply list_elem_of_singleton in Hin as [= -> ->].
      by rewrite !lookup_insert_eq.
  - intros f. rewrite elem_of_app, list_elem_of_singleton.
    destruct (decide (filepath_Base (de_path d) = f)) as [<-|Hne];
      [by right|].
    rewrite lookup_insert_ne by done. intros Hf. left. by apply Hkeys.
  - intros p. rewrite elem_of_app, list_elem_of_singleton.
    destruct (decide (de_path d = p)) as [<-|Hne]; [by right|].
    rewrite lookup_insert_ne by done. intros Hp. left. by apply Hdom.
Qed.

(** Only paths the loader could parse get a recorded time. *)
Lemma recorded_paths_are_loaded w entries acc :
  let r := foldl (loadFn w) acc entries in
  ∀ p, is_Some (modTimes r.2 !! p) →
       is_Some (modTimes acc.2 !! p) ∨ is_Some (load w p).
Proof.
  revert acc. induction entries as [|d l IH]; intros acc r p; [by left|].
  subst r. simpl. intros Hp. apply IH in Hp as [Hp|?]; [|by right].
  destruct acc as [ln s]. unfold loadFn in Hp.
  destruct (de_IsDir d); [by left|].
  destruct (ln !! _); [by left|].
  destruct (load w (de_path d)) eqn:Hload; [|by left]. simpl in Hp.
  destruct (de_Info d); [|by left].
  destruct (decide (de_path d = p)) as [<-|Hne].
  - right. by rewrite Hload.
  - rewrite lookup_insert_ne in Hp by done. by left.
Qed.

(** X13.  A directory in which every regular file was loaded is not
    reloaded while it stays as it is.  When the recorded times are those
    of a load in which every regular file could be parsed and had
    readable [Info], and base names did not repeat, a check whose walk
    meets the same entries reports no reload and keeps the tables. *)
Theorem unchanged_directory_is_not_reloaded env (m : Machine Service) w0 :
  let s := self m in
  let entries := visited (walkDir w0 (dir s)) in
  let out := CheckAndReload env m in
  modTimes s = modTimes (loadWalk w0 (emptyService (dir s))) →
  (∀ e, e ∈ entries → de_IsDir e = false →
        is_Some (load w0 (de_path e)) ∧ is_Some (de_Info e)) →
  NoDup (map (λ e, filepath_Base (de_path e))
             (filter (λ e, de_IsDir e = false) entries)) →
  visited (walkDir (env (S (S (tick m)))) (dir s)) = entries →
  out.1.1 = false ∧ tables (self out.2) = tables s.
Proof.
  intros s entries out Hm Hfiles Hnames Hsame.
  pose proof (CheckAndReload_outcome env m) as H. simpl in H.
  fold s out in H. destruct (_ <? _)%Z; [by rewrite H|].
  destruct H as (_ & _ & H). rewrite Hsame in H.
  destruct (failure _); [by destruct H as [-> ?]|].
  destruct H as [_ H]. destruct H as [-> ?]; [|done].
  destruct (loaded_times w0 entries (emptyService (dir s)) eq_refl
              Hfiles Hnames) as (Hrec & _ & Hdom).
  rewrite Hm. unfold loadWalk. simpl. fold entries.
  intros [(p & t & Hin & Hk)|(p & Hk & Hout)].
  - by destruct (Hrec p t Hin).
  - by apply Hout, Hdom.
Qed.

(** X14.  A file the loader cannot parse makes every check that is due
    reload.  When the recorded times are those of a load, and the walk of
    a later check meets a regular file with readable [Info] that this
    load could not parse, the check rebuilds the tables from its second
    walk. *)
Theorem unparsable_file_is_a_change_at_every_check
    env (m : Machine Service) w0 p t :
  let s := self m in
  let out := CheckAndReload env m in
  let walk := walkDir (env (S (S (tick m)))) (dir s) in
  let w2 := env (S (S (S (tick m)))) in
  modTimes s = modTimes (loadWalk w0 (emptyService (dir s))) →
  load w0 p = None →
  (p, t) ∈ statted (visited walk) →
  (5 * Second ≤ time_Sub (now (env (tick m))) (lastReloadCheck s))%Z →
  failure walk = None →
  out.1 = match failure (walkDir w2 (dir s)) with
          | Some e => (false, Some ("failed to reload hashtables: " +:+ e))
          | None => (true, None)
          end ∧
  tables (self out.2) = tables (loadWalk w2 (emptyService (dir s))).
Proof.
  intros s out walk w2 Hm Hload Hin Hdue Hok.
  pose proof (CheckAndReload_outcome env m) as H. simpl in H.
  destruct (Z.ltb_spec (time_Sub (now (env (tick m)))
                          (lastReloadCheck (self m)))
              (5 * Second)) as [|_]; [subst s; lia|].
  destruct H as (_ & _ & H). fold s walk in H. rewrite Hok in H.
  apply H. left. exists p, t. split; [done|]. rewrite Hm. intros Hk.
  destruct (recorded_paths_are_loaded w0
              (visited (walkDir w0 (dir s)))
              (∅, emptyService (dir s)) p) as [[x Hx]|[x Hx]].
  - unfold loadWalk in Hk. simpl in Hk. by rewrite Hk.
  - done.
  - congruence.
Qed.

End ChangeDetection.

Section Versions.
Import Os HashtabFile Env Hashtabs Registry.
Implicit Types (s : Service) (vi : VersionInfo).

Lemma notGreater_total : Total notGreater.
Proof. intros a b. apply String.leb_total. Qed.

Lemma notGreater_trans : Transitive notGreater.
Proof.
  intros a b c. unfold notGreater, String.leb.
  destruct (String.compare a b) eqn:Hab; [| |done].
  - apply String.compare_eq_iff in Hab as ->. done.
  - destruct (String.compare b c) eqn:Hbc; [| |done].
    + apply String.compare_eq_iff in Hbc as ->. by rewrite Hab.
    + apply OrderedTypeEx.String_as_OT.cmp_lt in Hab, Hbc.
      pose proof (OrderedTypeEx.String_as_OT.lt_trans _ _ _ Hab Hbc) as Hac.
      apply OrderedTypeEx.String_as_OT.cmp_lt in Hac.
      unfold OrderedTypeEx.String_as_OT.cmp in Hac. by rewrite Hac.
Qed.

Lemma notGreater_antisym : AntiSymm eq notGreater.
Proof. intros a b. apply String.leb_antisym. Qed.

Lemma notGreater_strict a b :
  notGreater a b → a ≠ b → String.ltb a b = true.
Proof.
  unfold notGreater, String.leb, String.ltb.
  destruct (String.compare a b) eqn:Hab; [|done|done].
  apply String.compare_eq_iff in Hab. done.
Qed.

Lemma notAfter_total : Total notAfter.
Proof. intros a b. apply notGreater_total. Qed.

Lemma notAfter_trans : Transitive notAfter.
Proof. intros a b c Hab Hbc. by eapply notGreater_trans. Qed.

Lemma entries_versions s :
  map Version (map (λ kv, versionInfo kv.1 kv.2)
                 (map_to_list (byVersion s)))
    = (map_to_list (byVersion s)).*1.
Proof. rewrite map_map. done. Qed.

Lemma GetVersions_entries s :
  GetVersions s ≡ₚ
    map (λ kv, versionInfo kv.1 kv.2) (map_to_list (byVersion s)).
Proof. apply merge_sort_Permutation. Qed.

Lemma GetVersions_NoDup s : NoDup (map Version (GetVersions s)).
Proof.
  rewrite GetVersions_entries, entries_versions.
  apply NoDup_fst_map_to_list.
Qed.

Lemma strictly_sorted (l : list VersionInfo) :
  StronglySorted notAfter l → NoDup (map Version l) →
  StronglySorted (λ a b, less a b = true) l.
Proof.
  induction 1 as [|a l Hs IH Hall]; intros Hnd; [constructor|].
  apply NoDup_cons in Hnd as [Hnot Hnd]. constructor; [by apply IH|].
  apply Forall_forall. intros b Hb. unfold less.
  apply notGreater_strict.
  - rewrite Forall_forall in Hall. by apply Hall.
  - intros Heq. apply Hnot. rewrite <- Heq.
    apply list_elem_of_fmap. by exists b.
Qed.

Lemma GetVersions_elem s vi :
  vi ∈ GetVersions s ↔
  ∃ hts, byVersion s !! Version vi = Some hts ∧
         vi = versionInfo (Version vi) hts.
Proof.
  rewrite GetVersions_entries, list_elem_of_fmap. split.
  - intros ([v hts] & -> & Hin). apply elem_of_map_to_list in Hin.
    by exists hts.
  - intros (hts & Hl & Hvi). exists (Version vi, hts).
    split; [done|]. by apply elem_of_map_to_list.
Qed.

Lemma GetVersions_keys s v :
  v ∈ map Version (GetVersions s) ↔ is_Some (byVersion s !! v).
Proof.
  rewrite GetVersions_entries, entries_versions.
  rewrite list_elem_of_fmap. split.
  - intros ([v' hts] & -> & Hin). apply elem_of_map_to_list in Hin.
    by exists hts.
  - intros [hts Hl]. exists (v, hts). split; [done|].
    by apply elem_of_map_to_list.
Qed.

Lemma GetVersions_devices s vi :
  vi ∈ GetVersions s →
  Devices vi ≡ₚ map Device (GetHashtabsForVersion (Version vi) s) ∧
  StronglySorted notGreater (Devices vi) ∧
  DeviceCount vi
    = Z.of_nat (length (GetHashtabsForVersion (Version vi) s)).
Proof.
  intros (hts & Hl & ->)%GetVersions_elem. simpl in *.
  unfold GetHashtabsForVersion. rewrite Hl. simpl.
  unfold sort_Strings. split_and!.
  - apply merge_sort_Permutation.
  - apply StronglySorted_merge_sort;
      [apply notGreater_trans|apply notGreater_total].
  - by rewrite merge_sort_Permutation, length_map.
Qed.

(** X15.  [GetVersions] lists the keys of the version index, each once
    and in strictly descending order; the devices of an entry are the
    devices of the artifacts indexed under its version, in ascending
    order, and its count is their number. *)
Theorem GetVersions_lists_versions_in_descending_order s :
  let vs := GetVersions s in
  StronglySorted (λ a b, less a b = true) vs ∧
  (∀ v, v ∈ map Version vs ↔ is_Some (byVersion s !! v)) ∧
  (∀ vi, vi ∈ vs →
     Devices vi ≡ₚ map Device (GetHashtabsForVersion (Version vi) s) ∧
     StronglySorted notGreater (Devices vi) ∧
     DeviceCount vi
       = Z.of_nat (length (GetHashtabsForVersion (Version vi) s))).
Proof.
  intros vs. split_and!.
  - apply strictly_sorted; [|apply GetVersions_NoDup].
    apply StronglySorted_merge_sort;
      [apply notAfter_trans|apply notAfter_total].
  - apply GetVersions_keys.
  - apply GetVersions_devices.
Qed.

Lemma same_keys_same_list {A B} (f : A → B) (l1 l2 : list A) :
  l1 ≡ₚ l2 → NoDup (map f l1) → map f l1 = map f l2 → l1 = l2.
Proof.
  revert l2. induction l1 as [|a l1 IH]; intros l2 Hp Hnd Hm.
  { by destruct l2. }
  destruct l2 as [|b l2]; [done|]. simpl in Hm.
  injection Hm as Hab Hm. cbn [map] in Hnd.
  apply NoDup_cons in Hnd as [Hnot Hnd].
  assert (a = b) as <-.
  { assert (a ∈ b :: l2) as [->|Hin]%elem_of_cons
      by (rewrite <- Hp; left); [done|].
    exfalso. apply Hnot. rewrite Hm. apply list_elem_of_fmap. by exists a. }
  f_equal. apply IH; [|done|done]. by eapply Permutation_cons_inv.
Qed.

(** X16.  The result of [GetVersions] does not depend on the order in
    which the map is ranged over, nor on how [sort.Slice] sorts: every
    arrangement of the entries in which no element is [less] than one
    before it is the list [GetVersions] gives. *)
Theorem GetVersions_is_the_only_sorted_arrangement s l :
  l ≡ₚ map (λ kv, versionInfo kv.1 kv.2) (map_to_list (byVersion s)) →
  StronglySorted notAfter l →
  l = GetVersions s.
Proof.
  intros Hp Hs. apply (same_keys_same_list Version).
  - by rewrite GetVersions_entries.
  - rewrite Hp, entries_versions. apply NoDup_fst_map_to_list.
  - assert (Hanti : AntiSymm eq (flip notGreater))
      by (intros a b Hab Hba; by apply notGreater_antisym).
    apply (StronglySorted_unique (flip notGreater)).
    + eapply (StronglySorted_fmap Version notAfter); [|done]. done.
    + eapply (StronglySorted_fmap Version notAfter); [done|].
      apply StronglySorted_merge_sort;
        [apply notAfter_trans|apply notAfter_total].
    + by rewrite Hp, GetVersions_entries.
Qed.

Section WithGoLib.
Context {lib : GoLib}.

(** X17.  Over the life of the service the versions listed are those
    of the loaded artifacts, and every entry counts at least one
    device: the devices of the loaded artifacts of that version. *)
Theorem GetVersions_lists_the_loaded_versions env dir start n :
  let s := serving env dir start n in
  (∀ v, v ∈ map Version (GetVersions s) ↔
        ∃ ht, ht ∈ GetHashtables s ∧ OSVersion ht = v) ∧
  (∀ vi, vi ∈ GetVersions s →
     (1 ≤ DeviceCount vi)%Z ∧
     Devices vi ≡ₚ
       map Device (filter (λ ht, OSVersion ht = Version vi)
                     (GetHashtables s))).
Proof.
  intros s. destruct (serving_sound env dir start n) as (Hidx & Hne & _).
  fold s in Hidx, Hne.
  split.
  - intros v. rewrite GetVersions_keys. specialize (Hidx v).
    unfold GetHashtabsForVersion, GetHashtables in *. split.
    + intros [l Hl]. rewrite Hl in Hidx. simpl in Hidx.
      destruct l as [|ht l]; [by destruct (Hne v)|]. exists ht.
      assert (ht ∈ filter (λ ht, OSVersion ht = v) (hashtables s)) as Hf
        by (rewrite <- Hidx; left).
      apply list_elem_of_filter in Hf. tauto.
    + intros (ht & Hin & Hv).
      destruct (byVersion s !! v) as [l|] eqn:Hl; [done|]. simpl in Hidx.
      assert (ht ∈ filter (λ ht, OSVersion ht = v) (hashtables s))
        as Hf by by apply list_elem_of_filter.
      rewrite <- Hidx in Hf. by apply elem_of_nil in Hf.
  - intros vi Hvi.
    destruct (GetVersions_devices s vi Hvi) as (Hperm & _ & Hcount).
    split; [|by rewrite Hperm, Hidx].
    apply GetVersions_elem in Hvi as (hts & Hl & _).
    rewrite Hcount. unfold GetHashtabsForVersion. rewrite Hl. simpl.
    destruct hts; [by destruct (Hne (Version vi))|]. simpl. lia.
Qed.

End WithGoLib.
End Versions.

Section CacheLifetime.
Import Os Env GcdCache Generation.
Context {lib : GoLib}.
Implicit Types (s : Service) (version : string).
#[local] Arguments statAll : simpl never.
#[local] Arguments anyChanged : simpl never.

Lemma statAll_size {St} hashtabs acc env (m : Machine St) :
  (size (statAll hashtabs acc env m).1 ≤ size acc + length hashtabs)%nat.
Proof.
  revert acc m. induction hashtabs as [|ht rest IH]; intros acc m.
  - unfold statAll. run_monad. lia.
  - unfold statAll. fold (@statAll St). run_monad.
    destruct (stat (env (tick m)) (HashtabFile.Path ht)) as [t| |e].
    + etrans; [apply IH|].
      pose proof (map_size_insert (HashtabFile.Path ht) t acc) as Hs.
      destruct (acc !! HashtabFile.Path ht); simpl in *; lia.
    + etrans; [apply IH|]. simpl. lia.
    + etrans; [apply IH|]. simpl. lia.
Qed.

Lemma generateGCD_cases env m version :
  let s := self m in
  let out := generateGCD version env m in
  let n := length (registeredFor version s) in
  trace out.2 = trace m ++ Generate version :: engineRuns s version ∧
  match out.1 with
  | Some e =>
      self out.2 = s ∧
      (e = "no hashtabs found for version " +:+ version ∨
       ∃ e', e = "qmldiff gcd-hashtab failed: " +:+ e')
  | None =>
      ∃ g mods,
        self out.2 = install version g mods s ∧
        Version g = version ∧
        DeviceCount g = Z.of_nat n ∧
        (n = 1 ∨ (2 ≤ n)%nat ∧ Path g = outputPathFor (gcdDir s) version) ∧
        (size mods ≤ n)%nat
  end.
Proof.
  intros s out n. subst out n. unfold engineRuns, registeredFor, mergeArgs.
  unfold generateGCD. run_monad. fold s.
  destruct (Hashtabs.GetHashtabsForVersion version (hashtabService s))
    as [|h1 [|h2 rest]] eqn:Hn; simpl.
  - split; [done|]. split; [done|]. by left.
  - split; [done|]. eexists _, _. split; [done|]. simpl.
    rewrite map_size_singleton. split_and!; try done. by left.
  - unfold runQmldiff. run_monad.
    destruct (run_err _); simpl.
    { split; [by rewrite <- app_assoc|]. split; [done|]. right. by eexists. }
    match goal with |- context [statAll ?l ?a env ?m'] =>
      pose proof (statAll_frame l a env m') as (Htr & Hs & _);
      pose proof (statAll_size l a env m') as Hsz;
      destruct (statAll l a env m') as [mods m''] end.
    simpl in *. rewrite Htr, Hs. simpl.
    split; [by rewrite <- app_assoc|].
    eexists _, mods. split; [done|]. simpl.
    rewrite map_size_empty in Hsz. split_and!; try done; try lia.
    right. split; [lia|done].
Qed.

Lemma coherent_frame s s' :
  gcdDir s' = gcdDir s → gcdHashtabs s' = gcdHashtabs s →
  sourceModTimes s' = sourceModTimes s → coherent s → coherent s'.
Proof.
  intros Hd Hg Hm. unfold coherent, wellFormedEntry.
  by rewrite Hd, Hg, Hm.
Qed.

Lemma coherent_install s version g mods :
  Version g = version →
  (DeviceCount g = 1%Z ∨
   (2 ≤ DeviceCount g)%Z ∧ Path g = outputPathFor (gcdDir s) version) →
  (Z.of_nat (size mods) ≤ DeviceCount g)%Z →
  coherent s → coherent (install version g mods s).
Proof.
  intros Hv Hp Hsz [Hwf Hkeys]. split.
  - intros v g'. unfold wellFormedEntry. simpl.
    destruct (decide (version = v)) as [<-|Hne].
    + rewrite !lookup_insert_eq. intros [= <-]. split_and!; [done..|].
      by exists mods.
    + rewrite !lookup_insert_ne by done. apply Hwf.
  - intros v. simpl. destruct (decide (version = v)) as [<-|Hne].
    + by rewrite !lookup_insert_eq.
    + rewrite !lookup_insert_ne by done. apply Hkeys.
Qed.

Lemma generateGCD_coherent env m version :
  coherent (self m) → coherent (self (generateGCD version env m).2).
Proof.
  intros Hc. destruct (generateGCD_cases env m version) as [_ H].
  destruct (generateGCD version env m).1.
  - destruct H as [-> _]. done.
  - destruct H as (g & mods & -> & Hv & Hn & Hp & Hsz).
    apply coherent_install; [done| |lia|done].
    destruct Hp as [Hone|[Htwo Hp]]; [left|right; split]; [lia|lia|done].
Qed.

Lemma generateGCD_fields env m version :
  gcdDir (self (generateGCD version env m).2) = gcdDir (self m) ∧
  qmldiffBinary (self (generateGCD version env m).2)
    = qmldiffBinary (self m) ∧
  hashtabService (self (generateGCD version env m).2)
    = hashtabService (self m).
Proof.
  destruct (generateGCD_cases env m version) as [_ H]. simpl in H.
  destruct (generateGCD version env m).1.
  - destruct H as [-> _]. done.
  - destruct H as (g & mods & -> & _). done.
Qed.

Lemma check_fields env m :
  let cr := withRegistry Hashtabs.CheckAndReload env m in
  gcdDir (self cr.2) = gcdDir (self m) ∧
  qmldiffBinary (self cr.2) = qmldiffBinary (self m).
Proof.
  unfold withRegistry, zoom.
  by destruct (Hashtabs.CheckAndReload env _) as [a mh].
Qed.

Lemma refresh_coherent env m version reloaded :
  coherent (self m) →
  coherent (self (refresh version reloaded env m).2) ∧
  gcdDir (self (refresh version reloaded env m).2) = gcdDir (self m) ∧
  qmldiffBinary (self (refresh version reloaded env m).2)
    = qmldiffBinary (self m).
Proof.
  intros Hc. unfold refresh. destruct reloaded.
  { destruct (generateGCD_fields env m version) as (? & ? & _).
    split; [by apply generateGCD_coherent|done]. }
  unfold bind.
  destruct (needsRegen_stale env m version) as (_ & _ & Hs).
  destruct (needsRegen version env m) as [regen m1]. simpl in *.
  destruct regen.
  - destruct (generateGCD_fields env m1 version) as (? & ? & _).
    split; [apply generateGCD_coherent; by rewrite Hs|].
    split; congruence.
  - unfold ret. simpl. by rewrite Hs.
Qed.

Lemma GetGCDHashtab_coherent env m version :
  coherent (self m) →
  coherent (self (GetGCDHashtab version env m).2) ∧
  gcdDir (self (GetGCDHashtab version env m).2) = gcdDir (self m) ∧
  qmldiffBinary (self (GetGCDHashtab version env m).2)
    = qmldiffBinary (self m).
Proof.
  intros Hc. rewrite GetGCDHashtab_steps. simpl.
  destruct (reload_check_frame env m) as (_ & Hg & Hm).
  destruct (check_fields env m) as [Hd Hb].
  set (m1 := (withRegistry Hashtabs.CheckAndReload env m).2) in *.
  assert (Hc1 : coherent (self m1)) by by eapply coherent_frame.
  destruct (refresh_coherent env m1 version
              (withRegistry Hashtabs.CheckAndReload env m).1.1 Hc1)
    as (Hc2 & Hd2 & Hb2).
  destruct (refresh version _ env m1) as [[e|] m2]; simpl in *.
  - split; [done|]. split; congruence.
  - rewrite cachedPath_frame. split; [done|]. split; congruence.
Qed.

Lemma generateEach_coherent env versions m :
  coherent (self m) →
  coherent (self (generateEach versions env m).2) ∧
  gcdDir (self (generateEach versions env m).2) = gcdDir (self m) ∧
  qmldiffBinary (self (generateEach versions env m).2)
    = qmldiffBinary (self m) ∧
  hashtabService (self (generateEach versions env m).2)
    = hashtabService (self m).
Proof.
  revert m. induction versions as [|v rest IH]; intros m Hc; [done|].
  simpl. unfold bind.
  pose proof (generateGCD_coherent env m (Registry.Version v) Hc) as Hc1.
  destruct (generateGCD_fields env m (Registry.Version v)) as (Hd & Hb & Hh).
  destruct (generateGCD (Registry.Version v) env m) as [r m1]. simpl in *.
  destruct (IH m1 Hc1) as (? & ? & ? & ?).
  split; [done|]. split_and!; congruence.
Qed.

Lemma serve_coherent env r m :
  coherent (self m) →
  coherent (self (serve r env m).2) ∧
  gcdDir (self (serve r env m).2) = gcdDir (self m) ∧
  qmldiffBinary (self (serve r env m).2) = qmldiffBinary (self m).
Proof.
  intros Hc. destruct r as [|version]; simpl.
  - unfold GenerateAll. run_monad.
    destruct (generateEach_coherent env (GetVersions (self m)) m Hc)
      as (? & ? & ? & _).
    by destruct (generateEach _ env m) as [[] m1].
  - unfold bind.
    pose proof (GetGCDHashtab_coherent env m version Hc) as H.
    by destruct (GetGCDHashtab version env m) as [r m1].
Qed.

(** X18.  Every entry of the cache, after any sequence of requests to
    the service [NewService] returned, is as [generateGCD] installs
    entries: it is filed under its own version; it counts one device, or
    two or more and then its path is the output path of the version in
    the cache directory; and the snapshot of the version exists and holds
    at most as many paths as the entry counts devices.  A snapshot exists
    only beside an entry, and the directory and the binary of the service
    never change. *)
Theorem cache_entries_stay_well_formed
    env start gcdDir qmldiffBinary hashtabService rs :
  let s := self (serveAll rs env
                   (mkMachine start []
                      (fresh gcdDir qmldiffBinary hashtabService))).2 in
  coherent s ∧
  GcdCache.gcdDir s = gcdDir ∧
  GcdCache.qmldiffBinary s = qmldiffBinary.
Proof.
  assert (Hgen : ∀ m, coherent (self m) →
            coherent (self (serveAll rs env m).2) ∧
            GcdCache.gcdDir (self (serveAll rs env m).2)
              = GcdCache.gcdDir (self m) ∧
            GcdCache.qmldiffBinary (self (serveAll rs env m).2)
              = GcdCache.qmldiffBinary (self m)).
  { induction rs as [|r rest IH]; intros m Hc; [done|].
    simpl. unfold bind.
    destruct (serve_coherent env r m Hc) as (Hc1 & Hd & Hb).
    destruct (serve r env m) as [[] m1]. simpl in *.
    destruct (IH m1 Hc1) as (? & ? & ?). split; [done|]. split; congruence. }
  simpl. apply Hgen. split.
  - intros version g. simpl. by rewrite lookup_empty.
  - intros version [x Hx]. simpl in Hx. by rewrite lookup_empty in Hx.
Qed.

(** X19.  [GetGCDHashtab] fails only with an error of [generateGCD]: no
    artifact for the version, or a failed run of the engine.  The lookup
    that ends the function always finds an entry, so the error it is
    written to return is never returned; a path returned is the path of
    the entry the cache then holds. *)
Theorem GetGCDHashtab_fails_only_in_generation env m version :
  let out := GetGCDHashtab version env m in
  match out.1 with
  | Ok path =>
      ∃ g, gcdHashtabs (self out.2) !! version = Some g ∧ Path g = path
  | Err e =>
      (e = "no hashtabs found for version " +:+ version ∨
       ∃ e', e = "qmldiff gcd-hashtab failed: " +:+ e') ∧
      e ≠ "GCD hashtab not found for version " +:+ version
  end.
Proof.
  intros out. subst out. rewrite GetGCDHashtab_steps. simpl.
  set (cr := withRegistry Hashtabs.CheckAndReload env m).
  assert (Hgen : ∀ m1,
    match (generateGCD version env m1).1 with
    | Some e =>
        (e = "no hashtabs found for version " +:+ version ∨
         ∃ e', e = "qmldiff gcd-hashtab failed: " +:+ e') ∧
        e ≠ "GCD hashtab not found for version " +:+ version
    | None =>
        is_Some (gcdHashtabs (self (generateGCD version env m1).2)
                   !! version)
    end).
  { intros m1. destruct (generateGCD_cases env m1 version) as [_ H].
    destruct (generateGCD version env m1).1 as [e|].
    - destruct H as [_ H]. split; [done|].
      destruct H as [->|[e' ->]]; simpl; discriminate.
    - destruct H as (g & mods & -> & _). simpl.
      by rewrite lookup_insert_eq. }
  assert (Hfin : ∀ m2, is_Some (gcdHashtabs (self m2) !! version) →
    match (cachedPath version env m2).1 with
    | Ok path =>
        ∃ g, gcdHashtabs (self (cachedPath version env m2).2) !! version
               = Some g ∧ Path g = path
    | Err _ => False
    end).
  { intros m2 [g Hg]. rewrite cachedPath_frame. unfold cachedPath.
    run_monad. rewrite Hg. by exists g. }
  unfold refresh. destruct cr.1.1.
  { specialize (Hgen cr.2).
    destruct (generateGCD version env cr.2) as [[e|] m2]; simpl in *;
      [done|]. specialize (Hfin m2 Hgen).
    by destruct (cachedPath version env m2).1. }
  unfold bind.
  pose proof (needsRegen_stale env cr.2 version) as (Hst & _ & Hs).
  destruct (needsRegen version env cr.2) as [regen m1] eqn:Hreg.
  simpl in *. destruct regen.
  { specialize (Hgen m1).
    destruct (generateGCD version env m1) as [[e|] m2]; simpl in *;
      [done|]. specialize (Hfin m2 Hgen).
    by destruct (cachedPath version env m2).1. }
  unfold ret. simpl.
  assert (Hsome : is_Some (gcdHashtabs (self m1) !! version)).
  { rewrite Hs. destruct (gcdHashtabs (self cr.2) !! version) eqn:Hl;
      [done|]. exfalso.
    assert (false = true); [|done]. apply Hst. unfold stale.
    by rewrite Hl. }
  specialize (Hfin m1 Hsome). by destruct (cachedPath version env m1).1.
Qed.

Lemma merges_app tr1 tr2 : merges (tr1 ++ tr2) = merges tr1 + merges tr2.
Proof. unfold merges. by rewrite List.filter_app, length_app. Qed.

Lemma generateEach_merges env versions m :
  (∀ vi, vi ∈ versions →
     Registry.DeviceCount vi
       = Z.of_nat (length (registeredFor (Registry.Version vi) (self m)))) →
  merges (trace (generateEach versions env m).2)
    = merges (trace m) +
      length (filter (λ vi, (2 ≤ Registry.DeviceCount vi)%Z) versions).
Proof.
  revert m. induction versions as [|v rest IH]; intros m Hcount.
  { simpl. lia. }
  simpl. unfold bind.
  destruct (generateGCD_cases env m (Registry.Version v)) as [Htr _].
  destruct (generateGCD_fields env m (Registry.Version v)) as (_ & _ & Hh).
  destruct (generateGCD (Registry.Version v) env m) as [r m1]. simpl in *.
  rewrite IH.
  - rewrite Htr, merges_app. unfold engineRuns.
    pose proof (Hcount v ltac:(left)) as Hv.
    destruct (Nat.leb_spec 2 (length (registeredFor (Registry.Version v)
                                        (self m)))).
    + rewrite filter_cons_True by lia. unfold merges. simpl. lia.
    + rewrite filter_cons_False by lia. unfold merges. simpl. lia.
  - intros vi Hvi. unfold registeredFor. rewrite Hh.
    apply Hcount. by right.
Qed.

(** X20.  [GenerateAll] never fails, whatever the generations do; it
    leaves the registry alone, and it runs the engine once for each
    version listed with two or more devices and not at all for the
    others. *)
Theorem GenerateAll_merges_once_per_shared_version env m :
  let out := GenerateAll env m in
  out.1 = None ∧
  hashtabService (self out.2) = hashtabService (self m) ∧
  merges (trace out.2)
    = merges (trace m) +
      length (filter (λ vi, (2 ≤ Registry.DeviceCount vi)%Z)
                (GetVersions (self m))).
Proof.
  unfold GenerateAll. run_monad.
  pose proof (generateEach_merges env (GetVersions (self m)) m) as Hm.
  assert (Hh : ∀ versions m0,
            hashtabService (self (generateEach versions env m0).2)
              = hashtabService (self m0)).
  { induction versions as [|v rest IH]; intros m0; [done|].
    simpl. unfold bind.
    destruct (generateGCD_fields env m0 (Registry.Version v))
      as (_ & _ & Hh).
    destruct (generateGCD (Registry.Version v) env m0) as [r m1].
    simpl in *. by rewrite IH. }
  specialize (Hh (GetVersions (self m)) m).
  destruct (generateEach _ env m) as [[] m1]. simpl in *.
  split; [done|]. split; [done|]. apply Hm.
  intros vi Hvi. by apply GetVersions_devices in Hvi as (_ & _ & ->).
Qed.

End CacheLifetime.

Section TaskResidue.
Import Os Env Handlers Residue.
Context {lib : GoLib}.
Implicit Types (env : Env) (m : Machine APIHandler).

Lemma removals_app tr1 tr2 :
  removals (tr1 ++ tr2) = removals tr1 ++ removals tr2.
Proof. apply List.filter_app. Qed.

(** The loop, for every batch: it stops with a panic exactly when a
    relative path is missing, and what it removes are the outputs of the
    failed engine runs. *)
Lemma hashFiles_residue jobID gcdPath outputDir n relPaths rest :
  ∀ i results sc env m,
    (i ≤ length relPaths)%nat →
    ∃ r m',
      hashFiles jobID gcdPath outputDir n relPaths i rest results sc env m
        = (r, m') ∧
      (r = None ↔ (length relPaths < i + length rest)%nat) ∧
      removals (trace m') =
        removals (trace m) ++
        map Remove
          (hashFailures env (tick m)
             (QmlDiff.binaryPath (qmldiffService (self m)))
             gcdPath outputDir relPaths i rest) ∧
      qmldiffService (self m') = qmldiffService (self m) ∧
      gcdCache (self m') = gcdCache (self m).
Proof.
  induction rest as [|inputPath rest IH]; intros i results sc env m Hi;
    simpl.
  { eexists _, m. split; [done|]. split_and!; [|by rewrite app_nil_r|done..].
    split; [done|]. lia. }
  destruct (relPaths !! i) as [relPath|] eqn:Hrel.
  2: { apply lookup_ge_None in Hrel. eexists _, m. split; [done|].
       split_and!; try done.
       - split; [lia|done].
       - by rewrite app_nil_r. }
  apply lookup_lt_Some in Hrel.
  unfold bind at 1. rewrite copyFile_outcome. unfold attempt.
  destruct (copyOutcome env (tick m) inputPath
              (filepath_Join outputDir relPath)) as [[e|] k]; simpl.
  - match goal with |- context [hashFiles _ _ _ _ _ _ _ ?r ?c env ?m0] =>
      destruct (IH (S i) r c env m0)
        as (r1 & m1 & -> & Hnone & Htr & Hq & Hg); [lia|] end.
    simpl in *. eexists _, _. split; [done|].
    split_and!; try done. rewrite Hnone. lia.
  - unfold withQmldiff, zoom, QmlDiff.HashDiffs. run_monad.
    destruct (run_err (run (env (k + tick m)) _ _)) as [e|] eqn:Hrun;
      simpl.
    + match goal with |- context [hashFiles _ _ _ _ _ _ _ ?r ?c env ?m0] =>
        destruct (IH (S i) r c env m0)
          as (r1 & m1 & -> & Hnone & Htr & Hq & Hg); [lia|] end.
      simpl in *. eexists _, _. split; [done|].
      split_and!; try done; [rewrite Hnone; lia|].
      rewrite Htr, !removals_app. simpl. by rewrite <- !app_assoc.
    + unfold onStore. run_monad.
      match goal with |- context [hashFiles _ _ _ _ _ _ _ ?r ?c env ?m0] =>
        destruct (IH (S i) r c env m0)
          as (r1 & m1 & -> & Hnone & Htr & Hq & Hg); [lia|] end.
      simpl in *. eexists _, _. split; [done|].
      split_and!; try done; [rewrite Hnone; lia|].
      rewrite Htr, !removals_app. simpl. by rewrite app_nil_r.
Qed.

Lemma generateGCD_removes_nothing env (m : Machine GcdCache.Service) version :
  removals (trace (GcdCache.generateGCD version env m).2)
    = removals (trace m).
Proof.
  destruct (generateGCD_cases env m version) as [-> _].
  rewrite removals_app. simpl. unfold Generation.engineRuns.
  destruct (_ <=? _)%nat; simpl; by rewrite app_nil_r.
Qed.

Lemma GetGCDHashtab_removes_nothing env (m : Machine GcdCache.Service)
    version :
  removals (trace (GcdCache.GetGCDHashtab version env m).2)
    = removals (trace m).
Proof.
  rewrite GetGCDHashtab_steps. simpl.
  destruct (reload_check_frame env m) as (Htr & _).
  set (cr := GcdCache.withRegistry Hashtabs.CheckAndReload env m) in *.
  assert (Hrf : removals (trace (GcdCache.refresh version cr.1.1 env cr.2).2)
                = removals (trace m)).
  { unfold GcdCache.refresh. destruct cr.1.1.
    { by rewrite generateGCD_removes_nothing, Htr. }
    unfold bind.
    destruct (needsRegen_stale env cr.2 version) as (_ & Htr1 & _).
    destruct (GcdCache.needsRegen version env cr.2) as [regen m1].
    simpl in *. destruct regen.
    - by rewrite generateGCD_removes_nothing, Htr1, Htr.
    - unfold ret. simpl. by rewrite Htr1, Htr. }
  destruct (GcdCache.refresh version cr.1.1 env cr.2) as [[e|] m2];
    simpl in *; [done|]. by rewrite cachedPath_frame.
Qed.

Lemma withGcdCache_trace {A} (c : M GcdCache.Service A) env m :
  trace (withGcdCache c env m).2
    = trace (c env (mkMachine (tick m) (trace m) (gcdCache (self m)))).2.
Proof. unfold withGcdCache, zoom. by destruct (c env _). Qed.

Lemma processHashJob_exits
    env m jobID version qmdFiles relPaths inputDir outputDir :
  let m0 := (jobStore_UpdateWithOperation jobID "running"
               "Getting GCD hashtab" None "preparing" env m).2 in
  let g := withGcdCache (GcdCache.GetGCDHashtab version) env m0 in
  ∃ r m' tr,
    processHashJob jobID version qmdFiles relPaths inputDir outputDir env m
      = (r, m') ∧
    trace m' = tr ++ [RemoveAll inputDir] ∧
    (r = Panicked ↔
     is_Ok g.1 = true ∧ (length relPaths < length qmdFiles)%nat).
Proof.
  intros m0 g. subst g m0.
  unfold processHashJob, jobStore_UpdateWithOperation, jobStore_Update.
  unfold bind at 1. rewrite !stamping_running. simpl.
  unfold bind at 1.
  match goal with |- context [withGcdCache ?c env ?mm] =>
    destruct (withGcdCache c env mm) as [[gcdPath|e] mg] end; simpl.
  - unfold bind at 1. rewrite stamping_running. simpl.
    unfold bind at 1.
    match goal with |- context [hashFiles _ _ _ _ _ _ _ _ _ env ?mm] =>
      destruct (hashFiles_residue jobID gcdPath outputDir
                  (length qmdFiles) relPaths qmdFiles 0 [] 0 env mm)
        as ([[results sc]|] & m1 & -> & Hnone & _); [lia| |] end;
      simpl in *.
    + unfold onStore at 1. run_monad.
      destruct (bool_decide (sc = 0)).
      * match goal with |- context [stamping ?i ?st ?f env ?mm] =>
          destruct (stamping_run i st f env mm) as (t & k & ->) end.
        simpl. eexists _, _, _. split; [done|]. split; [done|].
        split; [done|]. intros [_ Hlt]. by apply Hnone in Hlt.
      * match goal with |- context [stamping ?i ?st ?f env ?mm] =>
          destruct (stamping_run i st f env mm) as (t & k & ->) end.
        simpl. eexists _, _, _. split; [done|]. split; [done|].
        split; [done|]. intros [_ Hlt]. by apply Hnone in Hlt.
    + run_monad. eexists _, _, _. split; [done|]. split; [done|].
      split; [|done]. intros _. split; [done|]. by apply Hnone.
  - unfold bind at 1.
    match goal with |- context [stamping ?i ?st ?f env ?mm] =>
      destruct (stamping_run i st f env mm) as (t & k & ->) end.
    run_monad. eexists _, _, _. split; [done|]. split; [done|].
    split; [done|]. by intros [? _].
Qed.

(** X21.  The deferred removal of the input directory is the last thing
    the task does on every way out, a panic included; and the task
    panics exactly when the derived artifact was obtained and there are
    fewer relative paths than files. *)
Theorem processHashJob_always_removes_the_input_directory
    env m jobID version qmdFiles relPaths inputDir outputDir :
  let out := processHashJob jobID version qmdFiles relPaths
               inputDir outputDir env m in
  let m0 := (jobStore_UpdateWithOperation jobID "running"
               "Getting GCD hashtab" None "preparing" env m).2 in
  let g := withGcdCache (GcdCache.GetGCDHashtab version) env m0 in
  (∃ tr, trace out.2 = tr ++ [RemoveAll inputDir]) ∧
  (out.1 = Panicked ↔
   is_Ok g.1 = true ∧ (length relPaths < length qmdFiles)%nat).
Proof.
  intros out m0 g.
  destruct (processHashJob_exits env m jobID version qmdFiles relPaths
              inputDir outputDir) as (r & m' & tr & Hrun & Htr & Hp).
  subst out. rewrite Hrun. simpl. split; [by exists tr|done].
Qed.

Lemma processHashJob_residue
    env m jobID version qmdFiles relPaths inputDir outputDir j0 :
  Jobs.jobs (jobStore (self m)) !! jobID = Some j0 →
  (length qmdFiles ≤ length relPaths)%nat →
  let m0 := (jobStore_UpdateWithOperation jobID "running"
               "Getting GCD hashtab" None "preparing" env m).2 in
  let g := withGcdCache (GcdCache.GetGCDHashtab version) env m0 in
  let binary := QmlDiff.binaryPath (qmldiffService (self m)) in
  let flags :=
    match g.1 with
    | Ok gcdPath =>
        attempts env (tick g.2) binary gcdPath outputDir relPaths 0 qmdFiles
    | Err _ => []
    end in
  let failures :=
    match g.1 with
    | Ok gcdPath =>
        hashFailures env (tick g.2) binary gcdPath outputDir
          relPaths 0 qmdFiles
    | Err _ => []
    end in
  ∃ r m',
    processHashJob jobID version qmdFiles relPaths inputDir outputDir env m
      = (r, m') ∧
    removals (trace m') =
      removals (trace m) ++ map Remove failures ++
      (if bool_decide (successes flags = 0) then [RemoveAll outputDir]
       else []) ++
      [RemoveAll inputDir].
Proof.
  intros Hj0 Hlen m0 g binary flags failures.
  subst flags failures g m0 binary.
  unfold processHashJob, jobStore_UpdateWithOperation, jobStore_Update.
  unfold bind at 1. rewrite !stamping_running. simpl.
  destruct (UpdateWithOperation_job jobID "running" "Getting GCD hashtab"
              None "preparing" zeroTime _ _ Hj0) as [j1 Hj1].
  unfold bind at 1.
  match goal with |- context [withGcdCache ?c env ?mm] =>
    pose proof (withGcdCache_frame c env mm) as [Hq0 Hs0];
    pose proof (withGcdCache_trace c env mm) as Htr0;
    destruct (withGcdCache c env mm) as [[gcdPath|e] mg] end;
    simpl in Hq0, Hs0, Htr0;
    rewrite GetGCDHashtab_removes_nothing in Htr0 || idtac.
  all: assert (Hg : removals (trace mg) = removals (trace m))
         by (rewrite Htr0; apply GetGCDHashtab_removes_nothing).
  - simpl. unfold bind at 1. rewrite stamping_running. simpl.
    rewrite Hs0 in *.
    destruct (UpdateWithOperation_job jobID "running" "Hashing files"
                None "hashing" zeroTime _ _ Hj1) as [j2 Hj2].
    unfold bind at 1.
    match goal with |- context [hashFiles _ _ _ _ _ _ _ _ _ env ?mm] =>
      destruct (hashFiles_outcomes jobID gcdPath outputDir
                  (length qmdFiles) relPaths qmdFiles 0 [] 0 env mm)
        as (rs & m1 & Hout & Hfl & _);
        [simpl; lia|by eexists|];
      destruct (hashFiles_residue jobID gcdPath outputDir
                  (length qmdFiles) relPaths qmdFiles 0 [] 0 env mm)
        as (r2 & m2 & Hout2 & _ & Hrem & _); [lia|] end.
    simpl in Hout, Hfl, Hrem. rewrite Hout in Hout2.
    injection Hout2 as <- <-. rewrite Hout.
    simpl in *. unfold onStore at 1. run_monad.
    pose proof Hfl as Hfl'. rewrite Hq0 in Hfl', Hrem.
    rewrite <- Hfl, <- Hfl'. rewrite Hg in Hrem.
    destruct (bool_decide (successes (map isSuccess rs) = 0)) eqn:Hzero.
    + match goal with |- context [stamping ?i ?st ?f env ?mm] =>
        destruct (stamping_run i st f env mm) as (t & k & ->) end.
      simpl. eexists _, _. split; [done|]. simpl.
      rewrite !removals_app, Hrem. simpl.
      by rewrite <- !app_assoc.
    + match goal with |- context [stamping ?i ?st ?f env ?mm] =>
        destruct (stamping_run i st f env mm) as (t & k & ->) end.
      simpl. eexists _, _. split; [done|]. simpl.
      rewrite !removals_app, Hrem. simpl.
      by rewrite <- !app_assoc.
  - simpl. unfold bind at 1.
    match goal with |- context [stamping ?i ?st ?f env ?mm] =>
      destruct (stamping_run i st f env mm) as (t & k & Hrun) end.
    rewrite Hrun. run_monad. eexists _, _. split; [done|]. simpl.
    rewrite !removals_app, Hg. simpl.
    by rewrite <- !app_assoc.
Qed.

(** X22.  What the task removes.  With the job in the store and a
    relative path for every file, the removals of a run are, in order:
    the output of every file whose copy succeeded and whose engine run
    failed; the output directory, when no file was hashed (the derived
    artifact could not be obtained, or every file failed); and the input
    directory.  Obtaining the derived artifact removes nothing. *)
Theorem processHashJob_removes_failed_outputs_and_directories
    env m jobID version qmdFiles relPaths inputDir outputDir j0 :
  Jobs.jobs (jobStore (self m)) !! jobID = Some j0 →
  (length qmdFiles ≤ length relPaths)%nat →
  let out := processHashJob jobID version qmdFiles relPaths
               inputDir outputDir env m in
  let m0 := (jobStore_UpdateWithOperation jobID "running"
               "Getting GCD hashtab" None "preparing" env m).2 in
  let g := withGcdCache (GcdCache.GetGCDHashtab version) env m0 in
  let binary := QmlDiff.binaryPath (qmldiffService (self m)) in
  let flags :=
    match g.1 with
    | Ok gcdPath =>
        attempts env (tick g.2) binary gcdPath outputDir relPaths 0 qmdFiles
    | Err _ => []
    end in
  let failures :=
    match g.1 with
    | Ok gcdPath =>
        hashFailures env (tick g.2) binary gcdPath outputDir
          relPaths 0 qmdFiles
    | Err _ => []
    end in
  removals (trace out.2) =
    removals (trace m) ++ map Remove failures ++
    (if bool_decide (successes flags = 0) then [RemoveAll outputDir]
     else []) ++
    [RemoveAll inputDir].
Proof.
  intros Hj0 Hlen out m0 g binary flags failures.
  destruct (processHashJob_residue env m jobID version qmdFiles relPaths
              inputDir outputDir j0 Hj0 Hlen) as (r & m' & Hrun & Hrem).
  subst out. by rewrite Hrun.
Qed.

End TaskResidue.

Section HttpHandlers.
Import Os Env Handlers Api.
Context {lib : GoLib} {plib : PathLib}.
Implicit Types (env : Env) (m : Machine APIHandler).

Lemma saveUploads_spec inputDir outputDir filePaths rest :
  ∀ i qmdFiles relPaths env m,
    qmdFiles = map (filepath_Join inputDir) relPaths →
    Forall (admitted inputDir) relPaths →
    ∃ r m',
      saveUploads inputDir outputDir filePaths i rest qmdFiles relPaths
        env m = (r, m') ∧
      self m' = self m ∧
      match r with
      | inl resp =>
          (∃ code message,
             resp = JSONError code message ∧ (400 ≤ code)%Z) ∧
          trace m' = trace m ++ [RemoveAll inputDir; RemoveAll outputDir]
      | inr (q, p) =>
          trace m' = trace m ∧
          q = map (filepath_Join inputDir) p ∧
          Forall (admitted inputDir) p
      end.
Proof.
  assert (Hrefuse : ∀ code message env m,
            (400 ≤ code)%Z →
            ∃ r m',
              @refuse APIHandler (list string * list string) inputDir outputDir
                (JSONError code message) env m = (r, m') ∧
              self m' = self m ∧
              match r with
              | inl resp =>
                  (∃ code message,
                     resp = JSONError code message ∧ (400 ≤ code)%Z) ∧
                  trace m' = trace m ++
                               [RemoveAll inputDir; RemoveAll outputDir]
              | inr (q, p) =>
                  trace m' = trace m ∧
                  q = map (filepath_Join inputDir) p ∧
                  Forall (admitted inputDir) p
              end).
  { intros code message env m Hc. unfold refuse. run_monad.
    eexists _, _. split; [done|]. simpl. split; [done|].
    split; [by eexists _, _|]. by rewrite <- app_assoc. }
  induction rest as [|fileHeader rest IH];
    intros i qmdFiles relPaths env m Hq Hp; simpl.
  { run_monad. by eexists _, m. }
  destruct (openError fileHeader); [by apply Hrefuse|].
  destruct (isQmd (relativePathOf filePaths i fileHeader)) eqn:Hqmd; simpl;
    [|by apply IH].
  destruct (inside inputDir _) eqn:Hin; simpl; [|by apply Hrefuse].
  run_monad.
  destruct (mkdirAll _ _);
    [by apply (Hrefuse _ _ env (mkMachine (S (tick m)) (trace m) (self m)))|].
  destruct (mkdirAll _ _);
    [by apply (Hrefuse _ _ env
                 (mkMachine (S (S (tick m))) (trace m) (self m)))|].
  destruct (create _ _);
    [by apply (Hrefuse _ _ env
                 (mkMachine (S (S (S (tick m)))) (trace m) (self m)))|].
  destruct (copyError fileHeader);
    [by apply (Hrefuse _ _ env
                 (mkMachine (S (S (S (tick m)))) (trace m) (self m)))|].
  destruct (_ =? _)%Z.
  - by apply (IH _ _ _ env (mkMachine (S (S (S (tick m)))) (trace m) (self m))).
  - apply (IH _ _ _ env (mkMachine (S (S (S (tick m)))) (trace m) (self m))).
    + by rewrite Hq, map_app.
    + apply Forall_app. split; [done|]. by repeat constructor.
Qed.

Lemma register_job jobID n outputDir s :
  Jobs.jobs (register jobID n outputDir s) !! jobID =
    Some {| Jobs.Status := "pending"; Jobs.Message := "Job created";
            Jobs.Data := None; Jobs.Progress := 0; Jobs.Operation := "";
            Jobs.Files := []; Jobs.OutputDir := outputDir;
            Jobs.FileCount := Z.of_nat n; Jobs.CompletedAt := None |}.
Proof.
  unfold register, Jobs.SetOutputDir, Observers.assignFileCount, Jobs.Create.
  simpl. rewrite lookup_insert_eq. simpl. rewrite lookup_insert_eq. simpl.
  by rewrite lookup_insert_eq.
Qed.

Lemma Hash_cases form outside env m :
  ∃ resp task m',
    Hash form outside env m = ((resp, task), m') ∧
    match task with
    | Some task =>
        resp = JobStarted (newUUID outside) ∧
        t_jobID task = newUUID outside ∧
        t_version task = version form ∧
        version form ≠ "" ∧
        inputTemp outside = Ok (t_inputDir task) ∧
        outputTemp outside = Ok (t_outputDir task) ∧
        t_qmdFiles task ≠ [] ∧
        t_qmdFiles task
          = map (filepath_Join (t_inputDir task)) (t_relPaths task) ∧
        Forall (admitted (t_inputDir task)) (t_relPaths task) ∧
        trace m' = trace m ∧
        qmldiffService (self m') = qmldiffService (self m) ∧
        gcdCache (self m') = gcdCache (self m) ∧
        jobStore (self m')
          = register (t_jobID task) (length (t_qmdFiles task))
              (t_outputDir task) (jobStore (self m))
    | None =>
        (∃ code message,
           resp = JSONError code message ∧ (400 ≤ code)%Z) ∧
        self m' = self m ∧
        trace m' = trace m ++ map RemoveAll (dirsMade form outside)
    end.
Proof.
  unfold Hash, dirsMade.
  destruct (parseError form).
  { run_monad. eexists _, _, _. split; [done|]. simpl.
    split; [by eexists _, _|]. by rewrite app_nil_r. }
  case_bool_decide as Hv.
  { run_monad. eexists _, _, _. split; [done|]. simpl.
    split; [by eexists _, _|]. by rewrite app_nil_r. }
  destruct (uploadsOf form) as [[fileHeaders filePaths]|].
  2: { run_monad. eexists _, _, _. split; [done|]. simpl.
       split; [by eexists _, _|]. by rewrite app_nil_r. }
  destruct (inputTemp outside) as [inputDir|e1].
  2: { run_monad. eexists _, _, _. split; [done|]. simpl.
       split; [by eexists _, _|]. by rewrite app_nil_r. }
  destruct (outputTemp outside) as [outputDir|e2].
  2: { run_monad. eexists _, _, _. split; [done|]. simpl.
       split; [by eexists _, _|]. done. }
  unfold bind at 1.
  destruct (saveUploads_spec inputDir outputDir filePaths fileHeaders
              0 [] [] env m eq_refl (Forall_nil_2 _))
    as (r & m1 & -> & Hs & Hr).
  destruct r as [resp|[[|q qmdFiles] relPaths]].
  - run_monad. destruct Hr as [Hresp Htr].
    eexists _, _, _. split; [done|]. simpl. done.
  - run_monad. destruct Hr as (Htr & _).
    eexists _, _, _. split; [done|]. simpl.
    split; [by eexists _, _|]. split; [done|].
    by rewrite Htr, <- app_assoc.
  - unfold onStore. run_monad. destruct Hr as (Htr & Hq & Hp).
    eexists _, _, _. split; [done|]. simpl. rewrite Hs.
    split_and!; done.
Qed.

(** X23.  [Hash] either starts a task or leaves nothing behind.  When it
    starts one, it answers with the identifier of the job; the task gets
    one relative path for every saved file, at least one, each with the
    suffix [.qmd] and each saved under the input directory at that
    relative path; nothing was removed; and the job stands in the store
    as pending, with the number of saved files as its file count and the
    output directory of the task.  When it starts none, it answers with
    an error of code 400 or more, the handler's services and store are as
    they were, and every temporary directory the call made has been
    removed. *)
Theorem Hash_starts_a_task_or_removes_what_it_made form outside env m :
  let out := Hash form outside env m in
  match out.1.2 with
  | Some task =>
      out.1.1 = JobStarted (t_jobID task) ∧
      statusCode out.1.1 = Some StatusOK ∧
      t_jobID task = newUUID outside ∧
      t_version task = version form ∧
      inputTemp outside = Ok (t_inputDir task) ∧
      outputTemp outside = Ok (t_outputDir task) ∧
      t_qmdFiles task ≠ [] ∧
      length (t_relPaths task) = length (t_qmdFiles task) ∧
      t_qmdFiles task
        = map (filepath_Join (t_inputDir task)) (t_relPaths task) ∧
      Forall (admitted (t_inputDir task)) (t_relPaths task) ∧
      trace out.2 = trace m ∧
      ∃ job,
        Jobs.Get (t_jobID task) (jobStore (self out.2)) = Some job ∧
        Jobs.Status job = "pending" ∧
        Jobs.FileCount job = Z.of_nat (length (t_qmdFiles task)) ∧
        Jobs.OutputDir job = t_outputDir task ∧
        Jobs.CompletedAt job = None
  | None =>
      (∃ code message,
         out.1.1 = JSONError code message ∧ (400 ≤ code)%Z) ∧
      self out.2 = self m ∧
      trace out.2 = trace m ++ map RemoveAll (dirsMade form outside)
  end.
Proof.
  intros out. subst out.
  destruct (Hash_cases form outside env m) as (resp & task & m' & -> & H).
  simpl. destruct task as [task|]; [|done].
  destruct H as (-> & Hid & Hv & _ & Hi & Ho & Hne & Hq & Hp & Htr & _ & _
                 & Hst).
  rewrite Hid. split_and!; try done.
  - by rewrite Hq, length_map.
  - rewrite Hst, <- Hid. eexists. unfold Jobs.Get.
    rewrite register_job. done.
Qed.

(** X24.  The task [Hash] starts never panics, whenever it runs: its
    slices have the same length, so the index into [relPaths] is always
    in range. *)
Theorem task_of_Hash_never_panics form outside env m task env' m' :
  (Hash form outside env m).1.2 = Some task →
  (runTask task env' m').1 = Returned.
Proof.
  destruct (Hash_cases form outside env m) as (resp & t & m1 & -> & H).
  simpl. intros ->.
  destruct H as (_ & _ & _ & _ & _ & _ & _ & Hq & _).
  unfold runTask.
  destruct (processHashJob_exits env' m' (t_jobID task) (t_version task)
              (t_qmdFiles task) (t_relPaths task) (t_inputDir task)
              (t_outputDir task)) as (r & m2 & tr & -> & _ & Hp).
  simpl. destruct r; [done|]. destruct Hp as [Hp _].
  destruct (Hp eq_refl) as [_ Hlt]. rewrite Hq, length_map in Hlt. lia.
Qed.


(** X26.  [GetResults] reports progress until the job is finished.  On
    every store the program can reach: an answer with code 202 carries a
    status that is neither success nor error and a progress between 0 and
    100; an answer with the files carries the status success or error, of
    a job that has its completion time; the other answers are the errors
    for an empty identifier and for an unknown job. *)
Theorem GetResults_reports_progress_until_the_job_is_finished
    history jobID h :
  jobStore h = Observers.store (Observers.run history Observers.NewState) →
  match GetResults jobID h with
  | InProgress status _ progress _ _ =>
      Jobs.terminal status = false ∧ (0 ≤ progress ≤ 100)%Z
  | Finished status _ files fileCount =>
      Jobs.terminal status = true ∧
      ∃ job, Jobs.Get jobID (jobStore h) = Some job ∧
             Jobs.Files job = files ∧ Jobs.FileCount job = fileCount ∧
             is_Some (Jobs.CompletedAt job)
  | JSONError code _ =>
      (code = StatusBadRequest ∧ jobID = "") ∨
      (code = StatusNotFound ∧ Jobs.Get jobID (jobStore h) = None)
  | _ => False
  end.
Proof.
  intros Hreach. unfold GetResults.
  case_bool_decide as Hid; [by left|].
  destruct (Jobs.Get jobID (jobStore h)) as [job|] eqn:Hjob; [|by right].
  unfold Jobs.Get in Hjob. rewrite Hreach in Hjob.
  assert (Hprog : (0 ≤ Jobs.Progress job ≤ 100)%Z).
  { revert Hjob.
    apply (run_jobs_invariant (λ j, (0 ≤ Jobs.Progress j ≤ 100)%Z));
      [simpl; lia| |done].
    intros c s. apply perform_jobs_invariant; simpl; try done.
    intros j0 p _. apply clampPercent_range. }
  assert (Hdone : Jobs.terminal (Jobs.Status job) = true →
                  is_Some (Jobs.CompletedAt job)).
  { revert Hjob.
    apply (run_jobs_invariant
             (λ j, Jobs.terminal (Jobs.Status j) = true →
                   is_Some (Jobs.CompletedAt j))); [done| |done].
    intros c s.
    apply (perform_jobs_invariant
             (λ j, Jobs.terminal (Jobs.Status j) = true →
                   is_Some (Jobs.CompletedAt j))); simpl; try done.
    - intros j0 status _ _ now _ Ht. unfold Jobs.stamp. rewrite Ht. simpl.
      case_bool_decide as Hc; [done|]. by destruct (Jobs.CompletedAt j0).
    - intros j0 status _ _ _ now _ Ht. unfold Jobs.stamp. rewrite Ht. simpl.
      case_bool_decide as Hc; [done|]. by destruct (Jobs.CompletedAt j0). }
  unfold Jobs.terminal in *.
  destruct (decide (Jobs.Status job = "success")) as [Hs|Hs].
  { rewrite (bool_decide_false (Jobs.Status job ≠ "success")) by tauto.
    simpl. rewrite (bool_decide_true _ Hs) in *. simpl.
    split; [done|]. exists job. split_and!; try done. by apply Hdone. }
  rewrite (bool_decide_true (Jobs.Status job ≠ "success")) by done.
  rewrite (bool_decide_false _ Hs) in *. simpl in *.
  destruct (decide (Jobs.Status job = "error")) as [He|He].
  - rewrite (bool_decide_false (Jobs.Status job ≠ "error")) by tauto.
    rewrite (bool_decide_true _ He) in *. simpl.
    split; [apply orb_true_r|]. exists job. split_and!; try done.
    by apply Hdone.
  - rewrite (bool_decide_true (Jobs.Status job ≠ "error")) by done.
    simpl. by rewrite (bool_decide_false _ Hs), (bool_decide_false _ He).
Qed.

End HttpHandlers.

Section Recreation.
Import Os Jobs Client Observers.
Implicit Types (s : Store) (st : State) (id : string) (ch : chan).

(** X27.  [Create] of an identifier that has observers drops them without
    closing their channels.  In any state the store can reach, after
    [Create id] a channel [ch] that was subscribed to [id] is open and
    stands in no watcher list; whatever happens to the store afterwards
    nothing is added to its buffer; and its [unsubscribe] still closes it
    without a panic. *)
Theorem Create_drops_observers_without_closing history later id l ch :
  watchers (store (run history NewState)) !! id = Some l →
  ch ∈ l →
  (ch ∉ closed (advance (SCreate id) (run history NewState))) ∧
  unlinked ch (store (advance (SCreate id) (run history NewState))) ∧
  suffix
    (buffer ch
       (store (run later (advance (SCreate id) (run history NewState)))))
    (buffer ch (store (run history NewState))) ∧
  (unsubscribe id ch (advance (SCreate id) (run history NewState))).1 = Done.
Proof.
  intros Hl Hin.
  pose proof (consistent_run history NewState consistent_NewState) as Hst.
  set (st := run history NewState) in *.
  destruct Hst as (Ha & Hb & Hc & Hd).
  destruct (Ha _ _ _ Hl Hin) as (Hlt & Hcl & Hopen).
  assert (Hun : unlinked ch (store (advance (SCreate id) st))).
  { intros i l'. simpl. destruct (decide (id = i)) as [<-|Hne].
    - rewrite lookup_insert_eq. intros [= <-]. apply not_elem_of_nil.
    - rewrite lookup_insert_ne by done. intros Hl' Hin'.
      destruct (Ha _ _ _ Hl' Hin') as (_ & Hcl' & _).
      pose proof (eq_trans (eq_sym Hcl) Hcl') as [= ->]. done. }
  split; [done|]. split; [exact Hun|]. split.
  - apply (run_unlinked later ch (advance (SCreate id) st));
      [|exact Hun|exact Hlt].
    apply consistent_advance. by split_and!.
  - unfold unsubscribe. simpl. by rewrite bool_decide_false.
Qed.

End Recreation.

Section Refusal.
Import Os Env GcdCache Generation.
Context {lib : GoLib}.
Implicit Types (s : Service) (version : string).

Lemma serveAll_coherent env rs m :
  coherent (self m) → coherent (self (serveAll rs env m).2).
Proof.
  revert m. induction rs as [|r rest IH]; intros m Hc; [done|].
  simpl. unfold bind.
  destruct (serve_coherent env r m Hc) as (Hc1 & _).
  destruct (serve r env m) as [[] m1]. by apply IH.
Qed.

Lemma coherent_fresh gcdDir qmldiffBinary hashtabService :
  coherent (fresh gcdDir qmldiffBinary hashtabService).
Proof.
  split.
  - intros version g. simpl. by rewrite lookup_empty.
  - intros version [x Hx]. simpl in Hx. by rewrite lookup_empty in Hx.
Qed.

Lemma generateGCD_without_artifacts env m version :
  registeredFor version (self m) = [] →
  (generateGCD version env m).1
    = Some ("no hashtabs found for version " +:+ version) ∧
  self (generateGCD version env m).2 = self m.
Proof.
  unfold registeredFor, generateGCD. run_monad. by intros ->.
Qed.

(** X28.  A version the registry holds no artifact for is always refused,
    whatever the cache holds.  After any sequence of requests, when the
    check of [GetGCDHashtab] leaves the registry without an artifact for
    the version, the call fails with the error of [generateGCD] for it
    and leaves both maps of the cache as they were: an entry made while
    the version had artifacts stays, and is not served. *)
Theorem version_without_artifacts_is_refused
    env start gcdDir qmldiffBinary hashtabService rs version :
  let m := (serveAll rs env
              (mkMachine start []
                 (fresh gcdDir qmldiffBinary hashtabService))).2 in
  let cr := withRegistry Hashtabs.CheckAndReload env m in
  let out := GetGCDHashtab version env m in
  registeredFor version (self cr.2) = [] →
  out.1 = Err ("no hashtabs found for version " +:+ version) ∧
  gcdHashtabs (self out.2) = gcdHashtabs (self m) ∧
  sourceModTimes (self out.2) = sourceModTimes (self m).
Proof.
  intros m cr out Hnone. subst out.
  assert (Hc : coherent (self m))
    by (apply serveAll_coherent, coherent_fresh).
  rewrite GetGCDHashtab_steps. simpl. fold cr.
  destruct (reload_check_frame env m) as (_ & Hg & Hm). fold cr in Hg, Hm.
  destruct (check_fields env m) as [Hd _]. fold cr in Hd.
  assert (Hc1 : coherent (self cr.2)) by by eapply coherent_frame.
  assert (Hrf : (refresh version cr.1.1 env cr.2).1
                = Some ("no hashtabs found for version " +:+ version) ∧
                self (refresh version cr.1.1 env cr.2).2 = self cr.2).
  { unfold refresh. destruct cr.1.1.
    { by apply generateGCD_without_artifacts. }
    unfold bind.
    destruct (needsRegen_stale env cr.2 version) as (Hst & _ & Hs).
    assert (Hstale : stale env (tick cr.2) version (self cr.2)).
    { unfold stale.
      destruct (gcdHashtabs (self cr.2) !! version) as [g|] eqn:Hentry;
        [|done].
      left. unfold registeredFor in Hnone. rewrite Hnone. simpl.
      destruct Hc1 as [Hwf _].
      destruct (Hwf _ _ Hentry) as (_ & [Hone|[Htwo _]] & _); lia. }
    apply Hst in Hstale.
    destruct (needsRegen version env cr.2) as [regen m1]. simpl in *.
    subst regen. rewrite <- Hs.
    apply generateGCD_without_artifacts. by rewrite Hs. }
  destruct (refresh version cr.1.1 env cr.2) as [[e|] m2]; simpl in *.
  - destruct Hrf as [[= ->] ->]. done.
  - by destruct Hrf as [? _].
Qed.

End Refusal.

Section TaskProgress.
Import Os Env Handlers Advance.
Context {lib : GoLib}.
Implicit Types (env : Env) (m : Machine APIHandler).

Lemma hashFiles_progress jobID gcdPath outputDir n relPaths rest :
  ∀ i results sc env m j,
    Jobs.jobs (jobStore (self m)) !! jobID = Some j →
    ∃ r m' j',
      hashFiles jobID gcdPath outputDir n relPaths i rest results sc env m
        = (r, m') ∧
      Jobs.jobs (jobStore (self m')) !! jobID = Some j' ∧
      Jobs.Progress j' =
        progressAfter n i
          (attempts env (tick m)
             (QmlDiff.binaryPath (qmldiffService (self m)))
             gcdPath outputDir relPaths i rest)
          (Jobs.Progress j).
Proof.
  induction rest as [|inputPath rest IH];
    intros i results sc env m j Hj; simpl.
  { by eexists _, m, j. }
  destruct (relPaths !! i) as [relPath|] eqn:Hrel; [|by eexists _, m, j].
  unfold bind at 1. rewrite copyFile_outcome. unfold attempt.
  destruct (copyOutcome env (tick m) inputPath
              (filepath_Join outputDir relPath)) as [[e|] k]; simpl.
  - match goal with |- context [hashFiles _ _ _ _ _ _ _ ?r ?c env ?m0] =>
      destruct (IH (S i) r c env m0 j Hj) as (r1 & m1 & j1 & -> & Hj1 & Hp)
    end.
    by eexists _, _, j1.
  - unfold withQmldiff, zoom, QmlDiff.HashDiffs. run_monad.
    destruct (run_err (run (env (k + tick m)) _ _)) as [e|] eqn:Hrun;
      simpl.
    + match goal with |- context [hashFiles _ _ _ _ _ _ _ ?r ?c env ?m0] =>
        destruct (IH (S i) r c env m0 j Hj)
          as (r1 & m1 & j1 & -> & Hj1 & Hp) end.
      by eexists _, _, j1.
    + unfold onStore. run_monad.
      assert (Hup : ∃ j2,
        Jobs.jobs (Jobs.UpdateProgress jobID (percentOf (S i) n)
                     (jobStore (self m))) !! jobID = Some j2 ∧
        Jobs.Progress j2 = Jobs.clampPercent (percentOf (S i) n)).
      { unfold Jobs.UpdateProgress. rewrite Hj, broadcastLocked_jobs.
        simpl. rewrite lookup_insert_eq. by eexists. }
      destruct Hup as (j2 & Hj2 & Hp2).
      match goal with |- context [hashFiles _ _ _ _ _ _ _ ?r ?c env ?m0] =>
        destruct (IH (S i) r c env m0 j2 Hj2)
          as (r1 & m1 & j1 & -> & Hj1 & Hp) end.
      simpl in *. eexists _, _, j1. split; [done|]. split; [done|].
      by rewrite Hp, Hp2.
Qed.

Lemma Update_progress id status message data now s j :
  Jobs.jobs s !! id = Some j →
  ∃ j', Jobs.jobs (Jobs.Update id status message data now s) !! id = Some j' ∧
        Jobs.Progress j' = Jobs.Progress j.
Proof.
  intros Hj. unfold Jobs.Update. rewrite Hj, broadcastLocked_jobs. simpl.
  rewrite lookup_insert_eq. eauto.
Qed.

Lemma UpdateWithOperation_progress id status message data operation now s j :
  Jobs.jobs s !! id = Some j →
  ∃ j', Jobs.jobs (Jobs.UpdateWithOperation id status message data
                     operation now s) !! id = Some j' ∧
        Jobs.Progress j' = Jobs.Progress j.
Proof.
  intros Hj. unfold Jobs.UpdateWithOperation.
  rewrite Hj, broadcastLocked_jobs. simpl. rewrite lookup_insert_eq. eauto.
Qed.

Lemma SetFiles_progress id files s j :
  Jobs.jobs s !! id = Some j →
  ∃ j', Jobs.jobs (Jobs.SetFiles id files s) !! id = Some j' ∧
        Jobs.Progress j' = Jobs.Progress j.
Proof.
  intros Hj. unfold Jobs.SetFiles. rewrite Hj. simpl.
  rewrite lookup_insert_eq. eauto.
Qed.

Lemma processHashJob_progress
    env m jobID version qmdFiles relPaths inputDir outputDir j0 :
  Jobs.jobs (jobStore (self m)) !! jobID = Some j0 →
  let m0 := (jobStore_UpdateWithOperation jobID "running"
               "Getting GCD hashtab" None "preparing" env m).2 in
  let g := withGcdCache (GcdCache.GetGCDHashtab version) env m0 in
  let flags :=
    match g.1 with
    | Ok gcdPath =>
        attempts env (tick g.2)
          (QmlDiff.binaryPath (qmldiffService (self m)))
          gcdPath outputDir relPaths 0 qmdFiles
    | Err _ => []
    end in
  ∃ r m' j',
    processHashJob jobID version qmdFiles relPaths inputDir outputDir env m
      = (r, m') ∧
    Jobs.jobs (jobStore (self m')) !! jobID = Some j' ∧
    Jobs.Progress j'
      = progressAfter (length qmdFiles) 0 flags (Jobs.Progress j0).
Proof.
  intros Hj0 m0 g flags. subst flags g m0.
  unfold processHashJob, jobStore_UpdateWithOperation, jobStore_Update.
  unfold bind at 1. rewrite !stamping_running. simpl.
  destruct (UpdateWithOperation_progress jobID "running"
              "Getting GCD hashtab" None "preparing" zeroTime _ _ Hj0)
    as (j1 & Hj1 & Hp1).
  unfold bind at 1.
  match goal with |- context [withGcdCache ?c env ?mm] =>
    pose proof (withGcdCache_frame c env mm) as [Hq0 Hs0];
    destruct (withGcdCache c env mm) as [[gcdPath|e] mg] end;
    simpl in Hq0, Hs0.
  - simpl. unfold bind at 1. rewrite stamping_running. simpl.
    rewrite Hs0 in *.
    destruct (UpdateWithOperation_progress jobID "running" "Hashing files"
                None "hashing" zeroTime _ _ Hj1) as (j2 & Hj2 & Hp2).
    unfold bind at 1.
    match goal with |- context [hashFiles _ _ _ _ _ _ _ _ _ env ?mm] =>
      destruct (hashFiles_progress jobID gcdPath outputDir
                  (length qmdFiles) relPaths qmdFiles 0 [] 0 env mm j2 Hj2)
        as (r & m1 & j3 & -> & Hj3 & Hp3) end.
    simpl in Hp3. rewrite Hq0, Hp2, Hp1 in Hp3.
    destruct r as [[results sc]|]; simpl.
    + unfold onStore at 1. run_monad.
      destruct (SetFiles_progress jobID results _ _ Hj3) as (j4 & Hj4 & Hp4).
      destruct (bool_decide (sc = 0)).
      * match goal with |- context [stamping ?i ?st ?f env ?mm] =>
          destruct (stamping_run i st f env mm) as (t & k & ->) end.
        simpl.
        destruct (Update_progress jobID "error" "All files failed to hash"
                    None t _ _ Hj4) as (j5 & Hj5 & Hp5).
        eexists _, _, j5. split; [done|]. split; [exact Hj5|]. congruence.
      * match goal with |- context [stamping ?i ?st ?f env ?mm] =>
          destruct (stamping_run i st f env mm) as (t & k & ->) end.
        simpl.
        match goal with
        | |- context [Jobs.Update jobID "success" ?msg None t ?s] =>
            destruct (Update_progress jobID "success" msg None t s _ Hj4)
              as (j5 & Hj5 & Hp5) end.
        eexists _, _, j5. split; [done|]. split; [exact Hj5|]. congruence.
    + run_monad. eexists _, _, j3. split; [done|]. split; [exact Hj3|done].
  - simpl. unfold bind at 1.
    match goal with |- context [stamping ?i ?st ?f env ?mm] =>
      destruct (stamping_run i st f env mm) as (t & k & Hrun) end.
    rewrite Hrun. run_monad. rewrite Hs0.
    match goal with |- context [Jobs.Update jobID "error" ?msg None t ?s] =>
      destruct (Update_progress jobID "error" msg None t s _ Hj1)
        as (j5 & Hj5 & Hp5) end.
    eexists _, _, j5. split; [done|]. split; [exact Hj5|]. congruence.
Qed.

(** X29.  The progress the task leaves is that of the last file it
    hashed: the loop reports progress after a hashed file only, as the
    share of the batch processed up to that file, and nothing else in the
    task changes it.  A batch whose last file fails ends below 100 with
    status success; a batch without a hashed file leaves the progress as
    it was. *)
Theorem processHashJob_progress_is_that_of_the_last_hashed_file
    env m jobID version qmdFiles relPaths inputDir outputDir j0 :
  Jobs.jobs (jobStore (self m)) !! jobID = Some j0 →
  let out := processHashJob jobID version qmdFiles relPaths
               inputDir outputDir env m in
  let m0 := (jobStore_UpdateWithOperation jobID "running"
               "Getting GCD hashtab" None "preparing" env m).2 in
  let g := withGcdCache (GcdCache.GetGCDHashtab version) env m0 in
  let flags :=
    match g.1 with
    | Ok gcdPath =>
        attempts env (tick g.2)
          (QmlDiff.binaryPath (qmldiffService (self m)))
          gcdPath outputDir relPaths 0 qmdFiles
    | Err _ => []
    end in
  ∃ j', Jobs.jobs (jobStore (self out.2)) !! jobID = Some j' ∧
        Jobs.Progress j'
          = progressAfter (length qmdFiles) 0 flags (Jobs.Progress j0).
Proof.
  intros Hj0 out m0 g flags.
  destruct (processHashJob_progress env m jobID version qmdFiles relPaths
              inputDir outputDir j0 Hj0) as (r & m' & j' & Hrun & Hj & Hp).
  subst out. rewrite Hrun. by exists j'.
Qed.

End TaskProgress.

Section MoreExamples.
Import Os HashtabFile Env Scenario Cases.

(** X2 at a job with two observers: [Cleanup] closes both channels, and
    the first observer's [unsubscribe] then panics. *)
Lemma Cleanup_closes_subscribers_witness :
  Jobs.watchers (Observers.store (Observers.run observed Observers.NewState))
    !! "job-1" = Some [0; 1] ∧
  (Observers.Cleanup "job-1"
     (Observers.run observed Observers.NewState)).1 = Observers.Done ∧
  (Observers.unsubscribe "job-1" 0
     (Observers.Cleanup "job-1"
        (Observers.run observed Observers.NewState)).2).1 = Observers.Panic.
Proof.
  assert (Hl : Jobs.watchers
                 (Observers.store (Observers.run observed Observers.NewState))
                 !! "job-1" = Some [0; 1]) by reflexivity.
  split; [exact Hl|].
  destruct (Cleanup_closes_subscribers observed "job-1" [0; 1] Hl)
    as (Hdone & _ & _ & _ & _ & Hclosed).
  split; [exact Hdone|]. apply (Hclosed 0). left.
Defined.

(** X4 at the same job: the first observer leaves, the job is updated,
    and the buffer of the channel that left gets nothing. *)
Lemma unsubscribe_is_final_witness :
  Jobs.watchers (Observers.store (Observers.run observed Observers.NewState))
    !! "job-1" = Some [0; 1] ∧
  (Observers.unsubscribe "job-1" 0
     (Observers.run observed Observers.NewState)).1 = Observers.Done ∧
  Jobs.watchers
    (Observers.store
       (Observers.unsubscribe "job-1" 0
          (Observers.run observed Observers.NewState)).2) !! "job-1"
    = Some [1] ∧
  suffix
    (Jobs.buffer 0
       (Observers.store
          (Observers.run
             [Observers.SCall (Client.CUpdateProgress "job-1" 50)]
             (Observers.unsubscribe "job-1" 0
                (Observers.run observed Observers.NewState)).2)))
    (Jobs.buffer 0
       (Observers.store (Observers.run observed Observers.NewState))).
Proof.
  assert (Hl : Jobs.watchers
                 (Observers.store (Observers.run observed Observers.NewState))
                 !! "job-1" = Some [0; 1]) by reflexivity.
  assert (Hin : 0 ∈ [0; 1]) by left.
  split; [exact Hl|].
  destruct (unsubscribe_is_final observed
              [Observers.SCall (Client.CUpdateProgress "job-1" 50)]
              "job-1" [0; 1] 0 Hl Hin) as (Hdone & _ & Hw & _ & Hsuf).
  split; [exact Hdone|]. split; [exact Hw|exact Hsuf].
Defined.

(** X6 at a job whose progress was reported as 150. *)
Lemma progress_stays_within_bounds_witness :
  ∃ j, Jobs.jobs
         (Observers.store (Observers.run overshoot Observers.NewState))
         !! "job-1" = Some j ∧
       Jobs.Progress j = 100%Z ∧
       (0 ≤ Jobs.Progress j ≤ 100)%Z.
Proof.
  eexists. split; [reflexivity|]. split; [reflexivity|].
  exact (progress_stays_within_bounds overshoot "job-1" _ eq_refl).
Defined.

(** X7 at a job that ended at time 20. *)
Lemma finished_jobs_carry_a_completion_time_witness :
  ∃ j, Jobs.jobs
         (Observers.store (Observers.run finished Observers.NewState))
         !! "job-1" = Some j ∧
       Jobs.terminal (Jobs.Status j) = true ∧
       is_Some (Jobs.CompletedAt j).
Proof.
  eexists. split; [reflexivity|]. split; [reflexivity|].
  exact (finished_jobs_carry_a_completion_time finished "job-1" _
           eq_refl eq_refl).
Defined.

(** X8 at a job with an observer who never reads and one who has just
    joined: the next update is lost on the first and reaches the
    second. *)
Lemma full_buffer_drops_the_update_witness :
  length (Jobs.buffer 0 crowded) = Jobs.chanCap ∧
  (length (Jobs.buffer 1 crowded) < Jobs.chanCap)%nat ∧
  Jobs.buffer 0
    (Client.perform (Client.CUpdateProgress "job-1" 99) crowded)
    = Jobs.buffer 0 crowded ∧
  length (Jobs.buffer 1
            (Client.perform (Client.CUpdateProgress "job-1" 99) crowded))
    = 2.
Proof.
  assert (Hfull : length (Jobs.buffer 0 crowded) = Jobs.chanCap)
    by (vm_compute; reflexivity).
  assert (Hroom : (length (Jobs.buffer 1 crowded) < Jobs.chanCap)%nat)
    by (vm_compute; lia).
  assert (Hmade : (0 < Jobs.nextChan crowded)%nat) by (vm_compute; lia).
  assert (Hjob : Jobs.jobs crowded !! "job-1"
                 = Some (default freshJob (Jobs.jobs crowded !! "job-1")))
    by (vm_compute; reflexivity).
  assert (Hother : Client.taken 0 (Client.CUpdateProgress "job-1" 99) crowded
                   = []) by (vm_compute; reflexivity).
  assert (Hreg : Client.registered 1 "job-1" crowded).
  { apply (Subscribe_registers "job-1"
             (Client.replay unread Jobs.NewStore)).
    apply allocated_replay, allocated_NewStore. }
  split; [exact Hfull|]. split; [exact Hroom|].
  destruct (full_buffer_drops_the_update
              (Client.CUpdateProgress "job-1" 99) 0 1 "job-1" _ crowded
              Hmade Hreg Hjob Hfull Hroom Hother)
    as (Hslow & _ & _).
  split; [exact Hslow|vm_compute; reflexivity].
Defined.

(** X11 at the loaded registry, with the first artifact touched since. *)
Lemma CheckAndReload_reloads_exactly_on_change_witness :
  (5 * Second ≤ time_Sub (now (still touchedTree succeeds
                                 (tick registryMachine)))
                  (Hashtabs.lastReloadCheck (self registryMachine)))%Z ∧
  failure (walkDir (still touchedTree succeeds
                      (S (S (tick registryMachine))))
             (Hashtabs.dir (self registryMachine))) = None ∧
  (Hashtabs.CheckAndReload (lib := unixLib) (still touchedTree succeeds)
     registryMachine).1 = (true, None).
Proof.
  assert (Hdue :
    (5 * Second ≤ time_Sub (now (still touchedTree succeeds
                                   (tick registryMachine)))
                    (Hashtabs.lastReloadCheck (self registryMachine)))%Z)
    by (vm_compute; discriminate).
  assert (Hok :
    failure (walkDir (still touchedTree succeeds
                        (S (S (tick registryMachine))))
               (Hashtabs.dir (self registryMachine))) = None)
    by reflexivity.
  split; [exact Hdue|]. split; [exact Hok|].
  destruct (CheckAndReload_reloads_exactly_on_change (lib := unixLib)
              (still touchedTree succeeds) registryMachine Hdue Hok)
    as [Hchanged _].
  apply Hchanged. left. exists "/ht/v1-rm1", 9%Z.
  split; [vm_compute; left|vm_compute; discriminate].
Defined.

(** X12 at the loaded registry with a clock that moves one second with
    every interaction: the first check is due, the second comes two
    seconds after it. *)
Lemma check_within_five_seconds_does_nothing_witness :
  (5 * Second ≤ time_Sub (now (ticking cleanTree (tick registryMachine)))
                  (Hashtabs.lastReloadCheck (self registryMachine)))%Z ∧
  Hashtabs.CheckAndReload (lib := unixLib) (ticking cleanTree)
    (Hashtabs.CheckAndReload (lib := unixLib) (ticking cleanTree)
       registryMachine).2
  = ((false, None),
     mkMachine 6 []
       (self (Hashtabs.CheckAndReload (lib := unixLib) (ticking cleanTree)
                registryMachine).2)).
Proof.
  assert (Hdue :
    (5 * Second ≤ time_Sub (now (ticking cleanTree (tick registryMachine)))
                    (Hashtabs.lastReloadCheck (self registryMachine)))%Z)
    by (vm_compute; discriminate).
  assert (Hsoon :
    (time_Sub
       (now (ticking cleanTree
               (tick (Hashtabs.CheckAndReload (lib := unixLib)
                        (ticking cleanTree) registryMachine).2)))
       (now (ticking cleanTree (S (tick registryMachine))))
     < 5 * Second)%Z) by (vm_compute; reflexivity).
  split; [exact Hdue|].
  exact (check_within_five_seconds_does_nothing (lib := unixLib)
           (ticking cleanTree) registryMachine Hdue Hsoon).
Defined.

(** X13 at the loaded registry and an unchanged directory. *)
Lemma unchanged_directory_is_not_reloaded_witness :
  (Hashtabs.CheckAndReload (lib := unixLib) (still cleanTree succeeds)
     registryMachine).1.1 = false ∧
  Hashtabs.tables
    (self (Hashtabs.CheckAndReload (lib := unixLib)
             (still cleanTree succeeds) registryMachine).2)
    = Hashtabs.tables registry.
Proof.
  assert (Htimes :
    Hashtabs.modTimes (self registryMachine)
    = Hashtabs.modTimes
        (Hashtabs.loadWalk (lib := unixLib) (still cleanTree succeeds 1)
           (Hashtabs.emptyService (Hashtabs.dir (self registryMachine)))))
    by reflexivity.
  assert (Hfiles :
    ∀ e, e ∈ visited (walkDir (still cleanTree succeeds 1)
                        (Hashtabs.dir (self registryMachine))) →
         de_IsDir e = false →
         is_Some (load (still cleanTree succeeds 1) (de_path e)) ∧
         is_Some (de_Info e)).
  { apply (proj1 (Forall_forall
                    (λ e, de_IsDir e = false →
                          is_Some (load (still cleanTree succeeds 1)
                                     (de_path e)) ∧
                          is_Some (de_Info e)) _)).
    vm_compute. repeat constructor; try discriminate; by eexists. }
  assert (Hnames :
    NoDup (map (λ e, @filepath_Base unixLib (de_path e))
             (filter (λ e, de_IsDir e = false)
                (visited (walkDir (still cleanTree succeeds 1)
                            (Hashtabs.dir (self registryMachine))))))).
  { vm_compute. apply NoDup_cons. split; [|apply NoDup_singleton].
    intros Hin. apply list_elem_of_singleton in Hin. discriminate. }
  assert (Hsame :
    visited (walkDir (still cleanTree succeeds
                        (S (S (tick registryMachine))))
               (Hashtabs.dir (self registryMachine)))
    = visited (walkDir (still cleanTree succeeds 1)
                 (Hashtabs.dir (self registryMachine)))) by reflexivity.
  exact (unchanged_directory_is_not_reloaded (lib := unixLib)
           (still cleanTree succeeds) registryMachine
           (still cleanTree succeeds 1) Htimes Hfiles Hnames Hsame).
Defined.

(** X14 beside a file that does not parse. *)
Lemma unparsable_file_is_a_change_at_every_check_witness :
  load (still strayTree succeeds 1) "/ht/README.md" = None ∧
  (Hashtabs.CheckAndReload (lib := unixLib) (still strayTree succeeds)
     (mkMachine 2 [] registryBesideStray)).1 = (true, None).
Proof.
  assert (Hload : load (still strayTree succeeds 1) "/ht/README.md" = None)
    by reflexivity.
  assert (Htimes :
    Hashtabs.modTimes registryBesideStray
    = Hashtabs.modTimes
        (Hashtabs.loadWalk (lib := unixLib) (still strayTree succeeds 1)
           (Hashtabs.emptyService (Hashtabs.dir registryBesideStray))))
    by reflexivity.
  assert (Hseen :
    ("/ht/README.md", 5%Z)
    ∈ Registry.statted
        (visited (walkDir (still strayTree succeeds 4)
                    (Hashtabs.dir registryBesideStray))))
    by (vm_compute; left).
  assert (Hdue :
    (5 * Second ≤ time_Sub (now (still strayTree succeeds 2%nat))
                    (Hashtabs.lastReloadCheck registryBesideStray))%Z)
    by (vm_compute; discriminate).
  assert (Hok :
    failure (walkDir (still strayTree succeeds 4)
               (Hashtabs.dir registryBesideStray)) = None) by reflexivity.
  split; [exact Hload|].
  exact (proj1 (unparsable_file_is_a_change_at_every_check (lib := unixLib)
                  (still strayTree succeeds)
                  (mkMachine 2 [] registryBesideStray)
                  (still strayTree succeeds 1) "/ht/README.md" 5%Z
                  Htimes Hload Hseen Hdue Hok)).
Defined.

(** X16 at a registry with the versions 3.9 and 3.20. *)
Lemma GetVersions_is_the_only_sorted_arrangement_witness :
  StronglySorted Registry.notAfter listed ∧
  listed = Registry.GetVersions twoVersions.
Proof.
  assert (Hs : StronglySorted Registry.notAfter listed).
  { repeat constructor. }
  split; [exact Hs|].
  apply (GetVersions_is_the_only_sorted_arrangement twoVersions listed);
    [|exact Hs].
  vm_compute. first [reflexivity | apply perm_swap].
Defined.

(** X22 at the batch of two files whose second file the engine
    rejects. *)
Lemma processHashJob_removes_failed_outputs_witness :
  Jobs.jobs (Handlers.jobStore (self taskMachine)) !! "job-1"
    = Some freshJob ∧
  (length batch ≤ length batchNames)%nat ∧
  Residue.removals
    (trace (Handlers.processHashJob (lib := unixLib) "job-1" "v1" batch
              batchNames "/in" "/out" (still cleanTree failsOnB)
              taskMachine).2)
  = [Remove "/out/b.qmd"; RemoveAll "/in"].
Proof.
  assert (Hjob : Jobs.jobs (Handlers.jobStore (self taskMachine)) !! "job-1"
                 = Some freshJob) by reflexivity.
  assert (Hnames : (length batch ≤ length batchNames)%nat)
    by (vm_compute; lia).
  split; [exact Hjob|]. split; [exact Hnames|].
  etrans.
  - exact (processHashJob_removes_failed_outputs_and_directories
             (lib := unixLib) (still cleanTree failsOnB) taskMachine
             "job-1" "v1" batch batchNames "/in" "/out" freshJob
             Hjob Hnames).
  - vm_compute. reflexivity.
Defined.

(** X24 at a form with one diff, one file that is no diff and one empty
    diff: the task gets the one diff. *)
Lemma task_of_Hash_never_panics_witness :
  (Api.Hash (lib := unixLib) (plib := plainPaths) form outside
     (still cleanTree succeeds) taskMachine).1.2 = Some started ∧
  (Api.runTask (lib := unixLib) started (still cleanTree succeeds)
     (Api.Hash (lib := unixLib) (plib := plainPaths) form outside
        (still cleanTree succeeds) taskMachine).2).1 = Handlers.Returned.
Proof.
  assert (Hstarted :
    (Api.Hash (lib := unixLib) (plib := plainPaths) form outside
       (still cleanTree succeeds) taskMachine).1.2 = Some started)
    by reflexivity.
  split; [exact Hstarted|].
  exact (task_of_Hash_never_panics (lib := unixLib) (plib := plainPaths)
           form outside (still cleanTree succeeds) taskMachine started
           (still cleanTree succeeds) _ Hstarted).
Defined.

(** X26 at the job whose progress was reported as 150. *)
Lemma GetResults_reports_progress_witness :
  Handlers.jobStore reporting
    = Observers.store (Observers.run overshoot Observers.NewState) ∧
  Api.GetResults "job-1" reporting
    = Api.InProgress "pending" "Job created" 100 "" 2 ∧
  match Api.GetResults "job-1" reporting with
  | Api.InProgress status _ progress _ _ =>
      Jobs.terminal status = false ∧ (0 ≤ progress ≤ 100)%Z
  | Api.Finished status _ files fileCount =>
      Jobs.terminal status = true ∧
      ∃ job, Jobs.Get "job-1" (Handlers.jobStore reporting) = Some job ∧
             Jobs.Files job = files ∧ Jobs.FileCount job = fileCount ∧
             is_Some (Jobs.CompletedAt job)
  | Api.JSONError code _ =>
      (code = Api.StatusBadRequest ∧ "job-1" = "") ∨
      (code = Api.StatusNotFound ∧
       Jobs.Get "job-1" (Handlers.jobStore reporting) = None)
  | _ => False
  end.
Proof.
  split; [reflexivity|]. split; [reflexivity|].
  exact (GetResults_reports_progress_until_the_job_is_finished
           overshoot "job-1" reporting eq_refl).
Defined.

(** X27 at the job with two observers. *)
Lemma Create_drops_observers_witness :
  Jobs.watchers (Observers.store (Observers.run observed Observers.NewState))
    !! "job-1" = Some [0; 1] ∧
  Observers.unlinked 1
    (Observers.store
       (Observers.advance (Observers.SCreate "job-1")
          (Observers.run observed Observers.NewState))) ∧
  (Observers.unsubscribe "job-1" 1
     (Observers.advance (Observers.SCreate "job-1")
        (Observers.run observed Observers.NewState))).1 = Observers.Done.
Proof.
  assert (Hl : Jobs.watchers
                 (Observers.store (Observers.run observed Observers.NewState))
                 !! "job-1" = Some [0; 1]) by reflexivity.
  assert (Hin : 1 ∈ [0; 1]) by (right; left).
  split; [exact Hl|].
  destruct (Create_drops_observers_without_closing observed [] "job-1"
              [0; 1] 1 Hl Hin) as (_ & Hun & _ & Hdone).
  split; [exact Hun|exact Hdone].
Defined.

(** X28 at the cache of the loaded registry, asked for a version no
    artifact has. *)
Lemma version_without_artifacts_is_refused_witness :
  GcdCache.registeredFor "v9"
    (self (GcdCache.withRegistry (Hashtabs.CheckAndReload (lib := unixLib))
             (still cleanTree succeeds)
             (Generation.serveAll (lib := unixLib)
                [Generation.RGenerateAll] (still cleanTree succeeds)
                (mkMachine 2 []
                   (Generation.fresh "/gcd" "/app/qmldiff" registry))).2).2)
    = [] ∧
  (GcdCache.GetGCDHashtab (lib := unixLib) "v9" (still cleanTree succeeds)
     (Generation.serveAll (lib := unixLib)
        [Generation.RGenerateAll] (still cleanTree succeeds)
        (mkMachine 2 []
           (Generation.fresh "/gcd" "/app/qmldiff" registry))).2).1
    = Err "no hashtabs found for version v9".
Proof.
  assert (Hnone :
    GcdCache.registeredFor "v9"
      (self (GcdCache.withRegistry (Hashtabs.CheckAndReload (lib := unixLib))
               (still cleanTree succeeds)
               (Generation.serveAll (lib := unixLib)
                  [Generation.RGenerateAll] (still cleanTree succeeds)
                  (mkMachine 2 []
                     (Generation.fresh "/gcd" "/app/qmldiff" registry))).2).2)
      = []) by (vm_compute; reflexivity).
  split; [exact Hnone|].
  exact (proj1 (version_without_artifacts_is_refused (lib := unixLib)
                  (still cleanTree succeeds) 2 "/gcd" "/app/qmldiff"
                  registry [Generation.RGenerateAll] "v9" Hnone)).
Defined.

(** X29 at the batch of two files whose second file the engine rejects:
    the job ends with status success and progress 50. *)
Lemma processHashJob_progress_witness :
  Jobs.jobs (Handlers.jobStore (self taskMachine)) !! "job-1"
    = Some freshJob ∧
  ∃ j', Jobs.jobs
          (Handlers.jobStore
             (self (Handlers.processHashJob (lib := unixLib) "job-1" "v1"
                      batch batchNames "/in" "/out"
                      (still cleanTree failsOnB) taskMachine).2))
          !! "job-1" = Some j' ∧
        Jobs.Progress j' = 50%Z.
Proof.
  assert (Hjob : Jobs.jobs (Handlers.jobStore (self taskMachine)) !! "job-1"
                 = Some freshJob) by reflexivity.
  split; [exact Hjob|].
  destruct (processHashJob_progress_is_that_of_the_last_hashed_file
              (lib := unixLib) (still cleanTree failsOnB) taskMachine
              "job-1" "v1" batch batchNames "/in" "/out" freshJob Hjob)
    as (j' & Hj & Hp).
  exists j'. split; [exact Hj|]. etrans; [exact Hp|].
  vm_compute. reflexivity.
Defined.

End MoreExamples.
